(** * 8gen: the word-search engine of [8gen.py]

    A shallow embedding of the combinatorial core of the generator
    (direction catalog, collision checker, word writer, greedy scheduler and
    the two cell fillers) together with the properties the specification
    states about it; then of the code around the core: the page pipeline of
    [save_pdf], the reading of words and phrases, the choice of the phrase
    in [main], the columns of the word list, and the scheduler of the
    earlier version [8gen_zaloha.py].

    Conventions.
    - Python integers are [Z]; list indices follow Python's rules (a negative
      index counts from the end, an index out of range raises [IndexError]).
    - A Python [str] is the list of its code points ([N]); a grid cell is
      [option] of a code point, [None] being Python's [None].
    - The grid is a list of rows.  The functions of the source mutate it in
      place and return nothing; here they take the grid and return the grid
      after the mutation.  The rows built by [make_empty] are distinct
      objects, so no two rows alias.
    - The module [random] is a global generator.  It is modelled by a tape of
      raw draws with a cursor; every theorem holds for every tape, and every
      value [random.randint] or [random.choice] may return comes out for some
      tape ([randint_any], [choice_any]).
    - Exceptions are explicit: a computation returns [Ok v] or [Raise e]; the
      generator keeps the draws made before an exception.
    - The trial loop of [greedy_place] records each trial in a ghost trace.
      The trace is write-only ([ghost_only_greedy_place]): results and draws
      are those of the program without it.  It gives the statements about
      "every trial" and "every accepted placement" something to speak of. *)

From Stdlib Require Import ZArith NArith String Ascii.
From stdpp Require Import base tactics option list numbers strings sorting gmap.

Local Open Scope Z_scope.

(* ===================================================================== *)
(** ** Python values *)
(* ===================================================================== *)

Abbreviation char := N (only parsing).
Abbreviation pystr := (list N) (only parsing).
Abbreviation cell := (option N) (only parsing).
Abbreviation grid := (list (list (option N))) (only parsing).

(** ASCII literals, for examples: [str "CAT"] is the Python string ['CAT']. *)
Definition str (s : string) : pystr :=
  map N_of_ascii (list_ascii_of_string s).

(** [len(x)] *)
Definition len {A} (l : list A) : Z := Z.of_nat (length l).

(** The exceptions the modelled code can raise. *)
Inductive exn := IndexError | ValueError.

(** The outcome of a call: a value, or an exception. *)
Inductive res (A : Type) : Type :=
| Ok (a : A)
| Raise (e : exn).
Arguments Ok {A} a.
Arguments Raise {A} e.

(** Python's index normalisation: [0 <= i < n] is itself, [-n <= i < 0]
    counts from the end, anything else is out of range. *)
Definition py_index (n : nat) (i : Z) : option nat :=
  if (0 <=? i) && (i <? Z.of_nat n) then Some (Z.to_nat i)
  else if (- Z.of_nat n <=? i) && (i <? 0) then Some (Z.to_nat (Z.of_nat n + i))
  else None.

(** [l[i]] *)
Definition getitem {A} (l : list A) (i : Z) : res A :=
  match py_index (length l) i with
  | Some k => match l !! k with Some a => Ok a | None => Raise IndexError end
  | None => Raise IndexError
  end.

(** [l[i] = v] *)
Definition setitem {A} (l : list A) (i : Z) (v : A) : res (list A) :=
  match py_index (length l) i with
  | Some k => Ok (<[k:=v]> l)
  | None => Raise IndexError
  end.

(** [g[a][b]] *)
Definition getcell (g : grid) (a b : Z) : res cell :=
  match getitem g a with
  | Ok row => getitem row b
  | Raise e => Raise e
  end.

(** [g[a][b] = v] : the row object [g[a]] is updated in place. *)
Definition setcell (g : grid) (a b : Z) (v : cell) : res grid :=
  match getitem g a with
  | Ok row =>
      match setitem row b v with
      | Ok row' => setitem g a row'
      | Raise e => Raise e
      end
  | Raise e => Raise e
  end.

(* ===================================================================== *)
(** ** Direction catalog *)
(* ===================================================================== *)

(** A direction [(dx, dy, name)]. *)
Definition direction : Type := Z * Z * string.

(** [DIRECTIONS] *)
Definition DIRECTIONS : list direction :=
  [ (1, 0, "E"%string); (0, 1, "S"%string); (1, 1, "SE"%string); (-1, 1, "SW"%string);
    (-1, 0, "W"%string); (0, -1, "N"%string); (-1, -1, "NW"%string); (1, -1, "NE"%string) ].

(** The set [forward] of [pick_allowed]; it is only tested for membership. *)
Definition forward : list string :=
  [ "E"%string; "S"%string; "SE"%string; "SW"%string ].

(** [[
def pick_allowed(diagonals=True, backwards=True):
    forward={"E","S","SE","SW"}
    allowed=[d for d in DIRECTIONS if diagonals or d[0]==0 or d[1]==0]
    return allowed if backwards else [d for d in allowed if d[2] in forward]
]] *)
Definition pick_allowed (diagonals backwards : bool) : list direction :=
  let allowed :=
    filter (λ d : direction, diagonals = true ∨ d.1.1 = 0 ∨ d.1.2 = 0) DIRECTIONS in
  if backwards then allowed
  else filter (λ d : direction, d.2 ∈ forward) allowed.

(* ===================================================================== *)
(** ** Grid construction, collision checker, word writer *)
(* ===================================================================== *)

(** [[[None for _ in range(n)] for __ in range(n)]] *)
Definition make_empty (n : Z) : grid :=
  replicate (Z.to_nat n) (replicate (Z.to_nat n) None).

(** [[
def can_place(grid,x,y,dx,dy,word):
    n=len(grid)
    for i,ch in enumerate(word):
        cx,cy=x+dx*i,y+dy*i
        if cx<0 or cy<0 or cx>=n or cy>=n: return False
        cell=grid[cy][cx]
        if cell is not None and cell!=ch: return False
    return True
]]
    [can_place_from] is the loop from index [i] on; [word] is what
    [enumerate] still has to yield. *)
Fixpoint can_place_from (g : grid) (x y dx dy : Z) (i : Z) (word : pystr)
  : res bool :=
  match word with
  | [] => Ok true
  | ch :: rest =>
      let n := len g in
      let cx := x + dx * i in
      let cy := y + dy * i in
      if (cx <? 0) || (cy <? 0) || (cx >=? n) || (cy >=? n) then Ok false
      else
        match getcell g cy cx with
        | Raise e => Raise e
        | Ok c =>
            if bool_decide (c ≠ None) && bool_decide (c ≠ Some ch) then Ok false
            else can_place_from g x y dx dy (i + 1) rest
        end
  end.

(** [can_place(grid,x,y,dx,dy,word)] *)
Definition can_place (g : grid) (x y dx dy : Z) (word : pystr) : res bool :=
  can_place_from g x y dx dy 0 word.

(** [[
def place_word(grid,x,y,dx,dy,word):
    for i,ch in enumerate(word): grid[y+dy*i][x+dx*i]=ch
]]
    There is no bounds check here: a negative index wraps around and an
    index past the end raises, as [setcell] does. *)
Fixpoint place_word_from (g : grid) (x y dx dy : Z) (i : Z) (word : pystr)
  : res grid :=
  match word with
  | [] => Ok g
  | ch :: rest =>
      match setcell g (y + dy * i) (x + dx * i) (Some ch) with
      | Raise e => Raise e
      | Ok g' => place_word_from g' x y dx dy (i + 1) rest
      end
  end.

(** [place_word(grid,x,y,dx,dy,word)] *)
Definition place_word (g : grid) (x y dx dy : Z) (word : pystr) : res grid :=
  place_word_from g x y dx dy 0 word.

(* ===================================================================== *)
(** ** The world: the global random generator and a ghost trace *)
(* ===================================================================== *)

(** The generator of module [random]: [tape] is the sequence of raw draws it
    will deliver, [cursor] the number of draws already consumed. *)
Record Random := { tape : nat → nat; cursor : nat }.

(** What became of one iteration of the trial loop of [greedy_place]. *)
Inductive verdict := Collision | Reserved | Accepted.

Global Instance verdict_eq_dec : EqDecision verdict.
Proof. solve_decision. Defined.

(** Ghost record of one trial: the word, the direction and origin drawn, the
    grid the trial saw and its verdict.  The trace is only ever appended to
    (by [log]); no computation reads it. *)
Record trial := {
  t_word : pystr;
  t_dx : Z; t_dy : Z;
  t_x : Z; t_y : Z;
  t_grid : grid;
  t_verdict : verdict
}.

(** The state that outlives a call: the generator and the ghost trace. *)
Record World := { rng : Random; trace : list trial }.

(** A computation reads and updates the world and returns or raises; the
    world survives an exception, as Python's global state does. *)
Definition M (A : Type) : Type := World → res A * World.

Global Instance M_ret : MRet M := λ A a w, (Ok a, w).
Global Instance M_bind : MBind M := λ A B f m w,
  match m w with
  | (Ok a, w') => f a w'
  | (Raise e, w') => (Raise e, w')
  end.

(** [raise e] *)
Definition raise {A} (e : exn) : M A := λ w, (Raise e, w).

(** A computation that touches neither the generator nor the trace. *)
Definition lift {A} (r : res A) : M A := λ w, (r, w).

(** Ghost: record a trial. *)
Definition log (t : trial) : M unit :=
  λ w, (Ok tt, {| rng := rng w; trace := t :: trace w |}).

(** The next raw draw, reduced to [0 .. k-1]: what [random] calls
    [_randbelow(k)].  It is never called with [k = 0]. *)
Definition randbelow (k : nat) : M nat := λ w,
  let r := rng w in
  (Ok (tape r (cursor r) `mod` k)%nat,
   {| rng := {| tape := tape r; cursor := S (cursor r) |}; trace := trace w |}).

(** [random.choice(seq)] *)
Definition choice {A} (l : list A) : M A :=
  match l with
  | [] => raise IndexError
  | _ => i ← randbelow (length l); lift (getitem l (Z.of_nat i))
  end.

(** [random.randint(a, b)] *)
Definition randint (a b : Z) : M Z :=
  if b <? a then raise ValueError
  else i ← randbelow (Z.to_nat (b - a + 1)); mret (a + Z.of_nat i).

(** [x[i], x[j] = x[j], x[i]] *)
Definition swap {A} (x : list A) (i j : nat) : list A :=
  match x !! i, x !! j with
  | Some a, Some b => <[j:=a]> (<[i:=b]> x)
  | _, _ => x
  end.

(** The loop of [random.shuffle(x)]: for [i] from [len(x)-1] down to [1],
    exchange [x[i]] with [x[j]] for a drawn [j <= i]. *)
Fixpoint shuffle_from {A} (i : nat) (x : list A) : M (list A) :=
  match i with
  | O => mret x
  | S i' => j ← randbelow (S i); shuffle_from i' (swap x i j)
  end.

(** [random.shuffle(x)] *)
Definition shuffle {A} (x : list A) : M (list A) :=
  shuffle_from (length x - 1)%nat x.

(** [for a in l: s = body(a, s)] *)
Fixpoint for_each {A S} (l : list A) (body : A → S → M S) (s : S) : M S :=
  match l with
  | [] => mret s
  | a :: l' => s' ← body a s; for_each l' body s'
  end.

(** [range(n)] *)
Definition range (n : Z) : list Z := seqZ 0 n.

(* ===================================================================== *)
(** ** Cell fillers *)
(* ===================================================================== *)

(** [[
def fill_random(grid,alphabet):
    n=len(grid)
    for y in range(n):
        for x in range(n):
            if grid[y][x] is None: grid[y][x]=random.choice(alphabet)
]] *)
Definition fill_random (g : grid) (alphabet : pystr) : M grid :=
  let n := len g in
  for_each (range n) (λ y g,
    for_each (range n) (λ x g,
      c ← lift (getcell g y x);
      match c with
      | None => ch ← choice alphabet; lift (setcell g y x (Some ch))
      | Some _ => mret g
      end) g) g.

(** The part of Python's Unicode database that [fill_with_tajenka] reaches
    through [unicodedata.normalize("NFD", s)], [unicodedata.category(c)] and
    [str.upper]; it is not code of the repository and stays a parameter. *)
Record Unicode := {
  normalize_NFD : pystr → pystr;
  category_is_Mn : char → bool;
  upper : pystr → pystr
}.

(** [[
def remove_diacritics(s):
    return ''.join(c for c in unicodedata.normalize("NFD",s)
                   if unicodedata.category(c)!="Mn")
]] *)
Definition remove_diacritics (U : Unicode) (s : pystr) : pystr :=
  filter (λ c, category_is_Mn U c = false) (normalize_NFD U s).

(** Insertion of a code point into an increasing list without duplicates. *)
Fixpoint sorted_insert (c : char) (l : pystr) : pystr :=
  match l with
  | [] => [c]
  | d :: l' =>
      if (c <? d)%N then c :: d :: l'
      else if (c =? d)%N then d :: l'
      else d :: sorted_insert c l'
  end.

(** [sorted(set(l))] *)
Definition sorted_set (l : pystr) : pystr := foldr sorted_insert [] l.

(** [''.join(sorted(set([ch for ch in remove_diacritics(alphabet).upper()
    if 'A'<=ch<='Z'])))] *)
Definition letters_random (U : Unicode) (alphabet : pystr) : pystr :=
  sorted_set
    (filter (λ ch : N, (65 ≤ ch)%N ∧ (ch ≤ 90)%N)
       (upper U (remove_diacritics U alphabet))).

(** [[(y,x) for x,val in enumerate(row) if val is None]], columns from [x]. *)
Fixpoint empties_row (y x : Z) (row : list cell) : list (Z * Z) :=
  match row with
  | [] => []
  | val :: rest =>
      match val with
      | None => (y, x) :: empties_row y (x + 1) rest
      | Some _ => empties_row y (x + 1) rest
      end
  end.

(** [[(y,x) for y,row in enumerate(grid) for x,val in enumerate(row)
    if val is None]], rows from [y]. *)
Fixpoint empties_from (y : Z) (g : grid) : list (Z * Z) :=
  match g with
  | [] => []
  | row :: rest => empties_row y 0 row ++ empties_from (y + 1) rest
  end.

(** The list [empties] of [fill_with_tajenka]. *)
Definition empties_of (g : grid) : list (Z * Z) := empties_from 0 g.

(** [[
def fill_with_tajenka(grid,alphabet,tajenka):
    letters_random=''.join(sorted(set([ch for ch in
        remove_diacritics(alphabet).upper() if 'A'<=ch<='Z'])))
    empties=[(y,x) for y,row in enumerate(grid)
                   for x,val in enumerate(row) if val is None]
    for i,(y,x) in enumerate(empties):
        grid[y][x]=tajenka[i] if i<len(tajenka) else random.choice(letters_random)
]]
    [fill_cells] is the last loop from index [i] on. *)
Fixpoint fill_cells (g : grid) (letters tajenka : pystr) (i : Z)
    (cells : list (Z * Z)) : M grid :=
  match cells with
  | [] => mret g
  | (y, x) :: rest =>
      ch ← (if i <? len tajenka then lift (getitem tajenka i)
            else choice letters);
      g' ← lift (setcell g y x (Some ch));
      fill_cells g' letters tajenka (i + 1) rest
  end.

(** [fill_with_tajenka(grid,alphabet,tajenka)] *)
Definition fill_with_tajenka (U : Unicode) (g : grid) (alphabet tajenka : pystr)
  : M grid :=
  let letters := letters_random U alphabet in
  let empties := empties_of g in
  fill_cells g letters tajenka 0 empties.

(* ===================================================================== *)
(** ** Greedy scheduler *)
(* ===================================================================== *)

(** [sum(f(a) for a in l)] *)
Definition sumZ {A} (f : A → Z) (l : list A) : Z :=
  foldr (λ a acc, f a + acc) 0 l.

(** [1 if c is None else 0] *)
Definition is_None (c : cell) : Z :=
  match c with None => 1 | Some _ => 0 end.

(** [sum(1 for cell in row if cell is None)] *)
Definition count_none (row : list cell) : Z := sumZ is_None row.

(** [sum(1 for row in grid for cell in row if cell is None)] *)
Definition count_empty (g : grid) : Z := sumZ count_none g.

(** [sum(1 for i in is if grid[y+dy*i][x+dx*i] is None)] *)
Fixpoint new_cells_over (g : grid) (x y dx dy : Z) (indices : list Z) : res Z :=
  match indices with
  | [] => Ok 0
  | i :: rest =>
      match getcell g (y + dy * i) (x + dx * i) with
      | Raise e => Raise e
      | Ok c =>
          match new_cells_over g x y dx dy rest with
          | Raise e => Raise e
          | Ok k => Ok (is_None c + k)
          end
      end
  end.

(** [sum(1 for i in range(len(w)) if grid[y+dy*i][x+dx*i] is None)] *)
Definition new_cells (g : grid) (x y dx dy : Z) (w : pystr) : res Z :=
  new_cells_over g x y dx dy (range (len w)).

(** Insertion for a stable sort, longest first: words of equal length keep
    their order. *)
Fixpoint insert_by_len (w : pystr) (l : list pystr) : list pystr :=
  match l with
  | [] => [w]
  | v :: l' =>
      if len w <? len v then v :: insert_by_len w l' else w :: v :: l'
  end.

(** [words_pool.sort(key=len, reverse=True)] *)
Definition sort_by_len_desc (l : list pystr) : list pystr :=
  foldr insert_by_len [] l.

(** The origin ranges of one trial. *)
Definition max_x (n dx : Z) (w : pystr) : Z := if dx <=? 0 then n - 1 else n - len w.
Definition min_x (dx : Z) (w : pystr) : Z := if dx >=? 0 then 0 else len w - 1.
Definition max_y (n dy : Z) (w : pystr) : Z := if dy <=? 0 then n - 1 else n - len w.
Definition min_y (dy : Z) (w : pystr) : Z := if dy >=? 0 then 0 else len w - 1.

(** Ghost: the record of one trial. *)
Definition mk_trial (w : pystr) (dx dy x y : Z) (g : grid) (v : verdict) : trial :=
  {| t_word := w; t_dx := dx; t_dy := dy; t_x := x; t_y := y;
     t_grid := g; t_verdict := v |}.

(** [[
for _ in range(1000):
    dx,dy,_=random.choice(allowed)
    max_x=n-1 if dx<=0 else n-len(w); min_x=0 if dx>=0 else len(w)-1
    max_y=n-1 if dy<=0 else n-len(w); min_y=0 if dy>=0 else len(w)-1
    x,y=random.randint(min_x,max_x),random.randint(min_y,max_y)
    if can_place(grid,x,y,dx,dy,w):
        new_cells=sum(1 for i in range(len(w)) if grid[y+dy*i][x+dx*i] is None)
        empties=sum(1 for row in grid for cell in row if cell is None)
        if tajenka_len and (empties-new_cells)<tajenka_len: continue
        place_word(grid,x,y,dx,dy,w); placed.append(w); break
]]
    The loop for one word, with [fuel] iterations left.  The result is the
    grid after [place_word] when a trial is accepted ([break]), [None] when
    the iterations are used up.  The calls of [log] are ghost. *)
Fixpoint trial_loop (fuel : nat) (n tajenka_len : Z) (allowed : list direction)
    (g : grid) (w : pystr) : M (option grid) :=
  match fuel with
  | O => mret None
  | S fuel' =>
      d ← choice allowed;
      let dx := d.1.1 in
      let dy := d.1.2 in
      x ← randint (min_x dx w) (max_x n dx w);
      y ← randint (min_y dy w) (max_y n dy w);
      ok ← lift (can_place g x y dx dy w);
      if ok : bool then
        k ← lift (new_cells g x y dx dy w);
        let empties := count_empty g in
        if bool_decide (tajenka_len ≠ 0) && (empties - k <? tajenka_len) then
          log (mk_trial w dx dy x y g Reserved);;
          trial_loop fuel' n tajenka_len allowed g w
        else
          g' ← lift (place_word g x y dx dy w);
          log (mk_trial w dx dy x y g Accepted);;
          mret (Some g')
      else
        log (mk_trial w dx dy x y g Collision);;
        trial_loop fuel' n tajenka_len allowed g w
  end.

(** [[
for w in words_pool:
    if len(w)>n: continue
    for _ in range(1000): ...
]]
    on the state [(grid, placed)]. *)
Definition place_each (n tajenka_len : Z) (allowed : list direction)
    (words_pool : list pystr) (s : grid * list pystr) : M (grid * list pystr) :=
  for_each words_pool (λ w s,
    if len w >? n then mret s
    else
      r ← trial_loop 1000 n tajenka_len allowed s.1 w;
      match r with
      | Some g' => mret (g', s.2 ++ [w])
      | None => mret s
      end) s.

(** [[
def greedy_place(words,n,diagonals,backwards,alphabet_key,tajenka_len=0):
    grid=make_empty(n); allowed=pick_allowed(diagonals,backwards)
    words_pool=words[:]; words_pool.sort(key=len,reverse=True)
    random.shuffle(words_pool)
    placed=[]
    for w in words_pool: ...
    return grid,placed
]]
    [alphabet_key] is not used by the function. *)
Definition greedy_place (words : list pystr) (n : Z) (diagonals backwards : bool)
    (alphabet_key : pystr) (tajenka_len : Z) : M (grid * list pystr) :=
  let g := make_empty n in
  let allowed := pick_allowed diagonals backwards in
  words_pool ← shuffle (sort_by_len_desc words);
  place_each n tajenka_len allowed words_pool (g, []).

(** A run from a generator state, with an empty ghost trace. *)
Definition start (r : Random) : World := {| rng := r; trace := [] |}.

(* ===================================================================== *)
(** ** Specification vocabulary *)
(* ===================================================================== *)

(** The content of cell [(row a, column b)], for natural coordinates. *)
Definition cell_at (g : grid) (a b : nat) : option cell :=
  g !! a ≫= λ row, row !! b.

(** A grid of side [n]: [n] rows of [n] cells. *)
Definition square (n : nat) (g : grid) : Prop :=
  length g = n ∧ Forall (λ row, length row = n) g.

(** [g'] keeps every letter of [g] and has the shape of [g]. *)
Definition extends (g g' : grid) : Prop :=
  ∀ a b c, cell_at g a b = Some c →
    ∃ c', cell_at g' a b = Some c' ∧ (c ≠ None → c' = c).

(** The cells met from [(x, y)] along [(dx, dy)], [k] of them. *)
Definition read_along (g : grid) (x y dx dy : Z) (k : Z) : list (res cell) :=
  map (λ i, getcell g (y + dy * i) (x + dx * i)) (range k).

(** The cell of letter [i] of a trial's word. *)
Definition t_row (t : trial) (i : nat) : Z := t_y t + t_dy t * Z.of_nat i.
Definition t_col (t : trial) (i : nat) : Z := t_x t + t_dx t * Z.of_nat i.

(** Cell [i] of the path from [(x, y)] along [(dx, dy)] lies inside the
    grid of side [n]. *)
Definition inside (n : nat) (x y dx dy : Z) (i : Z) : Prop :=
  0 ≤ x + dx * i < Z.of_nat n ∧ 0 ≤ y + dy * i < Z.of_nat n.

(** Natural coordinates (row, column) of cell [i] of the path. *)
Definition spot (x y dx dy : Z) (i : Z) : nat * nat :=
  (Z.to_nat (y + dy * i), Z.to_nat (x + dx * i)).

(** Letter [ch] may go to cell [i] of the path: the cell is inside the grid
    and is empty or already holds [ch]. *)
Definition fits (g : grid) (x y dx dy : Z) (i : Z) (ch : char) : Prop :=
  0 ≤ x + dx * i < len g ∧ 0 ≤ y + dy * i < len g ∧
  (getcell g (y + dy * i) (x + dx * i) = Ok None ∨
   getcell g (y + dy * i) (x + dx * i) = Ok (Some ch)).

(** [wp m Q E w]: run from world [w], [m] returns a value and a world that
    satisfy [Q], or raises in a world that satisfies [E]. *)
Definition wp {A} (m : M A) (Q : A → World → Prop) (E : exn → World → Prop)
    (w : World) : Prop :=
  match m w with
  | (Ok a, w') => Q a w'
  | (Raise e, w') => E e w'
  end.

(** [m] only ever adds to the ghost trace: its result, the generator it
    leaves and the trials it records are the same whatever trace it starts
    with. *)
Definition ghost_only {A} (m : M A) : Prop :=
  ∀ r, ∃ (x : res A) r' new,
    ∀ T, m {| rng := r; trace := T |} = (x, {| rng := r'; trace := new ++ T |}).

(** The world after one draw. *)
Definition tick (w : World) : World :=
  {| rng := {| tape := tape (rng w); cursor := S (cursor (rng w)) |};
     trace := trace w |}.

(** The world after a ghost record. *)
Definition noted (t : trial) (w : World) : World :=
  {| rng := rng w; trace := t :: trace w |}.

(** What one trial draws: a direction of [allowed] and an origin within the
    ranges computed for it, for a word that passed the length filter. *)
Definition drawn (n : Z) (allowed : list direction) (w : pystr)
    (d : direction) (x y : Z) : Prop :=
  d ∈ allowed ∧ len w ≤ n
  ∧ min_x d.1.1 w ≤ x ≤ max_x n d.1.1 w
  ∧ min_y d.1.2 w ≤ y ≤ max_y n d.1.2 w.

(** [history n k allowed g placed T]: the scheduler can be in the state
    [(g, placed)] having recorded the trials [T] (latest first).  Each
    constructor is one way through the body of the trial loop. *)
Inductive history (n k : Z) (allowed : list direction)
  : grid → list pystr → list trial → Prop :=
| hist_init :
    history n k allowed (make_empty n) [] []
| hist_collision g placed T w d x y :
    history n k allowed g placed T →
    drawn n allowed w d x y →
    can_place g x y d.1.1 d.1.2 w = Ok false →
    history n k allowed g placed (mk_trial w d.1.1 d.1.2 x y g Collision :: T)
| hist_reserved g placed T w d x y m :
    history n k allowed g placed T →
    drawn n allowed w d x y →
    can_place g x y d.1.1 d.1.2 w = Ok true →
    new_cells g x y d.1.1 d.1.2 w = Ok m →
    k ≠ 0 → count_empty g - m < k →
    history n k allowed g placed (mk_trial w d.1.1 d.1.2 x y g Reserved :: T)
| hist_accepted g placed T w d x y m g' :
    history n k allowed g placed T →
    drawn n allowed w d x y →
    can_place g x y d.1.1 d.1.2 w = Ok true →
    new_cells g x y d.1.1 d.1.2 w = Ok m →
    (k = 0 ∨ k ≤ count_empty g - m) →
    place_word g x y d.1.1 d.1.2 w = Ok g' →
    history n k allowed g' (placed ++ [w])
      (mk_trial w d.1.1 d.1.2 x y g Accepted :: T).

(** What the trace says about one trial, in terms of the grid it saw. *)
Definition trial_ok (n k : Z) (allowed : list direction) (t : trial) : Prop :=
  ∃ d : direction,
    drawn n allowed (t_word t) d (t_x t) (t_y t)
    ∧ t_dx t = d.1.1 ∧ t_dy t = d.1.2
    ∧ match t_verdict t with
      | Collision =>
          can_place (t_grid t) (t_x t) (t_y t) (t_dx t) (t_dy t) (t_word t) = Ok false
      | Reserved =>
          can_place (t_grid t) (t_x t) (t_y t) (t_dx t) (t_dy t) (t_word t) = Ok true
          ∧ k ≠ 0
          ∧ ∃ m, new_cells (t_grid t) (t_x t) (t_y t) (t_dx t) (t_dy t) (t_word t) = Ok m
                 ∧ count_empty (t_grid t) - m < k
      | Accepted =>
          can_place (t_grid t) (t_x t) (t_y t) (t_dx t) (t_dy t) (t_word t) = Ok true
          ∧ ∃ m, new_cells (t_grid t) (t_x t) (t_y t) (t_dx t) (t_dy t) (t_word t) = Ok m
                 ∧ (k = 0 ∨ k ≤ count_empty (t_grid t) - m)
      end.

(** The words of the accepted trials, oldest first. *)
Definition accepted_words (T : list trial) : list pystr :=
  t_word <$> reverse (filter (λ t, t_verdict t = Accepted) T).

(** Row-major order on (row, column) pairs. *)
Definition row_major (p q : Z * Z) : Prop :=
  p.1 < q.1 ∨ (p.1 = q.1 ∧ p.2 < q.2).

(** The grid [g'] is [g] with the cells [cs] filled, cell number [j] of [cs]
    by letter [i + j] of the phrase while the phrase lasts and by a letter of
    [letters] afterwards; all other cells are those of [g]. *)
Definition filled_by (g g' : grid) (letters tajenka : pystr) (i : Z)
    (cs : list (Z * Z)) : Prop :=
  (∀ (j : nat) p, cs !! j = Some p →
     ∃ ch, cell_at g' (Z.to_nat p.1) (Z.to_nat p.2) = Some (Some ch)
           ∧ (∀ c, tajenka !! (Z.to_nat i + j)%nat = Some c → ch = c)
           ∧ (len tajenka ≤ i + Z.of_nat j → ch ∈ letters))
  ∧ (∀ a b, (Z.of_nat a, Z.of_nat b) ∉ cs → cell_at g' a b = cell_at g a b).

(** Cell [(a, b)] comes before position [(y, x)] of the row-major scan. *)
Definition before (y x : Z) (a b : nat) : Prop :=
  Z.of_nat a < y ∨ (Z.of_nat a = y ∧ Z.of_nat b < x).

(** Cell [(a, b)] of [g] holds a letter: the one [g0] had there, or a letter
    of the alphabet where [g0] was empty. *)
Definition refilled (g0 g : grid) (alphabet : pystr) (a b : nat) : Prop :=
  ∃ c, cell_at g a b = Some (Some c)
       ∧ (cell_at g0 a b = Some (Some c)
          ∨ (cell_at g0 a b = Some None ∧ c ∈ alphabet)).

(** State of [fill_random] when the scan stands at [(y, x)]: cells before
    the position are filled, the others untouched, and one draw was made for
    each cell filled so far. *)
Definition scan_inv (n : nat) (g0 : grid) (alphabet : pystr) (w0 : World)
    (y x : Z) (g : grid) (w : World) : Prop :=
  square n g
  ∧ (∀ a b, (a < n)%nat → (b < n)%nat →
       (before y x a b → refilled g0 g alphabet a b)
       ∧ (¬ before y x a b → cell_at g a b = cell_at g0 a b))
  ∧ trace w = trace w0
  ∧ Z.of_nat (cursor (rng w)) + count_empty g
    = Z.of_nat (cursor (rng w0)) + count_empty g0.

(** Number of trials recorded for the word [w]. *)
Definition trials_of (w : pystr) (T : list trial) : nat :=
  length (filter (λ t, t_word t = w) T).

(** Number of times [w] occurs in a word list. *)
Definition occurrences (w : pystr) (l : list pystr) : nat :=
  length (filter (λ v, v = w) l).

(** What [trial_loop] adds to the trace: trials of its word only, none
    accepted except possibly the last one (the head of the trace). *)
Definition rejected_only (w : pystr) (new : list trial) : Prop :=
  Forall (λ t, t_word t = w ∧ t_verdict t ≠ Accepted) new.

(** Number of words that pass the length filter. *)
Definition eligible (n : Z) (l : list pystr) : nat :=
  length (filter (λ w, len w ≤ n) l).

(** What a run from [w0] to [w'] over the words [pool] may have cost. *)
Definition cost_bound (n : Z) (pool : list pystr) (w0 w' : World) : Prop :=
  ∃ new,
    trace w' = new ++ trace w0
    ∧ (∀ w, trials_of w new ≤ 1000 * occurrences w pool)%nat
    ∧ Forall (λ t, len (t_word t) ≤ n) new
    ∧ (length new ≤ 1000 * eligible n pool)%nat
    ∧ (cursor (rng w') ≤ cursor (rng w0) + 3000 * eligible n pool)%nat.

(** The write of an accepted trial [t], with [g'] the grid after it: the
    check on the grid the trial saw had succeeded, [place_word] ran to its
    end, and every letter went to a cell that was empty or already held it. *)
Definition verified_write (t : trial) (g' : grid) : Prop :=
  can_place (t_grid t) (t_x t) (t_y t) (t_dx t) (t_dy t) (t_word t) = Ok true
  ∧ place_word (t_grid t) (t_x t) (t_y t) (t_dx t) (t_dy t) (t_word t) = Ok g'
  ∧ ∀ (i : nat) ch, t_word t !! i = Some ch →
      (getcell (t_grid t) (t_row t i) (t_col t i) = Ok None ∨
       getcell (t_grid t) (t_row t i) (t_col t i) = Ok (Some ch))
      ∧ getcell g' (t_row t i) (t_col t i) = Ok (Some ch).

(** [chain g0 T g]: starting from [g0], the trials [T] (latest first) lead
    to [g]; the grid changes at accepted trials only, by a verified write. *)
Fixpoint chain (g0 : grid) (T : list trial) (g : grid) : Prop :=
  match T with
  | [] => g = g0
  | t :: T' =>
      match t_verdict t with
      | Accepted => verified_write t g
      | _ => g = t_grid t
      end
      ∧ chain g0 T' (t_grid t)
  end.

(** Trial number [i] of the trace [T] (latest first) was followed by
    another trial, number [i - 1], of the same word on the same grid. *)
Definition retried (T : list trial) (i : nat) : Prop :=
  ∃ (j : nat) t t',
    i = S j ∧ T !! i = Some t ∧ T !! j = Some t'
    ∧ t_word t' = t_word t ∧ t_grid t' = t_grid t.

(** Trial number [i] of [T] was the last of [cap] trials in a row of one
    word on one grid, none of them accepted. *)
Definition exhausted (cap : nat) (T : list trial) (i : nat) : Prop :=
  ∃ t, T !! i = Some t ∧
    ∀ j : nat, (j < cap)%nat →
      ∃ tj, T !! (i + j)%nat = Some tj
            ∧ t_word tj = t_word t ∧ t_grid tj = t_grid t
            ∧ t_verdict tj ≠ Accepted.

(** After a trial turned down for the reserve the loop goes on: the word is
    tried again on the same grid, unless that was trial number [cap]. *)
Definition reserve_retried (cap : nat) (T : list trial) : Prop :=
  ∀ (i : nat) t, T !! i = Some t → t_verdict t = Reserved →
    retried T i ∨ exhausted cap T i.

(** The trials one run of the trial loop for [w] on [g] records: all of [w]
    on [g]; the latest is the accepted one if there is one, and without one
    there are [fuel] of them. *)
Definition one_loop (fuel : nat) (g : grid) (w : pystr) (r : option grid)
    (new : list trial) : Prop :=
  Forall (λ t, t_word t = w ∧ t_grid t = g) new
  ∧ match r with
    | None => length new = fuel ∧ Forall (λ t, t_verdict t ≠ Accepted) new
    | Some _ => ∃ t rest, new = t :: rest ∧ t_verdict t = Accepted
                          ∧ Forall (λ t, t_verdict t ≠ Accepted) rest
    end.

(** The grid handed to the renderer: the scheduler's grid [g], possibly
    completed by one of the two fillers run in world [w1]. *)
Inductive finished (g : grid) (w1 : World) : grid → Prop :=
| fin_unfilled : finished g w1 g
| fin_random alphabet final w2 :
    fill_random g alphabet w1 = (Ok final, w2) → finished g w1 final
| fin_tajenka U alphabet tajenka final w2 :
    fill_with_tajenka U g alphabet tajenka w1 = (Ok final, w2) →
    finished g w1 final.

(** Three generators for examples. *)
Definition zeros : Random := {| tape := λ _, 0%nat; cursor := 0 |}.
Definition demo : Random := {| tape := λ i, (7 * i + 3)%nat; cursor := 0 |}.
Definition halves : Random := {| tape := λ i, (i / 2)%nat; cursor := 0 |}.

(** A run on two words: CAT goes down a diagonal, DOG down the first column;
    the letters A and B fill the rest. *)
Definition demo_words : list pystr := [str "CAT"; str "DOG"].

Definition demo_grid : grid :=
  [ [Some 68; None; Some 67; None; None];
    [Some 79; None; None; Some 65; None];
    [Some 71; None; None; None; Some 84];
    [None; None; None; None; None];
    [None; None; None; None; None] ]%N.

Definition demo_world : World :=
  (greedy_place demo_words 5 true true [] 0 (start demo)).2.

Definition demo_filled : grid :=
  [ [Some 68; Some 65; Some 67; Some 66; Some 65];
    [Some 79; Some 66; Some 65; Some 65; Some 66];
    [Some 71; Some 65; Some 66; Some 65; Some 84];
    [Some 66; Some 65; Some 66; Some 65; Some 66];
    [Some 65; Some 66; Some 65; Some 66; Some 65] ]%N.

(** What a whole run from generator [r] may have cost when it ends in [w']. *)
Definition run_cost (words : list pystr) (n : Z) (r : Random) (w' : World) : Prop :=
  (∀ w, trials_of w (trace w') ≤ 1000 * occurrences w words)%nat
  ∧ (length (trace w') ≤ 1000 * eligible n words)%nat
  ∧ (cursor (rng w') ≤ cursor r + (length words - 1)
                       + 3000 * eligible n words)%nat.

(** The part of the Unicode database that matters for strings of unaccented
    capital letters and for the empty string: nothing to decompose, no
    combining mark, upper case already. *)
Definition plain : Unicode :=
  {| normalize_NFD := λ s, s; category_is_Mn := λ _, false; upper := λ s, s |}.

(* ===================================================================== *)
(** ** More specification vocabulary *)
(* ===================================================================== *)

(** Cell [(a, b)] is letter [c] of a word that a trial of [T] placed. *)
Definition covered (T : list trial) (a b : nat) (c : N) : Prop :=
  ∃ t (i : nat), t ∈ T ∧ t_verdict t = Accepted ∧ t_word t !! i = Some c
                 ∧ t_row t i = Z.of_nat a ∧ t_col t i = Z.of_nat b.

(* ===================================================================== *)
(** ** Pages *)
(* ===================================================================== *)

(** The keys of [ALPHABETS]. *)
Definition CZ_key : pystr := str "CZ (s diakritikou)".
Definition AZ_key : pystr := str "A-Z (bez diakritiky)".

(** [ALPHABETS]; the Czech alphabet is given by its code points. *)
Definition ALPHABETS : gmap pystr pystr :=
  {[ CZ_key :=
       [65; 193; 66; 67; 268; 68; 270; 69; 201; 282; 70; 71; 72; 73; 205; 74;
        75; 76; 317; 77; 78; 327; 79; 211; 80; 81; 82; 344; 83; 352; 84; 356;
        85; 218; 366; 86; 87; 88; 89; 221; 90; 381]%N;
     AZ_key := str "ABCDEFGHIJKLMNOPQRSTUVWXYZ" ]}.

(** [ALPHABETS.get(alphabet_key,ALPHABETS["CZ (s diakritikou)"])] *)
Definition letters_of (alphabet_key : pystr) : pystr :=
  default (ALPHABETS !!! CZ_key) (ALPHABETS !! alphabet_key).

(** [len(tajenka) if tajenka else 0]: [None] and the empty string count as
    no phrase. *)
Definition taj_len (tajenka : option pystr) : Z :=
  match tajenka with
  | Some t => if bool_decide (t ≠ []) then len t else 0
  | None => 0
  end.

(** [[
for _ in range(max(1,pages)):
    taj_len=len(tajenka) if tajenka else 0
    grid,placed=greedy_place(words,size,diagonals,backwards,alphabet_key,tajenka_len=taj_len)
    letters=ALPHABETS.get(alphabet_key,ALPHABETS["CZ (s diakritikou)"])
    if taj_len: fill_with_tajenka(grid,letters,tajenka)
    else:
        letters_random=''.join(sorted(set([ch for ch in remove_diacritics(letters).upper() if 'A'<=ch<='Z'])))
        fill_random(grid,letters_random)
    page(c,title,subtitle,grid,placed,cell_mm,columns,tajenka,show_tajenka)
]]
    One iteration of the loop of [save_pdf], up to the call of the renderer:
    the result is the pair [(grid, placed)] handed to [page].  When
    [taj_len] is not 0 the phrase is a string, which [default] extracts. *)
Definition save_pdf_page (U : Unicode) (words : list pystr) (size : Z)
    (diagonals backwards : bool) (alphabet_key : pystr) (tajenka : option pystr)
  : M (grid * list pystr) :=
  let k := taj_len tajenka in
  s ← greedy_place words size diagonals backwards alphabet_key k;
  let letters := letters_of alphabet_key in
  g ← (if bool_decide (k ≠ 0)
       then fill_with_tajenka U s.1 letters (default [] tajenka)
       else fill_random s.1 (letters_random U letters));
  mret (g, s.2).

(** The cells of [final] at the positions [cs], in the order of [cs]. *)
Definition read_cells (final : grid) (cs : list (Z * Z)) : list (option cell) :=
  (λ p, cell_at final (Z.to_nat p.1) (Z.to_nat p.2)) <$> cs.

(** No accepted trial of [T] wrote on cell [(a, b)]. *)
Definition uncovered (T : list trial) (a b : nat) : Prop :=
  ∀ c, ¬ covered T a b c.

(** A page for the two demo words and the phrase HI: the phrase sits in the
    first two cells the words leave free, (0, 1) and (0, 3). *)
Definition demo_page : grid :=
  [ [Some 68; Some 72; Some 67; Some 73; Some 81];
    [Some 79; Some 88; Some 69; Some 65; Some 76];
    [Some 71; Some 83; Some 90; Some 71; Some 84];
    [Some 78; Some 85; Some 66; Some 73; Some 80];
    [Some 87; Some 68; Some 75; Some 82; Some 89] ]%N.

Definition demo_page_world : World :=
  (save_pdf_page plain demo_words 5 true true AZ_key (Some (str "HI"))
     (start demo)).2.

(* ===================================================================== *)
(** ** Text input *)
(* ===================================================================== *)

(** The character class of the pattern [[,\n;]+]: comma, line feed,
    semicolon. *)
Definition is_sep (c : char) : bool := bool_decide (c ∈ [44; 10; 59]%N).

(** [re.split(r"[,\n;]+", text)]: the pieces of [text] between the maximal
    runs of separators; a run at the start or at the end of [text] has an
    empty piece before it or after it. *)
Fixpoint re_split (text : pystr) : list pystr :=
  match text with
  | [] => [[]]
  | c :: rest =>
      if is_sep c then
        match rest with
        | d :: _ => if is_sep d then re_split rest else [] :: re_split rest
        | [] => [] :: re_split rest
        end
      else
        match re_split rest with
        | p :: ps => (c :: p) :: ps
        | [] => [[c]]
        end
  end.

(** [s.lstrip()]; [isspace] is [str.isspace] on one character, a fact of the
    Unicode database. *)
Fixpoint lstrip (isspace : char → bool) (s : pystr) : pystr :=
  match s with
  | [] => []
  | c :: rest => if isspace c then lstrip isspace rest else s
  end.

(** [s.strip()] *)
Definition strip (isspace : char → bool) (s : pystr) : pystr :=
  reverse (lstrip isspace (reverse (lstrip isspace s))).

(** [[
def read_tajenky_file(path):
    with open(path,"r",encoding="utf-8") as f: txt=f.read()
    parts=re.split(r"[,\n;]+",txt)
    return [p.strip() for p in parts if p.strip()]
]]
    as a function of the text read. *)
Definition read_tajenky_file (isspace : char → bool) (txt : pystr) : list pystr :=
  let parts := re_split txt in
  strip isspace <$> filter (λ p, strip isspace p ≠ []) parts.

(** [[
def normalize_tajenka(s):
    return ''.join(ch for ch in s.strip().upper() if not ch.isspace())
]] *)
Definition normalize_tajenka (U : Unicode) (isspace : char → bool) (s : pystr)
  : pystr :=
  filter (λ ch, isspace ch = false) (upper U (strip isspace s)).

(** [[
if phrases:
    idx=args.tajenka_index if args.tajenka_index is not None else random.randrange(len(phrases))
    idx=max(0,min(idx,len(phrases)-1))
    tajenka=normalize_tajenka(phrases[idx])
]]
    The choice of the phrase in [main]; [tajenka] is [None] before. *)
Definition main_tajenka (U : Unicode) (isspace : char → bool)
    (phrases : list pystr) (tajenka_index : option Z) : M (option pystr) :=
  match phrases with
  | [] => mret None
  | _ =>
      idx ← match tajenka_index with
            | Some i => mret i
            | None => i ← randbelow (length phrases); mret (Z.of_nat i)
            end;
      let idx := Z.max 0 (Z.min idx (len phrases - 1)) in
      p ← lift (getitem phrases idx);
      mret (Some (normalize_tajenka U isspace p))
  end.

(** [p] occurs in [s] as a block of consecutive characters. *)
Definition occurs_in (p s : pystr) : Prop := ∃ l1 l2, s = l1 ++ p ++ l2.

(** A character class for examples: space and tab. *)
Definition blank (c : char) : bool := bool_decide (c ∈ [32; 9]%N).

(* ===================================================================== *)
(** ** Word lists *)
(* ===================================================================== *)

(** [a < b] on strings: lexicographic, by code point. *)
Fixpoint str_lt (a b : pystr) : bool :=
  match a, b with
  | _, [] => false
  | [], _ :: _ => true
  | x :: a', y :: b' => (x <? y)%N || ((x =? y)%N && str_lt a' b')
  end.

(** Insertion into a list of strings in increasing order. *)
Fixpoint insert_str (w : pystr) (l : list pystr) : list pystr :=
  match l with
  | [] => [w]
  | v :: l' => if str_lt v w then v :: insert_str w l' else w :: v :: l'
  end.

(** [sorted(l)] for a list of strings. *)
Definition sorted (l : list pystr) : list pystr := foldr insert_str [] l.

(** [[
def parse_words_from_text(text,strip=False):
    parts=re.split(r"[,\n;]+",text); words=[]
    for w in parts:
        w=w.strip()
        if not w: continue
        w_up=w.upper()
        if strip: w_up=remove_diacritics(w_up)
        w_up=''.join(w_up.split())
        words.append(w_up)
    return sorted(set(words))
]]
    [w_up.split()] cuts at the runs of white space and [''.join] puts the
    pieces together again: what is left is [w_up] without its white space.
    The set is listed without repetition by [remove_dups]; its order does not
    matter under [sorted]. *)
Definition parse_words_from_text (U : Unicode) (isspace : char → bool)
    (text : pystr) (strip_diacritics : bool) : list pystr :=
  let parts := re_split text in
  let words :=
    omap (λ w,
      let w := strip isspace w in
      if bool_decide (w = []) then None
      else
        let w_up := upper U w in
        let w_up := if strip_diacritics then remove_diacritics U w_up else w_up in
        Some (filter (λ c, isspace c = false) w_up)) parts in
  sorted (remove_dups words).

(** [a <= b] on strings. *)
Definition str_le (a b : pystr) : Prop := str_lt b a = false.

(* ===================================================================== *)
(** ** Word list layout *)
(* ===================================================================== *)

(** The exceptions of the layout code: [ZeroDivisionError], and those of
    list indexing. *)
Inductive draw_exn := ZeroDivisionError | Indexing (e : exn).

(** The outcome of the layout: the columns, or an exception. *)
Inductive draw_res (A : Type) : Type :=
| Drawn (a : A)
| Failed (e : draw_exn).
Arguments Drawn {A} a.
Arguments Failed {A} e.

(** [[
for i,w in enumerate(ordered): buckets[i%cols].append(w)
]]
    from index [i] on.  The lists of [buckets] are distinct objects. *)
Fixpoint deal (cols : Z) (i : Z) (ordered : list pystr)
    (buckets : list (list pystr)) : res (list (list pystr)) :=
  match ordered with
  | [] => Ok buckets
  | w :: rest =>
      match getitem buckets (i `mod` cols) with
      | Raise e => Raise e
      | Ok b =>
          match setitem buckets (i `mod` cols) (b ++ [w]) with
          | Raise e => Raise e
          | Ok buckets' => deal cols (i + 1) rest buckets'
          end
      end
  end.

(** [[
def draw_word_list_below(c,words,page_left,page_right,below_y,cols=4,title="Seznam slov:"):
    ...
    ordered=sorted(words); col_gap=10*mm; max_width=page_right-page_left
    col_width=(max_width-(cols-1)*col_gap)/cols; buckets=[[] for _ in range(cols)]
    for i,w in enumerate(ordered): buckets[i%cols].append(w)
    for ci,col in enumerate(buckets): ...
]]
    The columns of words that [draw_word_list_below] draws.  Of the
    arithmetic on lengths only the division by [cols] is kept: it raises
    [ZeroDivisionError] when [cols] is 0. *)
Definition draw_word_list_below (words : list pystr) (cols : Z)
  : draw_res (list (list pystr)) :=
  let ordered := sorted words in
  if bool_decide (cols = 0) then Failed ZeroDivisionError
  else
    let buckets := replicate (Z.to_nat cols) [] in
    match deal cols 0 ordered buckets with
    | Ok buckets => Drawn buckets
    | Raise e => Failed (Indexing e)
    end.

(** Word [r] of column [j]. *)
Definition entry (buckets : list (list pystr)) (j r : nat) : option pystr :=
  buckets !! j ≫= λ col, col !! r.

(** State of the dealing loop when [i] words of [ordered] have been dealt
    into [c] columns: column [j] holds the words number [j], [j + c],
    [j + 2c], ... below [i]. *)
Definition dealt (c : nat) (ordered : list pystr) (i : nat)
    (buckets : list (list pystr)) : Prop :=
  length buckets = c
  ∧ mjoin buckets ≡ₚ take i ordered
  ∧ ∀ j r : nat, (j < c)%nat →
      entry buckets j r
      = if decide (r * c + j < i)%nat then ordered !! (r * c + j)%nat else None.

(* ===================================================================== *)
(** ** The earlier version, [8gen_zaloha.py] *)
(* ===================================================================== *)

(** [[
def place_word(grid, x, y, dx, dy, word):
    coords = []
    for i, ch in enumerate(word):
        cx, cy = x + dx*i, y + dy*i
        grid[cy][cx] = ch
        coords.append((y + dy*i, x + dx*i))
    return coords
]]
    The grid after the writes, and the list returned. *)
Fixpoint zaloha_place_word_from (g : grid) (x y dx dy : Z) (i : Z) (word : pystr)
    (coords : list (Z * Z)) : res (grid * list (Z * Z)) :=
  match word with
  | [] => Ok (g, coords)
  | ch :: rest =>
      let cx := x + dx * i in
      let cy := y + dy * i in
      match setcell g cy cx (Some ch) with
      | Raise e => Raise e
      | Ok g' =>
          zaloha_place_word_from g' x y dx dy (i + 1) rest
            (coords ++ [(y + dy * i, x + dx * i)])
      end
  end.

Definition zaloha_place_word (g : grid) (x y dx dy : Z) (word : pystr)
  : res (grid * list (Z * Z)) :=
  zaloha_place_word_from g x y dx dy 0 word [].

(** [[
for _ in range(1000):
    dx, dy, _name = random.choice(allowed)
    max_x = n-1 if dx <= 0 else n - len(w)
    min_x = 0 if dx >= 0 else len(w)-1
    max_y = n-1 if dy <= 0 else n - len(w)
    min_y = 0 if dy >= 0 else len(w)-1
    x = random.randint(min_x, max_x)
    y = random.randint(min_y, max_y)
    if can_place(grid, x, y, dx, dy, w):
        place_word(grid, x, y, dx, dy, w)
        placed.append(w)
        success = True
        break
]]
    The trial loop of the earlier [greedy_place]: no cell is reserved.  The
    calls of [log] are ghost, as in [trial_loop]. *)
Fixpoint zaloha_trial_loop (fuel : nat) (n : Z) (allowed : list direction)
    (g : grid) (w : pystr) : M (option grid) :=
  match fuel with
  | O => mret None
  | S fuel' =>
      d ← choice allowed;
      let dx := d.1.1 in
      let dy := d.1.2 in
      x ← randint (min_x dx w) (max_x n dx w);
      y ← randint (min_y dy w) (max_y n dy w);
      ok ← lift (can_place g x y dx dy w);
      if ok : bool then
        r ← lift (zaloha_place_word g x y dx dy w);
        log (mk_trial w dx dy x y g Accepted);;
        mret (Some r.1)
      else
        log (mk_trial w dx dy x y g Collision);;
        zaloha_trial_loop fuel' n allowed g w
  end.

(** [[
def greedy_place(words, n, diagonals, backwards, alphabet_key):
    grid = make_empty(n)
    allowed = pick_allowed(diagonals, backwards)
    words_pool = words[:]
    random.shuffle(words_pool)
    words_pool.sort(key=len, reverse=True)
    random.shuffle(words_pool)
    placed = []
    for w in words_pool:
        if len(w) > n:
            continue
        success = False
        for _ in range(1000): ...
    letters = ALPHABETS.get(alphabet_key, ALPHABETS["CZ (s diakritikou)"])
    letters_random = remove_diacritics(letters).upper()
    letters_random = ''.join(sorted(set([ch for ch in letters_random if 'A' <= ch <= 'Z'])))
    fill_random(grid, letters_random)
    return grid, placed
]]
    [greedy_place] of [8gen_zaloha.py]; [ALPHABETS], [pick_allowed],
    [make_empty], [can_place] and [fill_random] are those of [8gen.py],
    word for word. *)
Definition zaloha_greedy_place (U : Unicode) (words : list pystr) (n : Z)
    (diagonals backwards : bool) (alphabet_key : pystr) : M (grid * list pystr) :=
  let g := make_empty n in
  let allowed := pick_allowed diagonals backwards in
  words_pool ← shuffle words;
  words_pool ← shuffle (sort_by_len_desc words_pool);
  s ← for_each words_pool (λ w s,
         if len w >? n then mret s
         else
           r ← zaloha_trial_loop 1000 n allowed s.1 w;
           match r with
           | Some g' => mret (g', s.2 ++ [w])
           | None => mret s
           end) (g, []);
  let letters := letters_of alphabet_key in
  g' ← fill_random s.1 (letters_random U letters);
  mret (g', s.2).

(** The cells of the path of a word of length [k], as (row, column). *)
Definition path (x y dx dy : Z) (k : Z) : list (Z * Z) :=
  (λ i, (y + dy * i, x + dx * i)) <$> range k.

(* ===================================================================== *)
(** ** Python indexing *)
(* ===================================================================== *)

Lemma py_index_in (n : nat) (i : Z) :
  0 ≤ i < Z.of_nat n → py_index n i = Some (Z.to_nat i).
Proof.
  intros [H0 H1]. unfold py_index.
  rewrite (proj2 (Z.leb_le 0 i) H0), (proj2 (Z.ltb_lt i _) H1). reflexivity.
Qed.

Lemma getitem_in {A} (l : list A) (i : Z) :
  0 ≤ i < len l → ∃ a, getitem l i = Ok a ∧ l !! Z.to_nat i = Some a.
Proof.
  intros Hi. unfold getitem. rewrite py_index_in by exact Hi.
  destruct (lookup_lt_is_Some_2 l (Z.to_nat i)) as [a Ha]; [unfold len in Hi; lia|].
  exists a. by rewrite Ha.
Qed.

Lemma getitem_nat {A} (l : list A) (k : nat) (a : A) :
  l !! k = Some a → getitem l (Z.of_nat k) = Ok a.
Proof.
  intros Hk. pose proof (lookup_lt_Some _ _ _ Hk).
  unfold getitem. rewrite py_index_in by lia. by rewrite Nat2Z.id, Hk.
Qed.

Lemma setitem_in {A} (l : list A) (i : Z) (v : A) :
  0 ≤ i < len l → setitem l i v = Ok (<[Z.to_nat i := v]> l).
Proof. intros Hi. unfold setitem. by rewrite py_index_in. Qed.

Lemma cell_at_Some (g : grid) (a b : nat) (c : cell) :
  cell_at g a b = Some c ↔ ∃ row, g !! a = Some row ∧ row !! b = Some c.
Proof.
  unfold cell_at. destruct (g !! a) as [row|]; simpl; split.
  - intros H. by exists row.
  - intros (row' & [= <-] & H). done.
  - done.
  - intros (row' & ? & _). done.
Qed.

Lemma square_row (n : nat) (g : grid) (a : nat) (row : list cell) :
  square n g → g !! a = Some row → length row = n.
Proof.
  intros [_ Hrows] Ha. rewrite Forall_lookup in Hrows. by apply (Hrows a).
Qed.

Lemma square_cell (n : nat) (g : grid) (a b : nat) :
  square n g → (a < n)%nat → (b < n)%nat → is_Some (cell_at g a b).
Proof.
  intros Hsq Ha Hb.
  destruct (lookup_lt_is_Some_2 g a) as [row Hrow]; [destruct Hsq; lia|].
  destruct (lookup_lt_is_Some_2 row b) as [c Hc];
    [rewrite (square_row _ _ _ _ Hsq Hrow); lia|].
  exists c. apply cell_at_Some. eauto.
Qed.

Lemma cell_at_lt (n : nat) (g : grid) (a b : nat) (c : cell) :
  square n g → cell_at g a b = Some c → (a < n)%nat ∧ (b < n)%nat.
Proof.
  intros Hsq (row & Ha & Hb)%cell_at_Some.
  pose proof (square_row _ _ _ _ Hsq Ha). destruct Hsq as [Hl _].
  apply lookup_lt_Some in Ha, Hb. lia.
Qed.

(** On a square grid, an in-range [g[a][b]] is the cell at [(a, b)]. *)
Lemma getcell_in (n : nat) (g : grid) (a b : Z) :
  square n g → 0 ≤ a < Z.of_nat n → 0 ≤ b < Z.of_nat n →
  ∃ c, getcell g a b = Ok c ∧ cell_at g (Z.to_nat a) (Z.to_nat b) = Some c.
Proof.
  intros Hsq Ha Hb. unfold getcell.
  destruct (getitem_in g a) as (row & -> & Hrow); [destruct Hsq; unfold len; lia|].
  destruct (getitem_in row b) as (c & -> & Hc);
    [unfold len; rewrite (square_row _ _ _ _ Hsq Hrow); lia|].
  exists c. split; [done|]. apply cell_at_Some. eauto.
Qed.

Lemma getcell_in_eq (n : nat) (g : grid) (a b : Z) (c : cell) :
  square n g → 0 ≤ a < Z.of_nat n → 0 ≤ b < Z.of_nat n →
  getcell g a b = Ok c ↔ cell_at g (Z.to_nat a) (Z.to_nat b) = Some c.
Proof.
  intros Hsq Ha Hb. destruct (getcell_in n g a b) as (c' & -> & ->); try done.
  split; congruence.
Qed.

Lemma getitem_nonneg {A} (l : list A) (i : Z) (a : A) :
  0 ≤ i → (getitem l i = Ok a ↔ l !! Z.to_nat i = Some a).
Proof.
  intros Hi. unfold getitem, py_index.
  rewrite (proj2 (Z.leb_le 0 i) Hi). simpl.
  destruct (Z.ltb_spec i (Z.of_nat (length l))) as [Hlt|Hge].
  - destruct (l !! Z.to_nat i); split; congruence.
  - rewrite (proj2 (Z.ltb_ge i 0)) by lia. rewrite andb_false_r.
    rewrite lookup_ge_None_2 by lia. split; congruence.
Qed.

(** For coordinates that are not negative, [g[a][b]] is the cell at
    [(a, b)], whatever the shape of the grid. *)
Lemma getcell_nonneg (g : grid) (a b : Z) (c : cell) :
  0 ≤ a → 0 ≤ b →
  (getcell g a b = Ok c ↔ cell_at g (Z.to_nat a) (Z.to_nat b) = Some c).
Proof.
  intros Ha Hb. rewrite cell_at_Some. unfold getcell. split.
  - destruct (getitem g a) as [row|] eqn:Hrow; [|done].
    intros Hc. exists row. split; by apply getitem_nonneg.
  - intros (row & Hrow & Hc).
    apply (proj2 (getitem_nonneg g a row Ha)) in Hrow.
    apply (proj2 (getitem_nonneg row b c Hb)) in Hc. by rewrite Hrow.
Qed.

Lemma extends_read (g g' : grid) (a b : Z) (c : char) :
  extends g g' → 0 ≤ a → 0 ≤ b →
  getcell g a b = Ok (Some c) → getcell g' a b = Ok (Some c).
Proof.
  intros Hext Ha Hb Hg. apply getcell_nonneg in Hg; try done.
  apply getcell_nonneg; try done.
  destruct (Hext _ _ _ Hg) as (c' & Hc' & Heq). rewrite Hc'. f_equal. by apply Heq.
Qed.

Lemma make_empty_square (n : Z) : square (Z.to_nat n) (make_empty n).
Proof.
  unfold make_empty. split; [apply length_replicate|].
  apply Forall_replicate, length_replicate.
Qed.

Lemma extends_refl (g : grid) : extends g g.
Proof. intros a b c H. eauto. Qed.

Lemma extends_trans (g1 g2 g3 : grid) :
  extends g1 g2 → extends g2 g3 → extends g1 g3.
Proof.
  intros H12 H23 a b c H1.
  destruct (H12 a b c H1) as (c2 & H2 & E2).
  destruct (H23 a b c2 H2) as (c3 & H3 & E3).
  exists c3. split; [done|]. intros Hc. rewrite E3; rewrite E2; done.
Qed.

(* ===================================================================== *)
(** ** Direction catalog: [pick_allowed] *)
(* ===================================================================== *)

Lemma pick_allowed_sub (diagonals backwards : bool) (d : direction) :
  d ∈ pick_allowed diagonals backwards → d ∈ DIRECTIONS.
Proof.
  unfold pick_allowed. destruct backwards.
  - intros H%list_elem_of_filter. tauto.
  - intros [_ H%list_elem_of_filter]%list_elem_of_filter. tauto.
Qed.

Lemma pick_allowed_nonempty (diagonals backwards : bool) :
  pick_allowed diagonals backwards ≠ [].
Proof. destruct diagonals, backwards; vm_compute; discriminate. Qed.

(** A catalog direction is a unit step on at least one axis. *)
Lemma DIRECTIONS_unit (d : direction) :
  d ∈ DIRECTIONS →
  -1 ≤ d.1.1 ≤ 1 ∧ -1 ≤ d.1.2 ≤ 1 ∧ (d.1.1 ≠ 0 ∨ d.1.2 ≠ 0).
Proof.
  unfold DIRECTIONS. rewrite !elem_of_cons, elem_of_nil.
  intros H. repeat destruct H as [-> | H]; simpl; lia.
Qed.

(** C4. [pick_allowed] returns exactly the catalog directions that pass both
    filters, in catalog order: without diagonals only straight directions
    (E, S, W, N) remain, whatever [backwards] is; without backwards only the
    forward ones (E, S, SE, SW) remain of those; the result is never empty
    and always has E = (1,0) and S = (0,1). *)
Theorem pick_allowed_spec (diagonals backwards : bool) :
  (∀ d : direction,
     d ∈ pick_allowed diagonals backwards ↔
     d ∈ DIRECTIONS ∧ (diagonals = true ∨ d.1.1 = 0 ∨ d.1.2 = 0)
     ∧ (backwards = true ∨ d.2 ∈ forward))
  ∧ pick_allowed true true = DIRECTIONS
  ∧ pick_allowed true false =
      [ (1, 0, "E"%string); (0, 1, "S"%string); (1, 1, "SE"%string); (-1, 1, "SW"%string) ]
  ∧ pick_allowed false true =
      [ (1, 0, "E"%string); (0, 1, "S"%string); (-1, 0, "W"%string); (0, -1, "N"%string) ]
  ∧ pick_allowed false false = [ (1, 0, "E"%string); (0, 1, "S"%string) ]
  ∧ (∀ d : direction, d ∈ pick_allowed false backwards →
       (d.1.1 = 0 ∨ d.1.2 = 0) ∧
       d.2 ∈ [ "E"%string; "S"%string; "W"%string; "N"%string ])
  ∧ (∀ d : direction, d ∈ pick_allowed diagonals false → d.2 ∈ forward)
  ∧ pick_allowed diagonals backwards ≠ []
  ∧ (1, 0, "E"%string) ∈ pick_allowed diagonals backwards
  ∧ (0, 1, "S"%string) ∈ pick_allowed diagonals backwards.
Proof.
  split_and!.
  - intros d. unfold pick_allowed. destruct backwards.
    + rewrite list_elem_of_filter. intuition.
    + rewrite !list_elem_of_filter. intuition discriminate.
  - reflexivity.
  - reflexivity.
  - reflexivity.
  - reflexivity.
  - intros d.
    assert (pick_allowed false true =
      [ (1, 0, "E"%string); (0, 1, "S"%string); (-1, 0, "W"%string); (0, -1, "N"%string) ])
      as E1 by reflexivity.
    assert (pick_allowed false false = [ (1, 0, "E"%string); (0, 1, "S"%string) ])
      as E2 by reflexivity.
    destruct backwards; [rewrite E1|rewrite E2]; intros H;
      rewrite !elem_of_cons, elem_of_nil in H;
      repeat destruct H as [-> | H]; simpl; try (exfalso; exact H);
      (split; [lia|rewrite !elem_of_cons; auto 10]).
  - intros d Hd. unfold pick_allowed in Hd.
    apply list_elem_of_filter in Hd. tauto.
  - apply pick_allowed_nonempty.
  - apply list_elem_of_In. destruct diagonals, backwards; vm_compute; tauto.
  - apply list_elem_of_In. destruct diagonals, backwards; vm_compute; tauto.
Qed.

(* ===================================================================== *)
(** ** Collision checker: [can_place] *)
(* ===================================================================== *)

Lemma can_place_from_spec (n : nat) (g : grid) (x y dx dy : Z) (w : pystr) :
  square n g → ∀ i : Z,
  ∃ b, can_place_from g x y dx dy i w = Ok b ∧
       (b = true ↔
        ∀ (j : nat) ch, w !! j = Some ch → fits g x y dx dy (i + Z.of_nat j) ch).
Proof.
  intros Hsq. assert (Hlen : len g = Z.of_nat n) by (destruct Hsq; unfold len; lia).
  induction w as [|ch rest IH]; intros i.
  - exists true. split; [done|]. split; [|done]. intros _ j c Hj. done.
  - cbn [can_place_from].
    destruct ((x + dx * i <? 0) || (y + dy * i <? 0) || (x + dx * i >=? len g)
              || (y + dy * i >=? len g)) eqn:Hout.
    { exists false. split; [done|]. split; [done|]. intros Hall.
      destruct (Hall 0%nat ch eq_refl) as (Hx & Hy & _).
      rewrite Z.add_0_r in Hx, Hy. rewrite !Z.geb_leb in Hout.
      rewrite !orb_true_iff, !Z.ltb_lt, !Z.leb_le in Hout. lia. }
    rewrite !Z.geb_leb in Hout.
    rewrite !orb_false_iff, !Z.ltb_ge, !Z.leb_gt in Hout.
    destruct (getcell_in n g (y + dy * i) (x + dx * i)) as (c & Hget & _);
      [done|lia|lia|]. rewrite Hget.
    destruct (bool_decide (c ≠ None) && bool_decide (c ≠ Some ch)) eqn:Hc.
    { exists false. split; [done|]. split; [done|]. intros Hall.
      destruct (Hall 0%nat ch eq_refl) as (_ & _ & Hcell).
      rewrite Z.add_0_r, Hget in Hcell.
      apply andb_true_iff in Hc as [Hc1%bool_decide_eq_true Hc2%bool_decide_eq_true].
      destruct Hcell as [[= ->]|[= ->]]; done. }
    destruct (IH (i + 1)) as (b & Hb & Hiff). exists b. split; [done|].
    rewrite Hiff. split.
    + intros Hall [|j] c' Hj.
      * injection Hj as <-. rewrite Z.add_0_r. split; [lia|]. split; [lia|].
        rewrite Hget. apply andb_false_iff in Hc.
        destruct c as [c|]; [right|by left].
        destruct Hc as [Hc%bool_decide_eq_false|Hc%bool_decide_eq_false].
        -- exfalso. apply Hc. done.
        -- f_equal. by apply dec_stable.
      * replace (i + Z.of_nat (S j)) with (i + 1 + Z.of_nat j) by lia.
        by apply Hall.
    + intros Hall j c' Hj.
      replace (i + 1 + Z.of_nat j) with (i + Z.of_nat (S j)) by lia.
      by apply Hall.
Qed.

(** Once the scan has answered [False], a longer word changes nothing: the
    scan had already returned. *)
Lemma can_place_from_early (g : grid) (x y dx dy : Z) (w w' : pystr) :
  ∀ i, can_place_from g x y dx dy i w = Ok false →
       can_place_from g x y dx dy i (w ++ w') = Ok false.
Proof.
  induction w as [|ch rest IH]; intros i; [done|].
  cbn [can_place_from app].
  destruct (_ || _); [done|]. destruct (getcell _ _ _); [|done].
  destruct (_ && _); [done|]. apply IH.
Qed.

(** On a square grid the scan never raises, and answers [True] exactly when
    every letter fits. *)
Lemma can_place_square (n : nat) (g : grid) (x y dx dy : Z) (w : pystr) :
  square n g →
  ∃ b, can_place g x y dx dy w = Ok b
       ∧ (b = true ↔
          ∀ (i : nat) ch, w !! i = Some ch → fits g x y dx dy (Z.of_nat i) ch).
Proof.
  intros Hsq.
  destruct (can_place_from_spec n g x y dx dy w Hsq 0) as (b & Hb & Hiff).
  exists b. split; [done|]. rewrite Hiff. by setoid_rewrite Z.add_0_l.
Qed.

(** C1. On a grid of side [n], [can_place] answers [True] exactly when every
    letter of the word fits: its cell [(x + dx*i, y + dy*i)] is inside
    [0, n) on both axes and is empty or already holds that letter; otherwise
    it answers [False], and it does so at the first offending letter (letters
    after it are not looked at). *)
Theorem can_place_spec (n : nat) (g : grid) (x y dx dy : Z) (w : pystr) :
  square n g →
  ∃ b, can_place g x y dx dy w = Ok b
       ∧ (b = true ↔
          ∀ (i : nat) ch, w !! i = Some ch →
            0 ≤ x + dx * Z.of_nat i < Z.of_nat n ∧
            0 ≤ y + dy * Z.of_nat i < Z.of_nat n ∧
            (getcell g (y + dy * Z.of_nat i) (x + dx * Z.of_nat i) = Ok None ∨
             getcell g (y + dy * Z.of_nat i) (x + dx * Z.of_nat i) = Ok (Some ch)))
       ∧ (b = false → ∀ w', can_place g x y dx dy (w ++ w') = Ok false).
Proof.
  intros Hsq. assert (Hlen : len g = Z.of_nat n) by (destruct Hsq; unfold len; lia).
  destruct (can_place_square n g x y dx dy w Hsq) as (b & Hb & Hiff).
  exists b. split; [done|]. split.
  - rewrite Hiff. unfold fits. by rewrite Hlen.
  - intros -> w'. by apply can_place_from_early.
Qed.

Lemma can_place_spec_witness :
  square 3 (make_empty 3)
  ∧ ∃ b, can_place (make_empty 3) 1 0 1 0 (str "CAT") = Ok b
         ∧ (b = false →
            ∀ w', can_place (make_empty 3) 1 0 1 0 (str "CAT" ++ w') = Ok false).
Proof.
  assert (square 3 (make_empty 3)) as Hsq
    by (split; [reflexivity|repeat constructor]).
  split; [exact Hsq|].
  destruct (can_place_spec 3 (make_empty 3) 1 0 1 0 (str "CAT") Hsq)
    as (b & Hb & _ & Hearly).
  exists b. exact (conj Hb Hearly).
Defined.

(* ===================================================================== *)
(** ** Writing one cell *)
(* ===================================================================== *)

Lemma sumZ_insert {A} (f : A → Z) (l : list A) (k : nat) (a b : A) :
  l !! k = Some a → sumZ f (<[k:=b]> l) = sumZ f l - f a + f b.
Proof.
  revert k. induction l as [|x l IH]; intros [|k] Hk; try done.
  - injection Hk as ->. unfold sumZ. simpl. lia.
  - simpl in Hk. specialize (IH k Hk). unfold sumZ in *. simpl. lia.
Qed.

Lemma sumZ_nonneg {A} (f : A → Z) (l : list A) :
  (∀ a, 0 ≤ f a) → 0 ≤ sumZ f l.
Proof.
  intros Hf. induction l as [|x l IH]; unfold sumZ in *; simpl; [lia|].
  specialize (Hf x). lia.
Qed.

Lemma is_None_range (c : cell) : 0 ≤ is_None c ≤ 1.
Proof. destruct c; simpl; lia. Qed.

(** [g[a][b] = v] inside a square grid: it succeeds, writes that cell and no
    other, and the count of empty cells moves by the change at that cell. *)
Lemma setcell_in (n : nat) (g : grid) (a b : Z) (v : cell) :
  square n g → 0 ≤ a < Z.of_nat n → 0 ≤ b < Z.of_nat n →
  ∃ g' old,
    setcell g a b v = Ok g' ∧ square n g'
    ∧ cell_at g (Z.to_nat a) (Z.to_nat b) = Some old
    ∧ cell_at g' (Z.to_nat a) (Z.to_nat b) = Some v
    ∧ (∀ a' b', (a', b') ≠ (Z.to_nat a, Z.to_nat b) →
         cell_at g' a' b' = cell_at g a' b')
    ∧ count_empty g' = count_empty g - is_None old + is_None v.
Proof.
  intros Hsq Ha Hb. pose proof Hsq as [Hlen Hrows]. unfold setcell.
  destruct (getitem_in g a) as (row & -> & Hrow); [unfold len; lia|].
  pose proof (square_row _ _ _ _ Hsq Hrow) as Hrl.
  rewrite setitem_in by (unfold len; lia).
  rewrite setitem_in by (unfold len; lia).
  destruct (lookup_lt_is_Some_2 row (Z.to_nat b)) as [old Hold]; [lia|].
  eexists _, old. split_and!; [done| | | | |].
  - split; [by rewrite length_insert|].
    apply Forall_insert; [done|]. by rewrite length_insert.
  - apply cell_at_Some. eauto.
  - apply cell_at_Some. exists (<[Z.to_nat b:=v]> row). split.
    + apply list_lookup_insert_eq. lia.
    + apply list_lookup_insert_eq. lia.
  - intros a' b' Hne. unfold cell_at.
    destruct (decide (a' = Z.to_nat a)) as [->|Hna].
    + rewrite list_lookup_insert_eq by lia. rewrite Hrow. simpl.
      apply list_lookup_insert_ne. congruence.
    + by rewrite list_lookup_insert_ne.
  - unfold count_empty. rewrite (sumZ_insert _ _ _ _ _ Hrow).
    unfold count_none at 3. rewrite (sumZ_insert _ _ _ _ _ Hold).
    fold (count_none row). lia.
Qed.

(* ===================================================================== *)
(** ** Word writer: [place_word] *)
(* ===================================================================== *)

Section path.
Variables (n : nat) (x y dx dy : Z).
Hypothesis Hdir : dx ≠ 0 ∨ dy ≠ 0.

Lemma spot_inj (i j : Z) :
  inside n x y dx dy i → inside n x y dx dy j →
  spot x y dx dy i = spot x y dx dy j → i = j.
Proof using Hdir.
  unfold inside, spot. intros Hi Hj [= Hy Hx].
  apply Z2Nat.inj in Hy, Hx; try lia.
  destruct Hdir; nia.
Qed.

Lemma new_cells_over_frame (g g' : grid) (indices : list Z) :
  square n g → square n g' →
  (∀ i, i ∈ indices →
     inside n x y dx dy i
     ∧ cell_at g' (spot x y dx dy i).1 (spot x y dx dy i).2
       = cell_at g (spot x y dx dy i).1 (spot x y dx dy i).2) →
  new_cells_over g' x y dx dy indices = new_cells_over g x y dx dy indices.
Proof.
  intros Hsq Hsq'. induction indices as [|i rest IH]; intros Hall; [done|].
  cbn [new_cells_over].
  destruct (Hall i) as ([Hx Hy] & Heq); [left|].
  destruct (getcell_in n g (y + dy * i) (x + dx * i)) as (c & -> & Hc); try done.
  destruct (getcell_in n g' (y + dy * i) (x + dx * i)) as (c' & -> & Hc'); try done.
  simpl in Heq. rewrite Hc, Hc' in Heq. injection Heq as ->.
  rewrite IH; [done|]. intros j Hj. apply Hall. by right.
Qed.

(** Writing a word along a path that stays inside the grid: the write
    completes, each path cell ends up holding its letter, no other cell
    changes, and the empty cells consumed are those [new_cells] counts. *)
Lemma place_word_from_spec (w : pystr) :
  ∀ (i : Z) (g : grid),
  square n g → 0 ≤ i →
  (∀ j : nat, (j < length w)%nat → inside n x y dx dy (i + Z.of_nat j)) →
  ∃ g', place_word_from g x y dx dy i w = Ok g' ∧ square n g'
    ∧ (∀ (j : nat) ch, w !! j = Some ch →
         cell_at g' (spot x y dx dy (i + Z.of_nat j)).1
                    (spot x y dx dy (i + Z.of_nat j)).2
         = Some (Some ch))
    ∧ (∀ a b,
         (∀ j : nat, (j < length w)%nat → (a, b) ≠ spot x y dx dy (i + Z.of_nat j)) →
         cell_at g' a b = cell_at g a b)
    ∧ new_cells_over g x y dx dy (seqZ i (len w))
      = Ok (count_empty g - count_empty g').
Proof using Hdir.
  induction w as [|ch rest IH]; intros i g Hsq Hi Hin.
  - exists g. split_and!; try done. simpl. f_equal. lia.
  - cbn [place_word_from].
    assert (inside n x y dx dy i) as Hi0.
    { specialize (Hin 0%nat). rewrite Z.add_0_r in Hin. apply Hin. simpl. lia. }
    assert (∀ j : nat, (j < length rest)%nat →
              inside n x y dx dy (i + 1 + Z.of_nat j)) as Hin'.
    { intros j Hj. replace (i + 1 + Z.of_nat j) with (i + Z.of_nat (S j)) by lia.
      apply Hin. simpl. lia. }
    destruct Hi0 as [Hx Hy].
    destruct (setcell_in n g (y + dy * i) (x + dx * i) (Some ch))
      as (g1 & old & -> & Hsq1 & Hold & Hnew & Hframe1 & Hcount1); try done.
    destruct (IH (i + 1) g1 Hsq1 ltac:(lia) Hin')
      as (g' & -> & Hsq' & Hread & Hframe & Hcount).
    assert (∀ j : nat, (j < length rest)%nat →
              spot x y dx dy i ≠ spot x y dx dy (i + 1 + Z.of_nat j))
      as Hfresh.
    { intros j Hj Heq. apply spot_inj in Heq; [lia|done|by apply Hin']. }
    exists g'. split_and!; try done.
    + intros [|j] c Hj.
      * injection Hj as <-. rewrite Z.add_0_r.
        rewrite Hframe; [done|]. intros j Hj. by apply Hfresh.
      * replace (i + Z.of_nat (S j)) with (i + 1 + Z.of_nat j) by lia.
        by apply Hread.
    + intros a b Hab. rewrite Hframe.
      * apply Hframe1. specialize (Hab 0%nat). rewrite Z.add_0_r in Hab.
        apply Hab. simpl. lia.
      * intros j Hj.
        replace (i + 1 + Z.of_nat j) with (i + Z.of_nat (S j)) by lia.
        apply Hab. simpl. lia.
    + unfold len. rewrite seqZ_cons by (simpl; lia). cbn [new_cells_over].
      destruct (getcell_in n g (y + dy * i) (x + dx * i)) as (c & -> & Hc);
        try done.
      replace (Z.succ i) with (i + 1) by lia.
      replace (Z.pred (Z.of_nat (length (ch :: rest)))) with (len rest)
        by (unfold len; simpl; lia).
      assert (new_cells_over g1 x y dx dy (seqZ (i + 1) (len rest))
              = new_cells_over g x y dx dy (seqZ (i + 1) (len rest))) as <-.
      { apply new_cells_over_frame; try done.
        intros j [Hj1 Hj2]%elem_of_seqZ. unfold len in Hj2.
        replace j with (i + 1 + Z.of_nat (Z.to_nat (j - (i + 1)))) by lia.
        split; [apply Hin'; lia|].
        apply Hframe1. intros Heq.
        apply (Hfresh (Z.to_nat (j - (i + 1)))); [lia|].
        symmetry. by destruct (spot x y dx dy (i + 1 + _)). }
      rewrite Hcount. f_equal. unfold spot in Hold. simpl in Hold.
      rewrite Hc in Hold. injection Hold as ->. simpl in Hcount1. lia.
Qed.
End path.

(** A placement that [can_place] has accepted: [place_word] completes, the
    grid stays square, every letter of the word can be read back, no letter
    already in the grid is lost, cells off the path are untouched, and the
    number of empty cells drops by exactly [new_cells]. *)
Lemma place_checked (n : nat) (g : grid) (x y dx dy : Z) (w : pystr) :
  square n g → dx ≠ 0 ∨ dy ≠ 0 →
  can_place g x y dx dy w = Ok true →
  ∃ g' k,
    place_word g x y dx dy w = Ok g' ∧ new_cells g x y dx dy w = Ok k
    ∧ square n g' ∧ extends g g'
    ∧ count_empty g' = count_empty g - k ∧ 0 ≤ k
    ∧ (∀ (i : nat) ch, w !! i = Some ch →
         inside n x y dx dy (Z.of_nat i) ∧
         getcell g' (y + dy * Z.of_nat i) (x + dx * Z.of_nat i) = Ok (Some ch))
    ∧ (∀ a b, (∀ i : nat, (i < length w)%nat → (a, b) ≠ spot x y dx dy (Z.of_nat i)) →
         cell_at g' a b = cell_at g a b).
Proof.
  intros Hsq Hdir Hcan.
  assert (Hlen : len g = Z.of_nat n) by (destruct Hsq; unfold len; lia).
  destruct (can_place_from_spec n g x y dx dy w Hsq 0) as (b & Hb & Hiff).
  unfold can_place in Hcan. rewrite Hcan in Hb. injection Hb as <-.
  pose proof (proj1 Hiff eq_refl) as Hfits. clear Hiff.
  assert (∀ j : nat, (j < length w)%nat → inside n x y dx dy (0 + Z.of_nat j)) as Hin.
  { intros j Hj. destruct (lookup_lt_is_Some_2 w j Hj) as [ch Hch].
    destruct (Hfits j ch Hch) as (Hx & Hy & _). rewrite Hlen in Hx, Hy. done. }
  destruct (place_word_from_spec n x y dx dy Hdir w 0 g Hsq ltac:(lia) Hin)
    as (g' & Hplace & Hsq' & Hread & Hframe & Hcount).
  exists g', (count_empty g - count_empty g').
  assert (∀ (i : nat) ch, w !! i = Some ch →
            inside n x y dx dy (Z.of_nat i) ∧
            getcell g' (y + dy * Z.of_nat i) (x + dx * Z.of_nat i) = Ok (Some ch))
    as Hback.
  { intros i ch Hi. pose proof (lookup_lt_Some _ _ _ Hi) as Hlt.
    specialize (Hin i Hlt). rewrite Z.add_0_l in Hin. split; [done|].
    destruct Hin as [Hx Hy]. apply (getcell_in_eq n); try done.
    specialize (Hread i ch Hi). by rewrite Z.add_0_l in Hread. }
  assert (extends g g') as Hext.
  { intros a b c Hc.
    destruct (decide ((a, b) ∈ (spot x y dx dy <$> seqZ 0 (len w)))) as [Hon|Hoff].
    - apply list_elem_of_fmap in Hon as (j & Hj & [Hj0 Hj1]%elem_of_seqZ).
      unfold len in Hj1.
      destruct (lookup_lt_is_Some_2 w (Z.to_nat j)) as [ch Hch]; [lia|].
      destruct (Hback _ _ Hch) as ([Hx Hy] & Hg').
      destruct (Hfits _ _ Hch) as (_ & _ & Hold).
      rewrite Z.add_0_l, Z2Nat.id in * by lia.
      apply (getcell_in_eq n) in Hg'; try done.
      injection Hj as -> ->. exists (Some ch). split; [done|].
      intros Hne. destruct Hold as [Hold|Hold];
        apply (getcell_in_eq n) in Hold; try done; congruence.
    - exists c. split; [|done]. rewrite Hframe; [done|].
      intros j Hj Heq. apply Hoff. apply list_elem_of_fmap.
      exists (Z.of_nat j). split; [by rewrite Z.add_0_l in Heq|].
      apply elem_of_seqZ. unfold len. lia. }
  split_and!; try done.
  - lia.
  - assert (∀ l k, new_cells_over g x y dx dy l = Ok k → 0 ≤ k) as Hnn.
    { induction l as [|i l IH]; intros k; simpl; [intros [= <-]; lia|].
      destruct (getcell _ _ _) as [c|]; [|done].
      destruct (new_cells_over _ _ _ _ _ l) as [k'|]; [|done].
      intros [= <-]. specialize (IH k' eq_refl). pose proof (is_None_range c). lia. }
    by apply (Hnn _ _ Hcount).
Qed.

(* ===================================================================== *)
(** ** Reasoning about computations *)
(* ===================================================================== *)

Lemma wp_ret {A} (a : A) Q E w : Q a w → wp (mret a) Q E w.
Proof. done. Qed.

Lemma wp_bind {A B} (m : M A) (f : A → M B) Q E w :
  wp m (λ a w', wp (f a) Q E w') E w → wp (m ≫= f) Q E w.
Proof.
  unfold wp, mbind, M_bind. destruct (m w) as [[a|e] w']; done.
Qed.

Lemma wp_mono {A} (m : M A) (Q Q' : A → World → Prop) (E E' : exn → World → Prop) w :
  wp m Q E w → (∀ a w', Q a w' → Q' a w') → (∀ e w', E e w' → E' e w') →
  wp m Q' E' w.
Proof.
  unfold wp. destruct (m w) as [[a|e] w']; eauto.
Qed.

Lemma wp_lift {A} (r : res A) Q E w :
  match r with Ok a => Q a w | Raise e => E e w end → wp (lift r) Q E w.
Proof. done. Qed.

Lemma wp_raise {A} (e : exn) (Q : A → World → Prop) E w :
  E e w → wp (raise e) Q E w.
Proof. done. Qed.

Lemma wp_log (t : trial) Q E w : Q tt (noted t w) → wp (log t) Q E w.
Proof. done. Qed.

Lemma wp_randbelow (k : nat) Q E w :
  (∀ i : nat, (k ≠ 0 → i < k)%nat → Q i (tick w)) → wp (randbelow k) Q E w.
Proof.
  intros H. unfold wp, randbelow. simpl. apply H.
  intros Hk. by apply Nat.mod_upper_bound.
Qed.

Lemma wp_choice {A} (l : list A) Q E w :
  (l = [] → E IndexError w) → (∀ a, a ∈ l → Q a (tick w)) → wp (choice l) Q E w.
Proof.
  intros HE HQ. destruct l as [|a0 l0]; [by apply wp_raise, HE|].
  set (l := a0 :: l0) in *. unfold choice. fold l. apply wp_bind, wp_randbelow.
  intros i Hi. apply wp_lift.
  destruct (lookup_lt_is_Some_2 l i) as [a Ha]; [apply Hi; done|].
  rewrite (getitem_nat _ _ _ Ha). apply HQ. by eapply list_elem_of_lookup_2.
Qed.

Lemma wp_randint (a b : Z) Q E w :
  (b < a → E ValueError w) → (∀ v, a ≤ v ≤ b → Q v (tick w)) →
  wp (randint a b) Q E w.
Proof.
  intros HE HQ. unfold randint. destruct (Z.ltb_spec b a) as [Hlt|Hle].
  - by apply wp_raise, HE.
  - apply wp_bind, wp_randbelow. intros i Hi. apply wp_ret, HQ. lia.
Qed.

Lemma wp_run {A} (m : M A) Q E w r w' :
  wp m Q E w → m w = (r, w') →
  match r with Ok a => Q a w' | Raise e => E e w' end.
Proof. unfold wp. intros H Hrun. by rewrite Hrun in H. Qed.

(* ===================================================================== *)
(** ** Runs of the scheduler *)
(* ===================================================================== *)

Section trial_loop.
Variables (n k : Z) (allowed : list direction).
Hypothesis Hallowed : ∀ d, d ∈ allowed → d ∈ DIRECTIONS.
Hypothesis Hnonempty : allowed ≠ [].

Lemma history_square g placed T :
  history n k allowed g placed T → square (Z.to_nat n) g.
Proof using Hallowed.
  induction 1 as [|? ? ? ? ? ? ? _ IH|? ? ? ? ? ? ? ? _ IH
                  |g placed T w d x y m g' _ IH Hd Hcan Hnew Hk Hplace];
    [apply make_empty_square|done|done|].
  destruct Hd as (Hd%Hallowed%DIRECTIONS_unit & _).
  destruct (place_checked _ g x y d.1.1 d.1.2 w IH ltac:(tauto) Hcan)
    as (g1 & k1 & Hp & _ & Hsq & _).
  congruence.
Qed.

(** The origin ranges are non-empty, except for the empty word on the
    grid of side 0. *)
Lemma ranges_ok (w : pystr) (d : Z) :
  len w ≤ n → -1 ≤ d ≤ 1 → n ≠ 0 ∨ w ≠ [] →
  min_x d w ≤ max_x n d w ∧ min_y d w ≤ max_y n d w.
Proof.
  intros Hw Hd Hne. unfold min_x, max_x, min_y, max_y, len in *.
  assert (w = [] ∨ 1 ≤ Z.of_nat (length w)) as [->|Hl]
    by (destruct w; [by left|right; simpl; lia]).
  - simpl in *. destruct Hne as [?|?]; [|done].
    destruct (d <=? 0), (d >=? 0); lia.
  - destruct (Z.leb_spec d 0), (Z.geb_spec d 0); lia.
Qed.

(** The trial loop keeps the state within [history]; it raises only for
    the empty word on the grid of side 0 (an empty origin range). *)
Lemma trial_loop_history (fuel : nat) (g : grid) (placed : list pystr) (w : pystr) :
  len w ≤ n → ∀ w0,
  history n k allowed g placed (trace w0) →
  wp (trial_loop fuel n k allowed g w)
     (λ r w', match r with
              | Some g' => history n k allowed g' (placed ++ [w]) (trace w')
              | None => history n k allowed g placed (trace w')
              end)
     (λ _ w', history n k allowed g placed (trace w') ∧ n = 0 ∧ w = [])
     w0.
Proof using Hallowed Hnonempty.
  intros Hw. induction fuel as [|fuel IH]; intros w0 Hhist.
  { by apply wp_ret. }
  pose proof (history_square _ _ _ Hhist) as Hsq.
  cbn [trial_loop]. apply wp_bind, wp_choice; [done|]. intros d Hd.
  pose proof (DIRECTIONS_unit d (Hallowed d Hd)) as (Hdx & Hdy & Hdir).
  assert (n = 0 ∧ w = [] ∨ (n ≠ 0 ∨ w ≠ [])) as [Hbad|Hgood].
  { destruct (decide (n = 0)); destruct w; auto; right; right; done. }
  { apply wp_bind, wp_randint; [done|]. intros x Hx.
    apply wp_bind, wp_randint; [done|]. intros y Hy.
    destruct Hbad as [-> ->]. apply wp_bind, wp_lift. simpl.
    apply wp_bind, wp_lift. simpl.
    destruct (bool_decide (k ≠ 0) && (count_empty g - 0 <? k)) eqn:Hres.
    - apply andb_true_iff in Hres as [Hk%bool_decide_eq_true Hlt%Z.ltb_lt].
      apply wp_bind, wp_log. apply IH. simpl.
      eapply (hist_reserved _ _ _ g placed _ [] d x y 0); try done.
    - apply wp_bind, wp_lift. simpl. apply wp_bind, wp_log, wp_ret. simpl.
      eapply (hist_accepted _ _ _ g placed _ [] d x y 0 g); try done.
      apply andb_false_iff in Hres as [Hk%bool_decide_eq_false|Hlt%Z.ltb_ge].
      + left. by apply dec_stable.
      + right. lia. }
  destruct (ranges_ok w d.1.1 Hw Hdx Hgood) as [Hrx _].
  destruct (ranges_ok w d.1.2 Hw Hdy Hgood) as [_ Hry].
  apply wp_bind, wp_randint; [lia|]. intros x Hx.
  apply wp_bind, wp_randint; [lia|]. intros y Hy.
  assert (drawn n allowed w d x y) as Hdrawn by done.
  apply wp_bind, wp_lift.
  destruct (can_place_square _ g x y d.1.1 d.1.2 w Hsq) as (b & Hcan & _).
  rewrite Hcan. destruct b.
  - destruct (place_checked _ g x y d.1.1 d.1.2 w Hsq Hdir Hcan)
      as (g' & m & Hplace & Hnew & _).
    apply wp_bind, wp_lift. rewrite Hnew.
    destruct (bool_decide (k ≠ 0) && (count_empty g - m <? k)) eqn:Hres.
    + apply andb_true_iff in Hres as [Hk%bool_decide_eq_true Hlt%Z.ltb_lt].
      apply wp_bind, wp_log. apply IH. simpl.
      by eapply hist_reserved.
    + apply wp_bind, wp_lift. rewrite Hplace.
      apply wp_bind, wp_log, wp_ret. simpl.
      eapply hist_accepted; try done.
      apply andb_false_iff in Hres as [Hk%bool_decide_eq_false|Hlt%Z.ltb_ge].
      * left. by apply dec_stable.
      * right. lia.
  - apply wp_bind, wp_log. apply IH. simpl. by eapply hist_collision.
Qed.
End trial_loop.

(* ===================================================================== *)
(** ** Loops, sorting and shuffling *)
(* ===================================================================== *)

(** A loop keeps what every iteration keeps. *)
Lemma wp_for_each {A S} (Inv : S → World → Prop) (E : exn → World → Prop)
    (l : list A) (body : A → S → M S) :
  (∀ a s w, a ∈ l → Inv s w → wp (body a s) Inv E w) →
  ∀ s w, Inv s w → wp (for_each l body s) Inv E w.
Proof.
  induction l as [|a l IH]; intros Hbody s w HI; [by apply wp_ret|].
  cbn [for_each]. apply wp_bind.
  eapply wp_mono; [apply Hbody; [left|done]| |done].
  intros s' w' HI'. apply IH; [|done].
  intros a' s'' w'' Ha'. apply Hbody. by right.
Qed.

Lemma insert_by_len_perm (w : pystr) (l : list pystr) :
  insert_by_len w l ≡ₚ w :: l.
Proof.
  induction l as [|v l IH]; [done|]. simpl.
  destruct (len w <? len v); [|done]. rewrite IH. apply Permutation_swap.
Qed.

Lemma sort_by_len_desc_perm (l : list pystr) : sort_by_len_desc l ≡ₚ l.
Proof.
  induction l as [|w l IH]; [done|]. unfold sort_by_len_desc in *. simpl.
  rewrite insert_by_len_perm. by rewrite IH.
Qed.

Lemma insert_swap_perm {A} (x : list A) (j : nat) (a b : A) :
  x !! j = Some b → b :: <[j:=a]> x ≡ₚ a :: x.
Proof.
  revert j. induction x as [|c x IH]; intros [|j] Hj; try done.
  - injection Hj as ->. simpl. apply Permutation_swap.
  - simpl in *. rewrite (Permutation_swap c b). rewrite (IH _ Hj).
    apply Permutation_swap.
Qed.

Lemma swap_perm {A} (x : list A) (i j : nat) : swap x i j ≡ₚ x.
Proof.
  unfold swap. destruct (x !! i) as [a|] eqn:Hi; [|done].
  destruct (x !! j) as [b|] eqn:Hj; [|done].
  revert i j Hi Hj. induction x as [|c x IH]; intros [|i] [|j] Hi Hj; try done.
  - simpl in *. by injection Hi as ->.
  - simpl in *. injection Hi as ->. by apply insert_swap_perm.
  - simpl in *. injection Hj as ->. by apply insert_swap_perm.
  - simpl in *. by rewrite IH.
Qed.

(** [random.shuffle] never raises, returns a permutation, makes one draw
    per position but the first and writes nothing to the trace. *)
Lemma wp_shuffle_from {A} (i : nat) (E : exn → World → Prop) :
  ∀ (x : list A) w,
  wp (shuffle_from i x)
     (λ x' w', x' ≡ₚ x ∧ trace w' = trace w
               ∧ cursor (rng w') = (cursor (rng w) + i)%nat) E w.
Proof.
  induction i as [|i IH]; intros x w.
  { apply wp_ret. split_and!; [done|done|lia]. }
  cbn [shuffle_from]. apply wp_bind, wp_randbelow. intros j _.
  eapply wp_mono; [apply IH| |done]. simpl.
  intros x' w' (Hp & Ht & Hc). split_and!; [|done|lia].
  rewrite Hp. apply swap_perm.
Qed.

Lemma wp_shuffle {A} (x : list A) (E : exn → World → Prop) w :
  wp (shuffle x)
     (λ x' w', x' ≡ₚ x ∧ trace w' = trace w
               ∧ cursor (rng w') = (cursor (rng w) + (length x - 1))%nat) E w.
Proof. apply wp_shuffle_from. Qed.

Section place_each.
Variables (n k : Z) (allowed : list direction).
Hypothesis Hallowed : ∀ d, d ∈ allowed → d ∈ DIRECTIONS.
Hypothesis Hnonempty : allowed ≠ [].

Lemma place_each_history (words_pool : list pystr) (s : grid * list pystr) w0 :
  history n k allowed s.1 s.2 (trace w0) →
  wp (place_each n k allowed words_pool s)
     (λ s' w', history n k allowed s'.1 s'.2 (trace w'))
     (λ _ w', (∃ g placed, history n k allowed g placed (trace w'))
              ∧ n = 0 ∧ [] ∈ words_pool)
     w0.
Proof using Hallowed Hnonempty.
  intros Hstart. unfold place_each.
  apply (wp_for_each (λ s w, history n k allowed s.1 s.2 (trace w)));
    [|done]. clear s w0 Hstart.
  intros w s w0 Hw Hhist. destruct (Z.gtb_spec (len w) n) as [Hgt|Hle].
  { by apply wp_ret. }
  apply wp_bind.
  eapply wp_mono; [by apply trial_loop_history| |].
  - intros [g'|] w' H; apply wp_ret; done.
  - intros e w' (H & -> & ->). split; [eauto|done].
Qed.
End place_each.

(** Every run of [greedy_place] ends in a state of [history], also when it
    raises; it can raise only on the grid of side 0 with the empty word among
    the words. *)
Lemma greedy_place_history (words : list pystr) (n : Z) (diagonals backwards : bool)
    (alphabet_key : pystr) (k : Z) (r : Random) :
  wp (greedy_place words n diagonals backwards alphabet_key k)
     (λ s w', history n k (pick_allowed diagonals backwards) s.1 s.2 (trace w'))
     (λ _ w', (∃ g placed,
                 history n k (pick_allowed diagonals backwards) g placed (trace w'))
              ∧ n = 0 ∧ [] ∈ words)
     (start r).
Proof.
  unfold greedy_place. apply wp_bind.
  eapply (wp_mono _ _ _ (λ _ _, False)); [apply wp_shuffle| |done].
  intros pool w' (Hperm & Htr & _). simpl in Htr.
  eapply wp_mono;
    [apply place_each_history;
       [apply pick_allowed_sub|apply pick_allowed_nonempty|]| |].
  - simpl. rewrite Htr. constructor.
  - done.
  - intros e w'' (H & Hn & Hin). split_and!; try done.
    rewrite Hperm, sort_by_len_desc_perm in Hin. done.
Qed.

(* ===================================================================== *)
(** ** The ghost trace is only written *)
(* ===================================================================== *)

Lemma ghost_only_ret {A} (a : A) : ghost_only (mret a).
Proof. intros r. by exists (Ok a), r, []. Qed.

Lemma ghost_only_lift {A} (x : res A) : ghost_only (lift x).
Proof. intros r. by exists x, r, []. Qed.

Lemma ghost_only_raise {A} (e : exn) : ghost_only (@raise A e).
Proof. intros r. by exists (Raise e), r, []. Qed.

Lemma ghost_only_log (t : trial) : ghost_only (log t).
Proof. intros r. by exists (Ok tt), r, [t]. Qed.

Lemma ghost_only_randbelow (k : nat) : ghost_only (randbelow k).
Proof.
  intros r.
  by exists (Ok (tape r (cursor r) `mod` k)%nat),
            {| tape := tape r; cursor := S (cursor r) |}, [].
Qed.

Lemma ghost_only_bind {A B} (m : M A) (f : A → M B) :
  ghost_only m → (∀ a, ghost_only (f a)) → ghost_only (m ≫= f).
Proof.
  intros Hm Hf r. destruct (Hm r) as (x & r1 & new1 & H1).
  destruct x as [a|e].
  - destruct (Hf a r1) as (y & r2 & new2 & H2).
    exists y, r2, (new2 ++ new1). intros T.
    unfold mbind, M_bind. rewrite H1, H2. by rewrite app_assoc.
  - exists (Raise e), r1, new1. intros T. unfold mbind, M_bind. by rewrite H1.
Qed.

Lemma ghost_only_choice {A} (l : list A) : ghost_only (choice l).
Proof.
  destruct l as [|a l]; [apply ghost_only_raise|].
  apply ghost_only_bind; [apply ghost_only_randbelow|].
  intros i. apply ghost_only_lift.
Qed.

Lemma ghost_only_randint (a b : Z) : ghost_only (randint a b).
Proof.
  unfold randint. destruct (b <? a); [apply ghost_only_raise|].
  apply ghost_only_bind; [apply ghost_only_randbelow|].
  intros i. apply ghost_only_ret.
Qed.

Lemma ghost_only_for_each {A St} (l : list A) (body : A → St → M St) :
  (∀ a s, ghost_only (body a s)) → ∀ s, ghost_only (for_each l body s).
Proof.
  intros Hbody. induction l as [|a l IH]; intros s; [apply ghost_only_ret|].
  cbn [for_each]. by apply ghost_only_bind.
Qed.

Lemma ghost_only_shuffle {A} (x : list A) : ghost_only (shuffle x).
Proof.
  unfold shuffle. generalize (length x - 1)%nat as i. intros i. revert x.
  induction i as [|i IH]; intros x; [apply ghost_only_ret|].
  cbn [shuffle_from].
  apply ghost_only_bind; [apply ghost_only_randbelow|]. intros j. apply IH.
Qed.

Lemma ghost_only_trial_loop (fuel : nat) (n k : Z) (allowed : list direction)
    (g : grid) (w : pystr) :
  ghost_only (trial_loop fuel n k allowed g w).
Proof.
  induction fuel as [|fuel IH]; [apply ghost_only_ret|]. cbn [trial_loop].
  apply ghost_only_bind; [apply ghost_only_choice|]. intros d.
  apply ghost_only_bind; [apply ghost_only_randint|]. intros x.
  apply ghost_only_bind; [apply ghost_only_randint|]. intros y.
  apply ghost_only_bind; [apply ghost_only_lift|]. intros [|].
  - apply ghost_only_bind; [apply ghost_only_lift|]. intros m.
    destruct (_ && _).
    + apply ghost_only_bind; [apply ghost_only_log|]. intros _. apply IH.
    + apply ghost_only_bind; [apply ghost_only_lift|]. intros g'.
      apply ghost_only_bind; [apply ghost_only_log|]. intros _.
      apply ghost_only_ret.
  - apply ghost_only_bind; [apply ghost_only_log|]. intros _. apply IH.
Qed.

(** The value returned by [greedy_place] and the generator it leaves behind
    are those of the program without trace: they do not depend on the trace
    the run starts with, which is only extended. *)
Lemma ghost_only_greedy_place words n diagonals backwards key k :
  ghost_only (greedy_place words n diagonals backwards key k).
Proof.
  unfold greedy_place. apply ghost_only_bind; [apply ghost_only_shuffle|].
  intros pool. unfold place_each. apply ghost_only_for_each. intros w s.
  destruct (len w >? n); [apply ghost_only_ret|].
  apply ghost_only_bind; [apply ghost_only_trial_loop|].
  intros [g'|]; apply ghost_only_ret.
Qed.

Lemma ghost_only_fill_random (g : grid) (alphabet : pystr) :
  ghost_only (fill_random g alphabet).
Proof.
  unfold fill_random. apply ghost_only_for_each. intros y g1.
  apply ghost_only_for_each. intros x g2.
  apply ghost_only_bind; [apply ghost_only_lift|]. intros [c|].
  - apply ghost_only_ret.
  - apply ghost_only_bind; [apply ghost_only_choice|]. intros ch.
    apply ghost_only_lift.
Qed.

Lemma ghost_only_fill_with_tajenka (U : Unicode) (g : grid)
    (alphabet tajenka : pystr) :
  ghost_only (fill_with_tajenka U g alphabet tajenka).
Proof.
  unfold fill_with_tajenka. generalize 0 as i. generalize (empties_of g) as cs.
  intros cs. revert g. induction cs as [|[y x] cs IH]; intros g i.
  { apply ghost_only_ret. }
  cbn [fill_cells]. apply ghost_only_bind.
  - destruct (i <? len tajenka); [apply ghost_only_lift|apply ghost_only_choice].
  - intros ch. apply ghost_only_bind; [apply ghost_only_lift|]. intros g'.
    apply IH.
Qed.

(* ===================================================================== *)
(** ** The tape does not restrict the outcomes *)
(* ===================================================================== *)

(** Every value of the range can come out of [randint]. *)
Lemma randint_any (a b v : Z) :
  a ≤ v ≤ b → ∃ r, (randint a b (start r)).1 = Ok v.
Proof.
  intros Hv. exists {| tape := λ _, Z.to_nat (v - a); cursor := 0 |}.
  unfold randint. rewrite (proj2 (Z.ltb_ge b a)) by lia.
  unfold mbind, M_bind, randbelow, mret, M_ret. cbn [start rng tape cursor fst].
  rewrite Nat.mod_small by lia. f_equal. lia.
Qed.

(** Every element of the sequence can come out of [choice]. *)
Lemma choice_any {A} (l : list A) (x : A) :
  x ∈ l → ∃ r, (choice l (start r)).1 = Ok x.
Proof.
  intros [i Hi]%list_elem_of_lookup. pose proof (lookup_lt_Some _ _ _ Hi) as Hlt.
  exists {| tape := λ _, i; cursor := 0 |}.
  destruct l as [|a l]; [done|]. unfold choice.
  unfold mbind, M_bind, randbelow, lift. cbn [start rng tape cursor fst].
  rewrite Nat.mod_small by done. by rewrite (getitem_nat _ _ _ Hi).
Qed.

(* ===================================================================== *)
(** ** Invariants of the scheduler *)
(* ===================================================================== *)

Section invariants.
Variables (n k : Z) (allowed : list direction).
Hypothesis Hallowed : ∀ d, d ∈ allowed → d ∈ DIRECTIONS.

(** One accepted step, seen from the state before it. *)
Lemma accepted_step g w d x y g' :
  square (Z.to_nat n) g → d ∈ allowed →
  can_place g x y d.1.1 d.1.2 w = Ok true →
  place_word g x y d.1.1 d.1.2 w = Ok g' →
  ∃ m, new_cells g x y d.1.1 d.1.2 w = Ok m
     ∧ square (Z.to_nat n) g' ∧ extends g g'
     ∧ count_empty g' = count_empty g - m ∧ 0 ≤ m
     ∧ (∀ (i : nat) ch, w !! i = Some ch →
          inside (Z.to_nat n) x y d.1.1 d.1.2 (Z.of_nat i) ∧
          getcell g' (y + d.1.2 * Z.of_nat i) (x + d.1.1 * Z.of_nat i) = Ok (Some ch)).
Proof using Hallowed.
  intros Hsq Hd%Hallowed%DIRECTIONS_unit Hcan Hplace.
  destruct (place_checked _ g x y d.1.1 d.1.2 w Hsq ltac:(tauto) Hcan)
    as (g1 & m & Hp & Hnew & Hsq1 & Hext & Hcnt & Hm & Hread & _).
  assert (g1 = g') as -> by congruence. exists m. done.
Qed.

(** Every grid the run has seen is extended by the current one. *)
Lemma history_extends g placed T :
  history n k allowed g placed T → ∀ t, t ∈ T → extends (t_grid t) g.
Proof using Hallowed.
  induction 1 as [|g placed T w d x y Hh IH Hd Hcan
                  |g placed T w d x y m Hh IH Hd Hcan Hnew Hk Hlt
                  |g placed T w d x y m g' Hh IH Hd Hcan Hnew Hk Hplace];
    intros t Ht.
  - by apply elem_of_nil in Ht.
  - apply elem_of_cons in Ht as [->|Ht]; [apply extends_refl|by apply IH].
  - apply elem_of_cons in Ht as [->|Ht]; [apply extends_refl|by apply IH].
  - pose proof (history_square _ _ _ Hallowed _ _ _ Hh) as Hsq.
    destruct (accepted_step g w d x y g' Hsq (proj1 Hd) Hcan Hplace)
      as (m' & _ & _ & Hext & _).
    apply elem_of_cons in Ht as [->|Ht]; [done|].
    eapply extends_trans; [by apply IH|done].
Qed.

(** Older snapshots are extended by newer ones. *)
Lemma history_monotone g placed T :
  history n k allowed g placed T →
  ∀ (i j : nat) ti tj, (i ≤ j)%nat → T !! i = Some ti → T !! j = Some tj →
    extends (t_grid tj) (t_grid ti).
Proof using Hallowed.
  assert (∀ g placed T t0, history n k allowed g placed T → t_grid t0 = g →
    (∀ (i j : nat) ti tj, (i ≤ j)%nat → T !! i = Some ti → T !! j = Some tj →
       extends (t_grid tj) (t_grid ti)) →
    ∀ (i j : nat) ti tj, (i ≤ j)%nat → (t0 :: T) !! i = Some ti →
      (t0 :: T) !! j = Some tj → extends (t_grid tj) (t_grid ti)) as Hstep.
  { intros g0 placed0 T0 t0 Hh Hg IH [|i] [|j] ti tj Hij Hi Hj; simpl in *.
    - injection Hi as <-. injection Hj as <-. apply extends_refl.
    - injection Hi as <-. rewrite Hg.
      eapply history_extends; [done|]. by eapply list_elem_of_lookup_2.
    - lia.
    - eapply (IH i j); [lia|done|done]. }
  induction 1; [intros i j ti tj _ Hi; done| | |];
    eapply Hstep; eauto.
Qed.

(** Every accepted word can be read back from the current grid. *)
Lemma history_readback g placed T :
  history n k allowed g placed T →
  ∀ t, t ∈ T → t_verdict t = Accepted →
  ∀ (i : nat) ch, t_word t !! i = Some ch →
    inside (Z.to_nat n) (t_x t) (t_y t) (t_dx t) (t_dy t) (Z.of_nat i) ∧
    getcell g (t_row t i) (t_col t i) = Ok (Some ch).
Proof using Hallowed.
  induction 1 as [|g placed T w d x y Hh IH Hd Hcan
                  |g placed T w d x y m Hh IH Hd Hcan Hnew Hk Hlt
                  |g placed T w d x y m g' Hh IH Hd Hcan Hnew Hk Hplace];
    intros t Ht Hv.
  - by apply elem_of_nil in Ht.
  - apply elem_of_cons in Ht as [->|Ht]; [done|by apply IH].
  - apply elem_of_cons in Ht as [->|Ht]; [done|by apply IH].
  - pose proof (history_square _ _ _ Hallowed _ _ _ Hh) as Hsq.
    destruct (accepted_step g w d x y g' Hsq (proj1 Hd) Hcan Hplace)
      as (m' & _ & Hsq' & Hext & _ & _ & Hread).
    apply elem_of_cons in Ht as [->|Ht]; [exact Hread|].
    intros i ch Hi. destruct (IH t Ht Hv i ch Hi) as [Hin Hget].
    split; [done|]. destruct Hin.
    eapply (extends_read g g'); [done|unfold t_row; lia|unfold t_col; lia|done].
Qed.

(** The trace agrees with what each trial computed. *)
Lemma history_trials g placed T :
  history n k allowed g placed T → Forall (trial_ok n k allowed) T.
Proof.
  induction 1; constructor; try done; exists d; simpl; eauto 10.
Qed.

(** The result list is the list of accepted words, in order. *)
Lemma history_placed g placed T :
  history n k allowed g placed T → placed = accepted_words T.
Proof.
  unfold accepted_words.
  induction 1 as [| | |g placed T w d x y m g' Hh IH]; try done.
  rewrite filter_cons_True by done. rewrite reverse_cons, fmap_app.
  by rewrite <- IH.
Qed.

(** Either nothing has been placed, or the reserve holds. *)
Lemma history_reserve g placed T :
  history n k allowed g placed T →
  (g = make_empty n ∧ placed = []) ∨ (k ≠ 0 → k ≤ count_empty g).
Proof using Hallowed.
  induction 1 as [|g placed T w d x y Hh IH Hd Hcan
                  |g placed T w d x y m Hh IH Hd Hcan Hnew Hk Hlt
                  |g placed T w d x y m g' Hh IH Hd Hcan Hnew Hk Hplace];
    [by left|done|done|].
  right. intros Hk0.
  pose proof (history_square _ _ _ Hallowed _ _ _ Hh) as Hsq.
  destruct (accepted_step g w d x y g' Hsq (proj1 Hd) Hcan Hplace)
    as (m' & Hnew' & _ & _ & Hcnt & _).
  assert (m' = m) as -> by congruence. lia.
Qed.
End invariants.

(* ===================================================================== *)
(** ** Cell fillers *)
(* ===================================================================== *)

Lemma empties_row_spec (y x0 : Z) (row : list cell) (p : Z * Z) :
  p ∈ empties_row y x0 row ↔
  p.1 = y ∧ x0 ≤ p.2 ∧ row !! Z.to_nat (p.2 - x0) = Some None.
Proof.
  revert x0. induction row as [|val rest IH]; intros x0.
  { simpl. rewrite elem_of_nil. split; [done|]. by intros (_ & _ & ?). }
  assert (p ∈ empties_row y (x0 + 1) rest ↔
          p.1 = y ∧ x0 < p.2 ∧ (val :: rest) !! Z.to_nat (p.2 - x0) = Some None)
    as Hrest.
  { rewrite IH. split; intros (H1 & H2 & H3); split_and!; try done; try lia.
    - replace (Z.to_nat (p.2 - x0)) with (S (Z.to_nat (p.2 - (x0 + 1)))) by lia.
      done.
    - replace (Z.to_nat (p.2 - x0)) with (S (Z.to_nat (p.2 - (x0 + 1)))) in H3
        by lia. done. }
  destruct p as [py px]. simpl in *. destruct val as [c|].
  - rewrite Hrest. split; intros (H1 & H2 & H3); split_and!; try done; try lia.
    destruct (decide (px = x0)) as [->|]; [|lia].
    by rewrite Z.sub_diag in H3.
  - rewrite elem_of_cons, Hrest. split.
    + intros [[= -> ->]|(H1 & H2 & H3)].
      * by rewrite Z.sub_diag.
      * split_and!; try done; lia.
    + intros (H1 & H2 & H3). destruct (decide (px = x0)) as [->|].
      * left. by rewrite H1.
      * right. split_and!; try done; lia.
Qed.

Lemma empties_from_spec (y0 : Z) (g : grid) (p : Z * Z) :
  p ∈ empties_from y0 g ↔
  y0 ≤ p.1 ∧ 0 ≤ p.2 ∧ cell_at g (Z.to_nat (p.1 - y0)) (Z.to_nat p.2) = Some None.
Proof.
  revert y0. induction g as [|row rest IH]; intros y0.
  { simpl. rewrite elem_of_nil. unfold cell_at. split; [done|]. by intros (_ & _ & ?). }
  simpl. rewrite elem_of_app, empties_row_spec, IH, Z.sub_0_r.
  unfold cell_at. split.
  - intros [(H1 & H2 & H3)|(H1 & H2 & H3)].
    + rewrite H1, Z.sub_diag. split_and!; try done; lia.
    + replace (Z.to_nat (p.1 - y0)) with (S (Z.to_nat (p.1 - (y0 + 1)))) by lia.
      split_and!; try done; lia.
  - intros (H1 & H2 & H3). destruct (decide (p.1 = y0)) as [Heq|Hne].
    + left. rewrite Heq, Z.sub_diag in H3. done.
    + right.
      replace (Z.to_nat (p.1 - y0)) with (S (Z.to_nat (p.1 - (y0 + 1)))) in H3
        by lia.
      split_and!; try done; lia.
Qed.

Lemma empties_row_sorted (y x0 : Z) (row : list cell) :
  StronglySorted row_major (empties_row y x0 row).
Proof.
  revert x0. induction row as [|val rest IH]; intros x0; [constructor|].
  simpl. destruct val as [c|]; [apply IH|].
  constructor; [apply IH|]. apply Forall_forall.
  intros p (H1 & H2 & _)%empties_row_spec. right. simpl. lia.
Qed.

Lemma empties_from_sorted (y0 : Z) (g : grid) :
  StronglySorted row_major (empties_from y0 g).
Proof.
  revert y0. induction g as [|row rest IH]; intros y0; [constructor|].
  simpl. apply StronglySorted_app_2.
  - intros p q (H1 & _)%empties_row_spec (H2 & _)%empties_from_spec.
    left. lia.
  - apply empties_row_sorted.
  - apply IH.
Qed.

Lemma row_major_sorted_NoDup (l : list (Z * Z)) :
  StronglySorted row_major l → NoDup l.
Proof.
  induction 1 as [|p l _ IH Hall]; constructor; [|done].
  intros Hin. rewrite Forall_forall in Hall. specialize (Hall p Hin).
  unfold row_major in Hall. lia.
Qed.

(** [g[a][b] = v] at a cell that exists, whatever the shape of the grid. *)
Lemma setcell_valid (g : grid) (a b : nat) (old v : cell) :
  cell_at g a b = Some old →
  ∃ g', setcell g (Z.of_nat a) (Z.of_nat b) v = Ok g'
    ∧ cell_at g' a b = Some v
    ∧ (∀ a' b', (a', b') ≠ (a, b) → cell_at g' a' b' = cell_at g a' b')
    ∧ count_empty g' = count_empty g - is_None old + is_None v.
Proof.
  intros (row & Hrow & Hold)%cell_at_Some.
  pose proof (lookup_lt_Some _ _ _ Hrow). pose proof (lookup_lt_Some _ _ _ Hold).
  unfold setcell. rewrite (getitem_nat _ _ _ Hrow).
  rewrite setitem_in by (unfold len; lia).
  rewrite setitem_in by (unfold len; lia). rewrite !Nat2Z.id.
  eexists. split_and!; [done| | |].
  - apply cell_at_Some. exists (<[b:=v]> row).
    split; by apply list_lookup_insert_eq.
  - intros a' b' Hne. unfold cell_at.
    destruct (decide (a' = a)) as [->|Hna].
    + rewrite list_lookup_insert_eq by done. rewrite Hrow. simpl.
      apply list_lookup_insert_ne. congruence.
    + by rewrite list_lookup_insert_ne.
  - unfold count_empty. rewrite (sumZ_insert _ _ _ _ _ Hrow).
    unfold count_none at 3. rewrite (sumZ_insert _ _ _ _ _ Hold).
    fold (count_none row). lia.
Qed.

Lemma fill_cells_spec (letters tajenka : pystr) (cs : list (Z * Z)) :
  ∀ (i : Z) (g : grid) (w : World),
  0 ≤ i → NoDup cs →
  (∀ p, p ∈ cs → 0 ≤ p.1 ∧ 0 ≤ p.2
                 ∧ cell_at g (Z.to_nat p.1) (Z.to_nat p.2) = Some None) →
  wp (fill_cells g letters tajenka i cs)
     (λ g' w', filled_by g g' letters tajenka i cs
               ∧ count_empty g' = count_empty g - len cs
               ∧ trace w' = trace w
               ∧ Z.of_nat (cursor (rng w')) =
                 Z.of_nat (cursor (rng w))
                 + Z.max 0 (i + len cs - Z.max i (len tajenka)))
     (λ e w', e = IndexError ∧ letters = [] ∧ len tajenka < i + len cs)
     w.
Proof.
  induction cs as [|[y x] rest IH]; intros i g w Hi Hnd Hvalid.
  { apply wp_ret.
    split_and!; [split; [intros j p Hj; done|done]|unfold len; simpl; lia|done
                |unfold len; simpl; lia]. }
  apply NoDup_cons in Hnd as [Hfresh Hnd].
  destruct (Hvalid (y, x)) as (Hy & Hx & Hold); [left|]. simpl in *.
  set (a := Z.to_nat y) in *. set (b := Z.to_nat x) in *.
  assert (∀ ch w1,
    (∀ c, tajenka !! Z.to_nat i = Some c → ch = c) →
    (len tajenka ≤ i → ch ∈ letters) →
    trace w1 = trace w →
    Z.of_nat (cursor (rng w1)) =
      Z.of_nat (cursor (rng w)) + (if i <? len tajenka then 0 else 1) →
    wp (g' ← lift (setcell g y x (Some ch));
        fill_cells g' letters tajenka (i + 1) rest)
       (λ g' w', filled_by g g' letters tajenka i ((y, x) :: rest)
                 ∧ count_empty g' = count_empty g - len ((y, x) :: rest)
                 ∧ trace w' = trace w
                 ∧ Z.of_nat (cursor (rng w')) =
                   Z.of_nat (cursor (rng w))
                   + Z.max 0 (i + len ((y, x) :: rest) - Z.max i (len tajenka)))
       (λ e w', e = IndexError ∧ letters = []
                ∧ len tajenka < i + len ((y, x) :: rest))
       w1) as Hrest.
  { intros ch w1 Hphrase Hletters Htr Hcur.
    destruct (setcell_valid g a b None (Some ch) Hold)
      as (g1 & Hset & Hnew & Hframe & Hcnt1).
    unfold a, b in Hset. rewrite !Z2Nat.id in Hset by lia.
    apply wp_bind, wp_lift. rewrite Hset.
    eapply wp_mono; [apply (IH (i + 1) g1 w1); [lia|done|]| |].
    - intros p Hp. destruct (Hvalid p) as (Hp1 & Hp2 & Hp3); [by right|].
      split_and!; try done. rewrite Hframe; [done|].
      intros [= E1 E2]. apply Hfresh. unfold a, b in *.
      destruct p as [p1 p2]. simpl in *.
      replace y with p1 by lia. replace x with p2 by lia. done.
    - intros g' w' ([Hcells Hother] & Hcnt' & Htr' & Hcur'). split_and!.
      + split.
        * intros [|j] p Hj.
          -- injection Hj as <-. simpl. exists ch. split_and!.
             ++ rewrite Hother; [done|]. fold a b.
                unfold a, b. rewrite !Z2Nat.id by lia. done.
             ++ rewrite Nat.add_0_r. done.
             ++ rewrite Z.add_0_r. done.
          -- destruct (Hcells j p Hj) as (c & Hc1 & Hc2 & Hc3).
             exists c. split_and!; try done.
             ++ intros c'. replace (Z.to_nat i + S j)%nat
                  with (Z.to_nat (i + 1) + j)%nat by lia. apply Hc2.
             ++ intros Hle. apply Hc3. lia.
        * intros a' b' Hnot. apply not_elem_of_cons in Hnot as [Hne Hnot].
          rewrite Hother by done. apply Hframe. intros [= -> ->].
          apply Hne. unfold a, b. rewrite !Z2Nat.id by lia. done.
      + rewrite Hcnt', Hcnt1. unfold len. cbn [is_None length]. lia.
      + congruence.
      + rewrite Hcur', Hcur. unfold len in *. simpl length.
        destruct (Z.ltb_spec i (Z.of_nat (length tajenka))); lia.
    - intros e w' (-> & -> & Hlt). split_and!; try done.
      unfold len in *. simpl length. lia. }
  cbn [fill_cells]. apply wp_bind. destruct (Z.ltb_spec i (len tajenka)) as [Hlt|Hge].
  - apply wp_lift. destruct (getitem_in tajenka i) as (ch & -> & Hch); [lia|].
    apply Hrest; try done.
    + intros c Hc. congruence.
    + lia.
    + simpl. lia.
  - apply wp_choice.
    + intros ->. split_and!; try done. unfold len in *. simpl length. lia.
    + intros ch Hch. apply Hrest; try done.
      * intros c Hc. apply lookup_lt_Some in Hc. unfold len in Hge. lia.
      * simpl. lia.
Qed.

(** A counted loop: [Inv i] holds before iteration [i]. *)
Lemma wp_for_seqZ {St} (Inv : Z → St → World → Prop) (E : exn → World → Prop)
    (body : Z → St → M St) (k : nat) :
  ∀ (m : Z) (s : St) (w : World),
  (∀ i s w, m ≤ i < m + Z.of_nat k → Inv i s w → wp (body i s) (Inv (i + 1)) E w) →
  Inv m s w →
  wp (for_each (seqZ m (Z.of_nat k)) body s) (Inv (m + Z.of_nat k)) E w.
Proof.
  induction k as [|k IH]; intros m s w Hbody HI.
  { simpl. apply wp_ret. by rewrite Z.add_0_r. }
  rewrite seqZ_cons by lia. cbn [for_each]. apply wp_bind.
  eapply wp_mono; [apply Hbody; [lia|done]| |done].
  intros s' w' HI'. replace (Z.pred (Z.of_nat (S k))) with (Z.of_nat k) by lia.
  replace (m + Z.of_nat (S k)) with (Z.succ m + Z.of_nat k) by lia.
  apply IH; [|by replace (Z.succ m) with (m + 1) by lia].
  intros i s'' w'' Hi. apply Hbody. lia.
Qed.

Lemma fill_random_step (n : nat) (g0 : grid) (alphabet : pystr) (w0 : World)
    (y x : Z) (g : grid) (w : World) :
  0 ≤ y < Z.of_nat n → 0 ≤ x < Z.of_nat n →
  scan_inv n g0 alphabet w0 y x g w →
  wp (c ← lift (getcell g y x);
      match c with
      | None => ch ← choice alphabet; lift (setcell g y x (Some ch))
      | Some _ => mret g
      end)
     (scan_inv n g0 alphabet w0 y (x + 1))
     (λ e _, e = IndexError ∧ alphabet = []) w.
Proof.
  intros Hy Hx (Hsq & Hcells & Htr & Hcur).
  destruct (getcell_in n g y x Hsq Hy Hx) as (c & Hget & Hc).
  destruct (Hcells (Z.to_nat y) (Z.to_nat x) ltac:(lia) ltac:(lia)) as [_ Hhere].
  rewrite Hc in Hhere. specialize (Hhere ltac:(unfold before; lia)).
  assert (∀ a b, before y (x + 1) a b ↔
                 before y x a b ∨ (a, b) = (Z.to_nat y, Z.to_nat x)) as Hbefore.
  { intros a b. unfold before. split.
    - intros [?|[? ?]]; [by auto|].
      destruct (decide (Z.of_nat b = x)); [right; f_equal; lia|left; right; lia].
    - intros [[?|[? ?]]|[= -> ->]]; lia. }
  apply wp_bind, wp_lift. rewrite Hget. destruct c as [c|].
  - apply wp_ret. split_and!; try done. intros a b Ha Hb.
    destruct (Hcells a b Ha Hb) as [Hin Hout]. rewrite Hbefore. split.
    + intros [?|[= -> ->]]; [by apply Hin|]. exists c. split; [done|by left].
    + intros Hnot. apply Hout. tauto.
  - apply wp_bind, wp_choice; [done|]. intros ch Hch. apply wp_lift.
    destruct (setcell_in n g y x (Some ch) Hsq Hy Hx)
      as (g' & old & -> & Hsq' & Hold & Hnew & Hframe & Hcnt).
    assert (old = None) as -> by congruence.
    split_and!; try done.
    + intros a b Ha Hb. destruct (Hcells a b Ha Hb) as [Hin Hout].
      rewrite Hbefore. split.
      * intros [Hb4|[= -> ->]].
        -- destruct (Hin Hb4) as (c & Hc1 & Hc2). exists c. split; [|done].
           rewrite Hframe; [done|]. intros [= -> ->]. unfold before in Hb4. lia.
        -- exists ch. split; [done|]. right. by split.
      * intros Hnot. rewrite Hframe; [apply Hout; tauto|].
        intros Heq. apply Hnot. by right.
    + simpl in *. lia.
Qed.

(** [fill_random] on a grid of side [n]: it raises only for an empty
    alphabet; otherwise every cell ends up with a letter (its own, or one of
    the alphabet where it was empty) and exactly one draw was made for each
    cell that was empty. *)
Lemma fill_random_spec (n : nat) (g0 : grid) (alphabet : pystr) (w0 : World) :
  square n g0 →
  wp (fill_random g0 alphabet)
     (λ g w, square n g
             ∧ (∀ a b, (a < n)%nat → (b < n)%nat → refilled g0 g alphabet a b)
             ∧ trace w = trace w0
             ∧ Z.of_nat (cursor (rng w)) + count_empty g
               = Z.of_nat (cursor (rng w0)) + count_empty g0)
     (λ e _, e = IndexError ∧ alphabet = []) w0.
Proof.
  intros Hsq. unfold fill_random, range.
  assert (len g0 = Z.of_nat n) as -> by (destruct Hsq; unfold len; lia).
  eapply wp_mono;
    [apply (wp_for_seqZ (λ y, scan_inv n g0 alphabet w0 y 0)
              (λ e _, e = IndexError ∧ alphabet = []))| |done].
  - intros y g w Hy Hinv.
    eapply wp_mono;
      [apply (wp_for_seqZ (λ x, scan_inv n g0 alphabet w0 y x)
                (λ e _, e = IndexError ∧ alphabet = []))| |done].
    + intros x g' w' Hx. apply fill_random_step; lia.
    + done.
    + intros g' w' (Hsq' & Hcells & Htr & Hcur). split_and!; try done.
      intros a b Ha Hb. destruct (Hcells a b Ha Hb) as [Hin Hout]. split.
      * intros Hb4. apply Hin. unfold before in *. lia.
      * intros Hb4. apply Hout. unfold before in *. lia.
  - split_and!; try done. intros a b Ha Hb. split; [unfold before; lia|done].
  - intros g w (Hsq' & Hcells & Htr & Hcur). split_and!; try done.
    intros a b Ha Hb. apply Hcells; try done. unfold before. lia.
Qed.

(* ===================================================================== *)
(** ** Cost of the trial loop *)
(* ===================================================================== *)

Lemma trial_loop_cost (fuel : nat) (n k : Z) (allowed : list direction)
    (g : grid) (w : pystr) :
  ∀ w0,
  wp (trial_loop fuel n k allowed g w)
     (λ r w', ∃ new,
        trace w' = new ++ trace w0
        ∧ cursor (rng w') = (cursor (rng w0) + 3 * length new)%nat
        ∧ match r with
          | None => length new = fuel ∧ rejected_only w new
          | Some _ => (length new ≤ fuel)%nat ∧
                      ∃ t rest, new = t :: rest ∧ t_word t = w
                                ∧ t_verdict t = Accepted ∧ rejected_only w rest
          end)
     (λ _ w', ∃ new,
        trace w' = new ++ trace w0
        ∧ (cursor (rng w') ≤ cursor (rng w0) + 3 * length new + 3)%nat
        ∧ (length new < fuel)%nat ∧ rejected_only w new)
     w0.
Proof.
  induction fuel as [|fuel IH]; intros w0.
  { apply wp_ret. exists []. split_and!; [done|simpl; lia|done|constructor]. }
  assert (∀ t w1, t_word t = w → t_verdict t ≠ Accepted →
    trace w1 = trace w0 → cursor (rng w1) = (cursor (rng w0) + 3)%nat →
    wp (log t;; trial_loop fuel n k allowed g w)
       (λ r w', ∃ new,
          trace w' = new ++ trace w0
          ∧ cursor (rng w') = (cursor (rng w0) + 3 * length new)%nat
          ∧ match r with
            | None => length new = S fuel ∧ rejected_only w new
            | Some _ => (length new ≤ S fuel)%nat ∧
                        ∃ t rest, new = t :: rest ∧ t_word t = w
                                  ∧ t_verdict t = Accepted ∧ rejected_only w rest
            end)
       (λ _ w', ∃ new,
          trace w' = new ++ trace w0
          ∧ (cursor (rng w') ≤ cursor (rng w0) + 3 * length new + 3)%nat
          ∧ (length new < S fuel)%nat ∧ rejected_only w new)
       w1) as Hretry.
  { intros t w1 Hw Hv Htr Hcur. apply wp_bind, wp_log.
    assert (rejected_only w [t]) as Ht by (by repeat constructor).
    eapply wp_mono; [apply IH| |].
    - intros r w' (new & Htr' & Hcur' & Hr). exists (new ++ [t]).
      simpl in Htr', Hcur'. rewrite length_app. simpl. split_and!.
      + rewrite Htr', Htr. by rewrite <- app_assoc.
      + lia.
      + destruct r as [g'|].
        * destruct Hr as (Hlen & t' & rest & -> & Hw' & Hv' & Hrest).
          split; [simpl in *; lia|]. exists t', (rest ++ [t]).
          split_and!; try done. by apply Forall_app.
        * destruct Hr as [Hlen Hrej]. split; [lia|]. by apply Forall_app.
    - intros e w' (new & Htr' & Hcur' & Hlen & Hrej). exists (new ++ [t]).
      simpl in Htr', Hcur'. rewrite length_app. simpl. split_and!.
      + rewrite Htr', Htr. by rewrite <- app_assoc.
      + lia.
      + lia.
      + by apply Forall_app. }
  assert (∀ w1, trace w1 = trace w0 →
    (cursor (rng w1) ≤ cursor (rng w0) + 3)%nat →
    ∃ new, trace w1 = new ++ trace w0
      ∧ (cursor (rng w1) ≤ cursor (rng w0) + 3 * length new + 3)%nat
      ∧ (length new < S fuel)%nat ∧ rejected_only w new) as Hraise.
  { intros w1 Htr Hcur. exists [].
    split_and!; [done|simpl; lia|simpl; lia|constructor]. }
  cbn [trial_loop]. apply wp_bind, wp_choice.
  { intros _. apply Hraise; [done|lia]. }
  intros d _. apply wp_bind, wp_randint.
  { intros _. apply Hraise; [done|simpl; lia]. }
  intros x _. apply wp_bind, wp_randint.
  { intros _. apply Hraise; [done|simpl; lia]. }
  intros y _. apply wp_bind, wp_lift.
  destruct (can_place g x y d.1.1 d.1.2 w) as [[|]|e];
    [|apply Hretry; [done|done|done|simpl; lia]|apply Hraise; [done|simpl; lia]].
  apply wp_bind, wp_lift.
  destruct (new_cells g x y d.1.1 d.1.2 w) as [m|e];
    [|apply Hraise; [done|simpl; lia]].
  destruct (bool_decide (k ≠ 0) && (count_empty g - m <? k));
    [apply Hretry; [done|done|done|simpl; lia]|].
  apply wp_bind, wp_lift.
  destruct (place_word g x y d.1.1 d.1.2 w) as [g'|e];
    [|apply Hraise; [done|simpl; lia]].
  apply wp_bind, wp_log, wp_ret.
  exists [mk_trial w d.1.1 d.1.2 x y g Accepted]. simpl. split_and!; try done; try lia.
  eexists _, []. split_and!; try done. constructor.
Qed.

Lemma trials_of_app (w : pystr) (T1 T2 : list trial) :
  trials_of w (T1 ++ T2) = (trials_of w T1 + trials_of w T2)%nat.
Proof. unfold trials_of. by rewrite filter_app, length_app. Qed.

Lemma trials_of_word (v w : pystr) (T : list trial) :
  Forall (λ t, t_word t = v) T →
  (trials_of w T ≤ length T)%nat ∧ (v ≠ w → trials_of w T = 0%nat).
Proof.
  unfold trials_of. split; [apply length_filter|]. intros Hne.
  induction H as [|t T Ht _ IH]; [done|].
  rewrite filter_cons_False by congruence. done.
Qed.

Lemma rejected_only_word (w : pystr) (T : list trial) :
  rejected_only w T → Forall (λ t, t_word t = w) T.
Proof. intros H. eapply Forall_impl; [exact H|]. simpl. tauto. Qed.

Lemma place_each_cost (n k : Z) (allowed : list direction) (pool : list pystr) :
  ∀ s w0,
  wp (place_each n k allowed pool s)
     (λ _ w', cost_bound n pool w0 w') (λ _ w', cost_bound n pool w0 w') w0.
Proof.
  unfold place_each.
  induction pool as [|v pool IH]; intros s w0.
  { apply wp_ret. exists []. unfold eligible.
    split_and!; [done|intros w; unfold trials_of; cbn; lia|constructor|cbn; lia|cbn; lia]. }
  assert (∀ w1 new1,
    trace w1 = new1 ++ trace w0 →
    Forall (λ t, t_word t = v) new1 →
    (len v ≤ n → (length new1 ≤ 1000)%nat
                 ∧ (cursor (rng w1) ≤ cursor (rng w0) + 3000)%nat) →
    (¬ len v ≤ n → new1 = [] ∧ cursor (rng w1) = cursor (rng w0)) →
    ∀ w', cost_bound n pool w1 w' → cost_bound n (v :: pool) w0 w') as Hglue.
  { intros w1 new1 Htr1 Hword1 Hfit Hskip w' (new & Htr & Hper & Hall & Hlen & Hcur).
    exists (new ++ new1). unfold eligible, occurrences in *.
    split_and!.
    - rewrite Htr, Htr1. by rewrite app_assoc.
    - intros w. rewrite trials_of_app. specialize (Hper w).
      destruct (trials_of_word v w new1 Hword1) as [Hle Hz].
      destruct (decide (v = w)) as [->|Hne].
      + rewrite filter_cons_True by done. cbn [length].
        destruct (decide (len w ≤ n)) as [Hw|Hw].
        * destruct (Hfit Hw). lia.
        * destruct (Hskip Hw) as [-> _]. cbn [length] in Hle. lia.
      + rewrite filter_cons_False by done. rewrite Hz by done. lia.
    - apply Forall_app. split; [done|].
      destruct (decide (len v ≤ n)) as [Hv|Hv].
      + eapply Forall_impl; [exact Hword1|]. cbn beta. by intros t ->.
      + destruct (Hskip Hv) as [-> _]. constructor.
    - rewrite length_app. destruct (decide (len v ≤ n)) as [Hv|Hv].
      + rewrite (filter_cons_True _ v pool) by done. cbn [length].
        destruct (Hfit Hv). lia.
      + rewrite (filter_cons_False _ v pool) by done.
        destruct (Hskip Hv) as [-> _]. cbn [length]. lia.
    - destruct (decide (len v ≤ n)) as [Hv|Hv].
      + rewrite (filter_cons_True _ v pool) by done. cbn [length].
        destruct (Hfit Hv). lia.
      + rewrite (filter_cons_False _ v pool) by done.
        destruct (Hskip Hv) as [_ Hc]. lia. }
  cbn [for_each]. apply wp_bind. destruct (Z.gtb_spec (len v) n) as [Hgt|Hle].
  { apply wp_ret.
    eapply wp_mono; [apply IH| |]; intros ? w'; apply (Hglue w0 []); try done;
      intros; lia. }
  apply wp_bind. eapply wp_mono; [apply trial_loop_cost| |].
  - intros r w1 (new1 & Htr1 & Hcur1 & Hr).
    assert (Forall (λ t, t_word t = v) new1 ∧ (length new1 ≤ 1000)%nat) as [Hword1 Hlen1].
    { destruct r as [g'|].
      - destruct Hr as (Hlen & t & rest & -> & Hw & _ & Hrest).
        split; [|done]. constructor; [done|by apply rejected_only_word].
      - destruct Hr as [Hlen Hrej]. split; [by apply rejected_only_word|lia]. }
    destruct r as [g'|]; apply wp_ret;
      (eapply wp_mono; [apply IH| |]; intros ? w'; apply (Hglue w1 new1);
       try done; intros; lia).
  - intros e w1 (new1 & Htr1 & Hcur1 & Hlen1 & Hrej).
    apply (Hglue w1 new1);
      [done|by apply rejected_only_word|intros _; split; lia|intros; lia|].
    exists []. unfold eligible.
    split_and!; [done|intros w; unfold trials_of; cbn; lia|constructor|cbn [length]; lia|lia].
Qed.

(* ===================================================================== *)
(** ** The grid only grows *)
(* ===================================================================== *)

Lemma fill_random_extends (n : nat) (g : grid) (alphabet : pystr) w1 final w2 :
  square n g → fill_random g alphabet w1 = (Ok final, w2) → extends g final.
Proof.
  intros Hsq Hrun.
  pose proof (wp_run _ _ _ _ _ _ (fill_random_spec n g alphabet w1 Hsq) Hrun)
    as (_ & Hcells & _). simpl in Hcells.
  intros a b c Hc. destruct (cell_at_lt _ _ _ _ _ Hsq Hc) as [Ha Hb].
  destruct (Hcells a b Ha Hb) as (c' & Hc' & Hwas). exists (Some c').
  split; [done|]. intros Hne. destruct Hwas as [Hwas|[Hwas _]]; congruence.
Qed.

Lemma empties_of_valid (g : grid) (p : Z * Z) :
  p ∈ empties_of g ↔
  0 ≤ p.1 ∧ 0 ≤ p.2 ∧ cell_at g (Z.to_nat p.1) (Z.to_nat p.2) = Some None.
Proof. unfold empties_of. rewrite empties_from_spec. by rewrite Z.sub_0_r. Qed.

Lemma fill_with_tajenka_spec (U : Unicode) (g : grid) (alphabet tajenka : pystr) w1 :
  wp (fill_with_tajenka U g alphabet tajenka)
     (λ g' w', filled_by g g' (letters_random U alphabet) tajenka 0 (empties_of g)
               ∧ count_empty g' = count_empty g - len (empties_of g)
               ∧ trace w' = trace w1
               ∧ Z.of_nat (cursor (rng w')) =
                 Z.of_nat (cursor (rng w1))
                 + Z.max 0 (len (empties_of g) - len tajenka))
     (λ e w', e = IndexError ∧ letters_random U alphabet = []
              ∧ len tajenka < len (empties_of g))
     w1.
Proof.
  unfold fill_with_tajenka.
  eapply wp_mono; [apply fill_cells_spec; [done| |]| |].
  - eapply row_major_sorted_NoDup, empties_from_sorted.
  - intros p (H1 & H2 & H3)%empties_of_valid. split_and!; try done.
  - intros g' w' (Hf & Hcnt & Htr & Hcur). split_and!; try done.
    rewrite Hcur. unfold len. lia.
  - intros e w' (-> & Hl & Hlt). split_and!; try done.
Qed.

Lemma fill_with_tajenka_extends (U : Unicode) (g : grid)
    (alphabet tajenka : pystr) w1 final w2 :
  fill_with_tajenka U g alphabet tajenka w1 = (Ok final, w2) → extends g final.
Proof.
  intros Hrun.
  pose proof (wp_run _ _ _ _ _ _ (fill_with_tajenka_spec U g alphabet tajenka w1) Hrun)
    as ([Hcells Hother] & _). simpl in *.
  intros a b c Hc.
  destruct (decide ((Z.of_nat a, Z.of_nat b) ∈ empties_of g)) as [Hin|Hout].
  - apply list_elem_of_lookup in Hin as [j Hj].
    destruct (Hcells j _ Hj) as (ch & Hch & _). simpl in Hch.
    rewrite !Nat2Z.id in Hch. exists (Some ch). split; [done|].
    apply list_elem_of_lookup_2, empties_of_valid in Hj as (_ & _ & Hnone).
    simpl in Hnone. rewrite !Nat2Z.id in Hnone. congruence.
  - exists c. split; [|done]. by rewrite Hother.
Qed.

Lemma finished_extends (n : nat) (g : grid) w1 final :
  square n g → finished g w1 final → extends g final.
Proof.
  intros Hsq [|alphabet final' w2 Hrun|U alphabet tajenka final' w2 Hrun].
  - apply extends_refl.
  - by eapply fill_random_extends.
  - by eapply fill_with_tajenka_extends.
Qed.

Lemma history_chain (n k : Z) (allowed : list direction) g placed T :
  (∀ d, d ∈ allowed → d ∈ DIRECTIONS) →
  history n k allowed g placed T → chain (make_empty n) T g.
Proof.
  intros Hallowed.
  induction 1 as [|g placed T w d x y Hh IH Hd Hcan
                  |g placed T w d x y m Hh IH Hd Hcan Hnew Hk Hlt
                  |g placed T w d x y m g' Hh IH Hd Hcan Hnew Hk Hplace];
    try done.
  split; [|done]. cbn [t_verdict mk_trial].
  pose proof (history_square _ _ _ Hallowed _ _ _ Hh) as Hsq.
  destruct (accepted_step n allowed Hallowed g w d x y g' Hsq (proj1 Hd) Hcan Hplace)
    as (m' & _ & Hsq' & _ & _ & _ & Hread).
  destruct (can_place_square _ g x y d.1.1 d.1.2 w Hsq) as (b & Hb & Hiff).
  assert (b = true) as -> by congruence.
  split_and!; try done. intros i ch Hi. unfold t_row, t_col. simpl. split.
  - by apply (proj1 Hiff eq_refl i ch Hi).
  - by apply Hread.
Qed.

(* ===================================================================== *)
(** ** Runs of [greedy_place] *)
(* ===================================================================== *)

Lemma greedy_place_run words n diagonals backwards key k r res w1 :
  greedy_place words n diagonals backwards key k (start r) = (res, w1) →
  ∃ g placed,
    history n k (pick_allowed diagonals backwards) g placed (trace w1)
    ∧ match res with
      | Ok s => s = (g, placed)
      | Raise _ => n = 0 ∧ [] ∈ words
      end.
Proof.
  intros Hrun.
  pose proof (wp_run _ _ _ _ _ _
    (greedy_place_history words n diagonals backwards key k r) Hrun) as H.
  destruct res as [[g placed]|e].
  - by exists g, placed.
  - destruct H as ((g & placed & Hh) & Hn & Hw). by exists g, placed.
Qed.

Lemma read_along_word (g : grid) (x y dx dy : Z) (w : pystr) :
  (∀ (i : nat) ch, w !! i = Some ch →
     getcell g (y + dy * Z.of_nat i) (x + dx * Z.of_nat i) = Ok (Some ch)) →
  read_along g x y dx dy (len w) = (λ ch, Ok (Some ch)) <$> w.
Proof.
  intros Hall. apply list_eq. intros i. unfold read_along, range, len.
  rewrite !list_lookup_fmap. destruct (w !! i) as [ch|] eqn:Hi.
  - pose proof (lookup_lt_Some _ _ _ Hi).
    rewrite lookup_seqZ_lt by lia. simpl. f_equal. by apply Hall.
  - apply lookup_ge_None in Hi. rewrite lookup_seqZ_ge by lia. done.
Qed.

(** C2. Along a run of [greedy_place] and the cell filling after it, a
    letter once in the grid stays: the grid changes only by the write of an
    accepted trial, which happens after [can_place] has approved all its
    cells, runs to its end and puts each letter on a cell that was empty or
    held the same letter; every grid seen during the run is extended by the
    later ones, by the returned grid and by the filled grid; and two placed
    words that share a cell agree on its letter. *)
Theorem no_conflicting_overwrite
    words n diagonals backwards key k r g placed w1 final :
  greedy_place words n diagonals backwards key k (start r) = (Ok (g, placed), w1) →
  finished g w1 final →
  chain (make_empty n) (trace w1) g
  ∧ (∀ (i j : nat) ti tj, (i ≤ j)%nat →
       trace w1 !! i = Some ti → trace w1 !! j = Some tj →
       extends (t_grid tj) (t_grid ti))
  ∧ (∀ t, t ∈ trace w1 → extends (t_grid t) g)
  ∧ extends g final
  ∧ (∀ t1 t2 (i j : nat) c1 c2,
       t1 ∈ trace w1 → t2 ∈ trace w1 →
       t_verdict t1 = Accepted → t_verdict t2 = Accepted →
       t_word t1 !! i = Some c1 → t_word t2 !! j = Some c2 →
       t_row t1 i = t_row t2 j → t_col t1 i = t_col t2 j →
       c1 = c2).
Proof.
  intros Hrun Hfin.
  destruct (greedy_place_run _ _ _ _ _ _ _ _ _ Hrun) as (g' & placed' & Hh & [= <- <-]).
  pose proof (pick_allowed_sub diagonals backwards) as Hsub.
  pose proof (history_square _ _ _ Hsub _ _ _ Hh) as Hsq.
  split_and!.
  - by eapply history_chain.
  - by eapply history_monotone.
  - by eapply history_extends.
  - by eapply finished_extends.
  - intros t1 t2 i j c1 c2 Ht1 Ht2 Hv1 Hv2 Hi Hj Hrow Hcol.
    destruct (history_readback _ _ _ Hsub _ _ _ Hh t1 Ht1 Hv1 i c1 Hi) as [_ H1].
    destruct (history_readback _ _ _ Hsub _ _ _ Hh t2 Ht2 Hv2 j c2 Hj) as [_ H2].
    congruence.
Qed.

(** C6. Every accepted placement can be read back: along its direction from
    its origin, the final grid (the returned grid, or the grid after either
    filler) shows exactly the letters of the word; the returned list is the
    list of the accepted words in order of placement. *)
Theorem placed_words_read_back
    words n diagonals backwards key k r g placed w1 final :
  greedy_place words n diagonals backwards key k (start r) = (Ok (g, placed), w1) →
  finished g w1 final →
  placed = accepted_words (trace w1)
  ∧ ∀ t, t ∈ trace w1 → t_verdict t = Accepted →
      read_along final (t_x t) (t_y t) (t_dx t) (t_dy t) (len (t_word t))
      = (λ ch, Ok (Some ch)) <$> t_word t.
Proof.
  intros Hrun Hfin.
  destruct (greedy_place_run _ _ _ _ _ _ _ _ _ Hrun) as (g' & placed' & Hh & [= <- <-]).
  pose proof (pick_allowed_sub diagonals backwards) as Hsub.
  pose proof (history_square _ _ _ Hsub _ _ _ Hh) as Hsq.
  split; [by eapply history_placed|].
  intros t Ht Hv. apply read_along_word. intros i ch Hi.
  destruct (history_readback _ _ _ Hsub _ _ _ Hh t Ht Hv i ch Hi) as [[Hx Hy] Hget].
  eapply extends_read; [by eapply finished_extends|lia|lia|done].
Qed.

Lemma demo_run :
  greedy_place demo_words 5 true true [] 0 (start demo)
  = (Ok (demo_grid, demo_words), demo_world).
Proof. vm_compute. reflexivity. Qed.

Lemma demo_finished : finished demo_grid demo_world demo_filled.
Proof.
  apply (fin_random _ _ (str "AB") _
           (fill_random demo_grid (str "AB") demo_world).2).
  vm_compute. reflexivity.
Qed.

Lemma no_conflicting_overwrite_witness :
  greedy_place demo_words 5 true true [] 0 (start demo)
  = (Ok (demo_grid, demo_words), demo_world)
  ∧ finished demo_grid demo_world demo_filled
  ∧ chain (make_empty 5) (trace demo_world) demo_grid
  ∧ (∀ t, t ∈ trace demo_world → extends (t_grid t) demo_grid)
  ∧ extends demo_grid demo_filled.
Proof.
  pose proof (no_conflicting_overwrite demo_words 5 true true [] 0 demo
                demo_grid demo_words demo_world demo_filled
                demo_run demo_finished) as (H1 & _ & H3 & H4 & _).
  split; [exact demo_run|]. split; [exact demo_finished|].
  exact (conj H1 (conj H3 H4)).
Defined.

Lemma placed_words_read_back_witness :
  greedy_place demo_words 5 true true [] 0 (start demo)
  = (Ok (demo_grid, demo_words), demo_world)
  ∧ finished demo_grid demo_world demo_filled
  ∧ demo_words = accepted_words (trace demo_world)
  ∧ ∀ t, t ∈ trace demo_world → t_verdict t = Accepted →
      read_along demo_filled (t_x t) (t_y t) (t_dx t) (t_dy t) (len (t_word t))
      = (λ ch, Ok (Some ch)) <$> t_word t.
Proof.
  split; [exact demo_run|]. split; [exact demo_finished|].
  exact (placed_words_read_back demo_words 5 true true [] 0 demo
           demo_grid demo_words demo_world demo_filled demo_run demo_finished).
Defined.

(* ===================================================================== *)
(** ** Reserved cells *)
(* ===================================================================== *)

Lemma sumZ_replicate {A} (f : A → Z) (m : nat) (a : A) :
  sumZ f (replicate m a) = Z.of_nat m * f a.
Proof.
  induction m as [|m IH]; [done|]. unfold sumZ in *. cbn [replicate foldr].
  rewrite IH. lia.
Qed.

(** The empty grid of side [n] has [n * n] empty cells (none for [n < 0]). *)
Lemma count_empty_make_empty (n : Z) :
  count_empty (make_empty n) = Z.max 0 n * Z.max 0 n.
Proof.
  unfold count_empty, make_empty, count_none. rewrite !sumZ_replicate.
  cbn [is_None]. lia.
Qed.

(** The empty cells of a grid are at most its cells. *)
Lemma count_none_le (row : list (option N)) : count_none row ≤ len row.
Proof.
  unfold count_none, len. induction row as [|c row IH]; [done|].
  cbn [sumZ foldr length]. pose proof (is_None_range c).
  unfold sumZ in IH. lia.
Qed.

Lemma count_empty_le (n : nat) (g : grid) :
  square n g → count_empty g ≤ Z.of_nat n * Z.of_nat n.
Proof.
  intros [Hlen Hrows]. subst n. unfold count_empty.
  assert (∀ m l, Forall (λ row : list (option N), length row = m) l →
            sumZ count_none l ≤ Z.of_nat (length l) * Z.of_nat m) as H.
  { intros m l Hl. induction Hl as [|row l Hrow _ IH]; [done|].
    cbn [sumZ foldr length]. unfold sumZ in IH.
    pose proof (count_none_le row). unfold len in *. nia. }
  by apply H.
Qed.

(** What one run of the trial loop adds to the trace. *)
Lemma trial_loop_segment (fuel : nat) (n k : Z) (allowed : list direction)
    (g : grid) (w : pystr) :
  ∀ w0,
  wp (trial_loop fuel n k allowed g w)
     (λ r w', ∃ new, trace w' = new ++ trace w0 ∧ one_loop fuel g w r new)
     (λ _ _, True) w0.
Proof.
  induction fuel as [|fuel IH]; intros w0.
  { apply wp_ret. exists []. by repeat split. }
  assert (∀ t w1, t_word t = w → t_grid t = g → t_verdict t ≠ Accepted →
    trace w1 = trace w0 →
    wp (log t;; trial_loop fuel n k allowed g w)
       (λ r w', ∃ new, trace w' = new ++ trace w0 ∧ one_loop (S fuel) g w r new)
       (λ _ _, True) w1) as Hretry.
  { intros t w1 Hw Hg Hv Htr. apply wp_bind, wp_log.
    eapply wp_mono; [apply IH| |done].
    intros r w' (new & Htr' & Hall & Hr). exists (new ++ [t]).
    cbn in Htr'. split; [rewrite Htr', Htr; by rewrite <- app_assoc|].
    split; [apply Forall_app; split; [done|by repeat constructor]|].
    destruct r as [g'|].
    - destruct Hr as (t' & rest & -> & Hv' & Hrest). exists t', (rest ++ [t]).
      split_and!; [done|done|]. apply Forall_app. split; [done|by repeat constructor].
    - destruct Hr as [Hlen Hrej]. split; [rewrite length_app; cbn; lia|].
      apply Forall_app. split; [done|by repeat constructor]. }
  cbn [trial_loop]. apply wp_bind, wp_choice; [done|].
  intros d _. apply wp_bind, wp_randint; [done|].
  intros x _. apply wp_bind, wp_randint; [done|].
  intros y _. apply wp_bind, wp_lift.
  destruct (can_place g x y d.1.1 d.1.2 w) as [[|]|e];
    [|by apply Hretry|done].
  apply wp_bind, wp_lift.
  destruct (new_cells g x y d.1.1 d.1.2 w) as [m|e]; [|done].
  destruct (bool_decide (k ≠ 0) && (count_empty g - m <? k));
    [by apply Hretry|].
  apply wp_bind, wp_lift.
  destruct (place_word g x y d.1.1 d.1.2 w) as [g'|e]; [|done].
  apply wp_bind, wp_log, wp_ret.
  exists [mk_trial w d.1.1 d.1.2 x y g Accepted]. split; [done|].
  split; [by repeat constructor|]. eexists _, []. by split_and!.
Qed.

(** The trials of one more loop keep [reserve_retried]. *)
Lemma reserve_retried_app (cap : nat) (g : grid) (w : pystr) (r : option grid)
    (new T : list trial) :
  one_loop cap g w r new → reserve_retried cap T → reserve_retried cap (new ++ T).
Proof.
  intros [Hall Hr] HT i t Hi Hv.
  destruct (decide (i < length new)%nat) as [Hlt|Hge].
  - rewrite lookup_app_l in Hi by done.
    rewrite Forall_lookup in Hall. destruct (Hall i t Hi) as [Hw Hg].
    destruct i as [|j].
    + right. destruct r as [g'|].
      { destruct Hr as (t' & rest & -> & Hv' & _). injection Hi as ->. congruence. }
      destruct Hr as [Hlen Hrej]. exists t. split; [by rewrite lookup_app_l|].
      intros j Hj. destruct (lookup_lt_is_Some_2 new j) as [tj Htj]; [lia|].
      exists tj. rewrite Nat.add_0_l, lookup_app_l by lia.
      destruct (Hall j tj Htj) as [Hwj Hgj]. rewrite Forall_lookup in Hrej.
      split_and!; [done|congruence|congruence|by eapply Hrej].
    + left. destruct (lookup_lt_is_Some_2 new j) as [t' Ht']; [lia|].
      destruct (Hall j t' Ht') as [Hw' Hg'].
      exists j, t, t'. rewrite !lookup_app_l by lia.
      split_and!; [done|done|done|congruence|congruence].
  - rewrite lookup_app_r in Hi by lia.
    destruct (HT _ t Hi Hv) as [(j & t1 & t' & Hij & Hi1 & Hj & Hw & Hg)
                               |(t1 & Hi1 & Hrun)].
    + left. exists (length new + j)%nat, t1, t'.
      rewrite !lookup_app_r by lia.
      replace (length new + j - length new)%nat with j by lia.
      split_and!; [lia|done|done|done|done].
    + right. exists t1. rewrite lookup_app_r by lia. split; [done|].
      intros j Hj. destruct (Hrun j Hj) as (tj & Htj & H).
      exists tj. rewrite lookup_app_r by lia.
      replace (i + j - length new)%nat with (i - length new + j)%nat by lia.
      done.
Qed.

Lemma place_each_retried (fuel : nat) (n k : Z) (allowed : list direction)
    (pool : list pystr) :
  ∀ s w0, reserve_retried fuel (trace w0) →
  wp (for_each pool (λ w s,
        if len w >? n then mret s
        else
          r ← trial_loop fuel n k allowed s.1 w;
          match r with
          | Some g' => mret (g', s.2 ++ [w])
          | None => mret s
          end) s)
     (λ _ w', reserve_retried fuel (trace w')) (λ _ _, True) w0.
Proof.
  intros s w0 H0.
  apply (wp_for_each (λ _ w', reserve_retried fuel (trace w'))); [|done].
  intros v s' w _ Hinv. destruct (len v >? n); [by apply wp_ret|].
  apply wp_bind. eapply wp_mono; [apply trial_loop_segment| |done].
  intros r w' (new & Htr & Hloop).
  assert (reserve_retried fuel (trace w')) as Hinv'
    by (rewrite Htr; by eapply reserve_retried_app).
  destruct r; by apply wp_ret.
Qed.

Lemma greedy_place_retried words n diagonals backwards key k r g placed w1 :
  greedy_place words n diagonals backwards key k (start r) = (Ok (g, placed), w1) →
  reserve_retried 1000 (trace w1).
Proof.
  intros Hrun. unfold greedy_place, mbind, M_bind in Hrun.
  pose proof (wp_shuffle (sort_by_len_desc words) (λ _ _, False) (start r)) as Hsh.
  unfold wp in Hsh.
  destruct (shuffle (sort_by_len_desc words) (start r)) as [[pool|e] w']; [|done].
  destruct Hsh as (_ & Htr & _).
  assert (reserve_retried 1000 (trace w')) as H0.
  { rewrite Htr. intros i t Hi. unfold start in Hi. cbn [trace] in Hi.
    by rewrite lookup_nil in Hi. }
  exact (wp_run _ _ _ _ _ _
    (place_each_retried 1000 n k (pick_allowed diagonals backwards) pool
       (make_empty n, []) w' H0) Hrun).
Qed.

(** Against C3 as stated: a run with a one-letter word on the grid of side
    1 and two reserved cells; every trial is rejected, and the single cell
    of the grid is all that remains empty. *)
Lemma reserve_larger_than_grid :
  greedy_place [str "A"] 1 true true [] 2 (start zeros)
  = (Ok ([[None]], []), (greedy_place [str "A"] 1 true true [] 2 (start zeros)).2)
  ∧ 0 < 2 ∧ count_empty [[None]] < 2.
Proof. split; [vm_compute; reflexivity|]. split; [lia|]. vm_compute. reflexivity. Qed.

(** C3 (amended). With [k = tajenka_len > 0] reserved cells, the grid
    returned by [greedy_place] has at least [min k c] empty cells, where
    [c = max 0 n * max 0 n] is the number of its cells: at least [k]
    whenever the grid has [k] cells at all ([0 <= n], [k <= n*n]) or some
    word was placed; when [k] exceeds [c] no word is placed and all [c]
    cells stay empty.  The reserve is checked in every trial: a trial
    recorded as [Reserved] had passed [can_place] and would have left fewer
    than [k] empty cells, and wrote nothing; an accepted one leaves at least
    [k].  After a [Reserved] trial the loop goes on: the next trial is for
    the same word on the same grid, unless that trial was the last of 1000
    trials of the word on that grid, none accepted. *)
Theorem reserve_kept words n diagonals backwards key k r g placed w1 :
  greedy_place words n diagonals backwards key k (start r) = (Ok (g, placed), w1) →
  0 < k →
  Z.min k (Z.max 0 n * Z.max 0 n) ≤ count_empty g
  ∧ (0 ≤ n → k ≤ n * n → k ≤ count_empty g)
  ∧ (placed ≠ [] → k ≤ count_empty g)
  ∧ (Z.max 0 n * Z.max 0 n < k →
     placed = [] ∧ g = make_empty n
     ∧ count_empty g = Z.max 0 n * Z.max 0 n)
  ∧ Forall (trial_ok n k (pick_allowed diagonals backwards)) (trace w1)
  ∧ chain (make_empty n) (trace w1) g
  ∧ reserve_retried 1000 (trace w1).
Proof.
  intros Hrun Hk.
  destruct (greedy_place_run _ _ _ _ _ _ _ _ _ Hrun) as (g' & placed' & Hh & [= <- <-]).
  pose proof (pick_allowed_sub diagonals backwards) as Hsub.
  pose proof (history_reserve _ _ _ Hsub _ _ _ Hh) as Hres.
  pose proof (count_empty_make_empty n) as Hcells.
  split_and!.
  - destruct Hres as [[-> _]|Hres]; [lia|]. specialize (Hres ltac:(lia)). lia.
  - intros Hn Hkn. destruct Hres as [[-> _]|Hres]; [|apply Hres; lia].
    rewrite Hcells. replace (Z.max 0 n) with n by lia. done.
  - intros Hne. destruct Hres as [[_ ->]|Hres]; [done|apply Hres; lia].
  - intros Hbig. destruct Hres as [[-> ->]|Hres]; [done|].
    specialize (Hres ltac:(lia)).
    pose proof (count_empty_le _ _ (history_square _ _ _ Hsub _ _ _ Hh)). lia.
  - by eapply history_trials.
  - by eapply history_chain.
  - by eapply greedy_place_retried.
Qed.

Lemma reserve_kept_witness :
  greedy_place demo_words 3 false false [] 5 (start halves)
  = (Ok ([ [None; None; None]; [Some 68; Some 79; Some 71]; [None; None; None] ]%N,
         [str "DOG"]),
     (greedy_place demo_words 3 false false [] 5 (start halves)).2)
  ∧ 0 < 5
  ∧ 5 ≤ count_empty
         [ [None; None; None]; [Some 68; Some 79; Some 71]; [None; None; None] ]%N.
Proof.
  assert (greedy_place demo_words 3 false false [] 5 (start halves)
    = (Ok ([ [None; None; None]; [Some 68; Some 79; Some 71]; [None; None; None] ]%N,
           [str "DOG"]),
       (greedy_place demo_words 3 false false [] 5 (start halves)).2)) as Hrun
    by (vm_compute; reflexivity).
  split; [exact Hrun|]. split; [lia|].
  pose proof (reserve_kept demo_words 3 false false [] 5 halves _ _ _ Hrun
                ltac:(lia)) as (_ & H & _).
  apply H; lia.
Defined.

(* ===================================================================== *)
(** ** Words longer than the grid; the cap on trials *)
(* ===================================================================== *)

(** A pool of words that are all too long is passed over: no draw, no
    record, no change of state. *)
Lemma place_each_skip (n k : Z) (allowed : list direction) (pool : list pystr) s w :
  Forall (λ v, n < len v) pool → place_each n k allowed pool s w = (Ok s, w).
Proof.
  unfold place_each. induction 1 as [|v pool Hv _ IH]; [done|].
  cbn [for_each]. rewrite (proj2 (Z.gtb_lt (len v) n)) by lia.
  unfold mbind, M_bind, mret, M_ret in *. exact IH.
Qed.

Lemma history_lengths (n k : Z) (allowed : list direction) g placed T :
  history n k allowed g placed T →
  Forall (λ t, len (t_word t) ≤ n) T ∧ Forall (λ w, len w ≤ n) placed.
Proof.
  induction 1 as [|g placed T w d x y Hh [IH1 IH2] Hd
                  |g placed T w d x y m Hh [IH1 IH2] Hd
                  |g placed T w d x y m g' Hh [IH1 IH2] Hd];
    try (split; [constructor; [apply Hd|done]|done]).
  - split; constructor.
  - split; [constructor; [apply Hd|done]|]. apply Forall_app. split; [done|].
    constructor; [apply Hd|constructor].
Qed.

(** C7. [greedy_place] passes over every word longer than [n]: no trial is
    ever made for such a word, none is in the returned list, and an error
    (possible only for the empty word on the grid of side 0) never comes from
    one; when all words are longer than [n] (a single long word, say) the run
    returns the empty list and the untouched empty grid, having made no draw
    besides those of the shuffle. *)
Theorem long_words_skipped words n diagonals backwards key k r res w1 :
  greedy_place words n diagonals backwards key k (start r) = (res, w1) →
  Forall (λ t, len (t_word t) ≤ n) (trace w1)
  ∧ (∀ g placed, res = Ok (g, placed) → Forall (λ w, len w ≤ n) placed)
  ∧ (∀ e, res = Raise e → n = 0 ∧ [] ∈ words)
  ∧ (Forall (λ w, n < len w) words →
       res = Ok (make_empty n, []) ∧ trace w1 = []
       ∧ cursor (rng w1) = (cursor r + (length words - 1))%nat).
Proof.
  intros Hrun.
  destruct (greedy_place_run _ _ _ _ _ _ _ _ _ Hrun) as (g' & placed' & Hh & Hres).
  destruct (history_lengths _ _ _ _ _ _ Hh) as [HT Hplaced].
  split_and!; try done.
  - intros g placed ->. by injection Hres as <- <-.
  - intros e ->. done.
  - intros Hlong. unfold greedy_place, mbind, M_bind in Hrun.
    pose proof (wp_shuffle (sort_by_len_desc words) (λ _ _, False) (start r)) as Hsh.
    unfold wp in Hsh.
    destruct (shuffle (sort_by_len_desc words) (start r)) as [[pool|e] w'];
      [|done].
    destruct Hsh as (Hperm & Htr & Hcur).
    rewrite place_each_skip in Hrun.
    + injection Hrun as <- <-. split_and!; try done.
      rewrite Hcur. cbn [start rng cursor].
      by rewrite (Permutation_length (sort_by_len_desc_perm words)).
    + rewrite Hperm, sort_by_len_desc_perm. done.
Qed.

Lemma long_words_skipped_witness :
  greedy_place [str "ELEPHANT"] 3 true true [] 0 (start demo)
  = (Ok (make_empty 3, []), start demo)
  ∧ Forall (λ w, 3 < len w) [str "ELEPHANT"]
  ∧ Ok (make_empty 3, ([] : list (list N))) = Ok (make_empty 3, [])
  ∧ trace (start demo) = [].
Proof.
  assert (greedy_place [str "ELEPHANT"] 3 true true [] 0 (start demo)
          = (Ok (make_empty 3, []), start demo)) as Hrun
    by (vm_compute; reflexivity).
  assert (Forall (λ w, 3 < len w) [str "ELEPHANT"]) as Hlong
    by (constructor; [vm_compute; reflexivity|constructor]).
  split; [exact Hrun|]. split; [exact Hlong|].
  pose proof (long_words_skipped _ _ _ _ _ _ _ _ _ Hrun) as (_ & _ & _ & H).
  destruct (H Hlong) as (H1 & H2 & _). exact (conj H1 H2).
Defined.

(** The whole run: at most 1000 trials for each occurrence of a word, and
    three draws for each trial on top of those of the shuffle. *)
Lemma greedy_place_cost words n diagonals backwards key k r :
  wp (greedy_place words n diagonals backwards key k)
     (λ _ w', run_cost words n r w') (λ _ w', run_cost words n r w') (start r).
Proof.
  unfold greedy_place. apply wp_bind.
  eapply (wp_mono _ _ _ (λ _ _, False)); [apply wp_shuffle| |done].
  intros pool w' (Hperm & Htr & Hcur).
  rewrite (Permutation_length (sort_by_len_desc_perm words)) in Hcur.
  assert (pool ≡ₚ words) as Hp by (by rewrite Hperm, sort_by_len_desc_perm).
  assert (∀ w'', cost_bound n pool w' w'' → run_cost words n r w'') as Hglue.
  { intros w'' (new & Htr' & Hper & Hall & Hlen & Hc).
    assert (eligible n pool = eligible n words) as Hel
      by (unfold eligible; by rewrite Hp).
    assert (∀ w, occurrences w pool = occurrences w words) as Hocc
      by (intros w; unfold occurrences; by rewrite Hp).
    rewrite Hel in *. cbn [start rng cursor trace] in *.
    rewrite Htr, app_nil_r in Htr'. subst new. split_and!.
    - intros w. rewrite <- Hocc. apply Hper.
    - done.
    - lia. }
  eapply wp_mono; [apply place_each_cost| |]; intros ? w''; apply Hglue.
Qed.

(** The trial loop ends within its [fuel] iterations; it records trials of
    its word only, and when it gives up all [fuel] of them were rejected. *)
Lemma trial_loop_bounded (fuel : nat) (n k : Z) (allowed : list direction)
    (g : grid) (w : pystr) (world : World) :
  ∃ res world' new,
    trial_loop fuel n k allowed g w world = (res, world')
    ∧ trace world' = new ++ trace world
    ∧ (length new ≤ fuel)%nat
    ∧ Forall (λ t, t_word t = w) new
    ∧ (res = Ok None →
       length new = fuel ∧ Forall (λ t, t_verdict t ≠ Accepted) new).
Proof.
  pose proof (trial_loop_cost fuel n k allowed g w world) as Hcost.
  unfold wp in Hcost.
  destruct (trial_loop fuel n k allowed g w world) as [[[g'|]|e] world'].
  - destruct Hcost as (new & Htr & _ & Hlen & t & rest & -> & Hw & _ & Hrest).
    exists (Ok (Some g')), world', (t :: rest).
    split_and!; [done|done|done| |done].
    constructor; [done|by apply rejected_only_word].
  - destruct Hcost as (new & Htr & _ & Hlen & Hrej).
    exists (Ok None), world', new.
    split_and!; [done|done|lia|by apply rejected_only_word|].
    intros _. split; [done|]. eapply Forall_impl; [exact Hrej|].
    cbn beta. tauto.
  - destruct Hcost as (new & Htr & _ & Hlen & Hrej).
    exists (Raise e), world', new.
    split_and!; [done|done|lia|by apply rejected_only_word|done].
Qed.

(** C8. The trial loop of one word ends after at most 1000 trials, and
    when all of them fail it returns normally with nothing placed.
    [greedy_place] returns (a value or an exception) for every input, after
    at most 1000 trials for each occurrence of a word in the list and three
    draws for each trial; a word none of whose trials was accepted is not in
    the returned list; and unless the grid has side 0 and the empty word is
    in the list, the run returns without exception. *)
Theorem trial_cap words n diagonals backwards key k r :
  (∀ g w world, ∃ res world' new,
     trial_loop 1000 n k (pick_allowed diagonals backwards) g w world
     = (res, world')
     ∧ trace world' = new ++ trace world
     ∧ (length new ≤ 1000)%nat
     ∧ Forall (λ t, t_word t = w) new
     ∧ (res = Ok None →
        length new = 1000%nat ∧ Forall (λ t, t_verdict t ≠ Accepted) new))
  ∧ ∃ res w1,
      greedy_place words n diagonals backwards key k (start r) = (res, w1)
      ∧ (∀ w, trials_of w (trace w1) ≤ 1000 * occurrences w words)%nat
      ∧ (length (trace w1) ≤ 1000 * eligible n words)%nat
      ∧ (cursor (rng w1) ≤ cursor r + (length words - 1)
                           + 3000 * eligible n words)%nat
      ∧ (∀ g placed, res = Ok (g, placed) →
           ∀ w, w ∈ placed ↔
                ∃ t, t ∈ trace w1 ∧ t_word t = w ∧ t_verdict t = Accepted)
      ∧ (n ≠ 0 ∨ [] ∉ words → ∃ g placed, res = Ok (g, placed)).
Proof.
  split; [intros g w world; apply (trial_loop_bounded 1000)|].
  destruct (greedy_place words n diagonals backwards key k (start r))
    as [res w1] eqn:Hrun.
  exists res, w1. split; [done|].
  pose proof (wp_run _ _ _ _ _ _
    (greedy_place_cost words n diagonals backwards key k r) Hrun) as Hcost.
  assert (run_cost words n r w1) as (Hper & Hlen & Hcur) by (by destruct res).
  destruct (greedy_place_run _ _ _ _ _ _ _ _ _ Hrun) as (g' & placed' & Hh & Hres).
  split_and!; try done.
  - intros g placed ->. injection Hres as <- <-. intros w.
    rewrite (history_placed _ _ _ _ _ _ Hh). unfold accepted_words.
    rewrite list_elem_of_fmap. split.
    + intros (t & -> & Ht). apply elem_of_reverse, list_elem_of_filter in Ht.
      exists t. tauto.
    + intros (t & Ht & <- & Hv). exists t. split; [done|].
      apply elem_of_reverse, list_elem_of_filter. done.
  - intros Hok. destruct res as [[g placed]|e]; [by eauto|].
    destruct Hres as [-> Hin]. destruct Hok; done.
Qed.

Lemma trial_cap_witness :
  (1 ≠ 0 ∨ [] ∉ [str "A"])
  ∧ ∃ res w1,
      greedy_place [str "A"] 1 true true [] 2 (start zeros) = (res, w1)
      ∧ (length (trace w1) ≤ 1000 * eligible 1 [str "A"])%nat
      ∧ ∃ g placed, res = Ok (g, placed).
Proof.
  assert (1 ≠ 0 ∨ [] ∉ [str "A"]) as Hok by (left; lia).
  split; [exact Hok|].
  destruct (trial_cap [str "A"] 1 true true [] 2 zeros)
    as (_ & res & w1 & Hrun & _ & Hlen & _ & _ & Hret).
  exists res, w1. exact (conj Hrun (conj Hlen (Hret Hok))).
Defined.

(* ===================================================================== *)
(** ** Origin ranges *)
(* ===================================================================== *)

(** Why [can_place] answers [False]: some letter is out of the grid, or its
    cell holds another letter. *)
Lemma can_place_from_false (g : grid) (x y dx dy : Z) (w : pystr) :
  ∀ i, can_place_from g x y dx dy i w = Ok false →
  ∃ (j : nat) ch, w !! j = Some ch ∧
    (¬ (0 ≤ x + dx * (i + Z.of_nat j) < len g ∧ 0 ≤ y + dy * (i + Z.of_nat j) < len g)
     ∨ ∃ c, getcell g (y + dy * (i + Z.of_nat j)) (x + dx * (i + Z.of_nat j))
            = Ok (Some c) ∧ c ≠ ch).
Proof.
  induction w as [|ch rest IH]; intros i; [done|].
  cbn [can_place_from].
  destruct ((x + dx * i <? 0) || (y + dy * i <? 0) || (x + dx * i >=? len g)
            || (y + dy * i >=? len g)) eqn:Hout.
  { intros _. exists 0%nat, ch. split; [done|]. left. rewrite Z.add_0_r.
    rewrite !Z.geb_leb in Hout.
    rewrite !orb_true_iff, !Z.ltb_lt, !Z.leb_le in Hout. lia. }
  destruct (getcell g (y + dy * i) (x + dx * i)) as [c|e] eqn:Hget; [|done].
  destruct (bool_decide (c ≠ None) && bool_decide (c ≠ Some ch)) eqn:Hc.
  { intros _. exists 0%nat, ch. split; [done|]. right. rewrite Z.add_0_r.
    apply andb_true_iff in Hc as [Hc1%bool_decide_eq_true Hc2%bool_decide_eq_true].
    destruct c as [c|]; [|done]. exists c. split; [done|congruence]. }
  intros (j & ch' & Hj & Hwhy)%IH. exists (S j), ch'. split; [done|].
  replace (i + Z.of_nat (S j)) with (i + 1 + Z.of_nat j) by lia. done.
Qed.

Lemma randint_in_range (a b : Z) (w : World) :
  a ≤ b → ∃ v, (randint a b w).1 = Ok v ∧ a ≤ v ≤ b.
Proof.
  intros Hab.
  pose proof (wp_randint a b (λ v _, a ≤ v ≤ b) (λ _ _, False) w
                ltac:(lia) ltac:(done)) as H.
  unfold wp in H. destruct (randint a b w) as [[v|e] w']; [|done]. by exists v.
Qed.

(** C9. For a grid of side [n >= 1], a word of length between 1 and [n] and
    a direction of the catalog, the origin ranges computed by [greedy_place]
    are not empty, so [randint] returns a value within them; and an origin
    within the ranges keeps every cell of the word inside the grid, so that
    [can_place] can answer [False] only because a cell holds another
    letter. *)
Theorem origin_ranges_fit (n : Z) (w : pystr) (d : direction) :
  1 ≤ n → 1 ≤ len w ≤ n → d ∈ DIRECTIONS →
  min_x d.1.1 w ≤ max_x n d.1.1 w
  ∧ min_y d.1.2 w ≤ max_y n d.1.2 w
  ∧ (∀ world, ∃ x, (randint (min_x d.1.1 w) (max_x n d.1.1 w) world).1 = Ok x
                   ∧ min_x d.1.1 w ≤ x ≤ max_x n d.1.1 w)
  ∧ (∀ world, ∃ y, (randint (min_y d.1.2 w) (max_y n d.1.2 w) world).1 = Ok y
                   ∧ min_y d.1.2 w ≤ y ≤ max_y n d.1.2 w)
  ∧ ∀ x y,
      min_x d.1.1 w ≤ x ≤ max_x n d.1.1 w →
      min_y d.1.2 w ≤ y ≤ max_y n d.1.2 w →
      (∀ i, 0 ≤ i < len w →
         0 ≤ x + d.1.1 * i < n ∧ 0 ≤ y + d.1.2 * i < n)
      ∧ (∀ g, square (Z.to_nat n) g →
           ∃ b, can_place g x y d.1.1 d.1.2 w = Ok b
                ∧ (b = false →
                   ∃ (i : nat) ch c,
                     w !! i = Some ch
                     ∧ getcell g (y + d.1.2 * Z.of_nat i) (x + d.1.1 * Z.of_nat i)
                       = Ok (Some c)
                     ∧ c ≠ ch)).
Proof.
  intros Hn Hw Hd. destruct (DIRECTIONS_unit d Hd) as (Hdx & Hdy & _).
  assert (min_x d.1.1 w ≤ max_x n d.1.1 w) as Hrx.
  { unfold min_x, max_x. destruct (Z.leb_spec d.1.1 0), (Z.geb_spec d.1.1 0); lia. }
  assert (min_y d.1.2 w ≤ max_y n d.1.2 w) as Hry.
  { unfold min_y, max_y. destruct (Z.leb_spec d.1.2 0), (Z.geb_spec d.1.2 0); lia. }
  split_and!; try done.
  - intros world. by apply randint_in_range.
  - intros world. by apply randint_in_range.
  - intros x y Hx Hy.
    assert (∀ i, 0 ≤ i < len w →
              0 ≤ x + d.1.1 * i < n ∧ 0 ≤ y + d.1.2 * i < n) as Hin.
    { intros i Hi. unfold min_x, max_x, min_y, max_y in *.
      destruct (Z.leb_spec d.1.1 0), (Z.geb_spec d.1.1 0),
               (Z.leb_spec d.1.2 0), (Z.geb_spec d.1.2 0); nia. }
    split; [done|]. intros g Hsq.
    destruct (can_place_square _ g x y d.1.1 d.1.2 w Hsq) as (b & Hb & _).
    exists b. split; [done|]. intros ->.
    destruct (can_place_from_false g x y d.1.1 d.1.2 w 0 Hb)
      as (j & ch & Hj & [Hout|(c & Hc & Hne)]).
    + exfalso. apply Hout. pose proof (lookup_lt_Some _ _ _ Hj) as Hlt.
      assert (len g = n) as -> by (destruct Hsq; unfold len; lia).
      apply Hin. unfold len. lia.
    + rewrite Z.add_0_l in Hc. by exists j, ch, c.
Qed.

Lemma origin_ranges_fit_witness :
  1 ≤ 5 ∧ 1 ≤ len (str "CAT") ≤ 5 ∧ (-1, 1, "SW"%string) ∈ DIRECTIONS
  ∧ min_x (-1) (str "CAT") ≤ max_x 5 (-1) (str "CAT")
  ∧ min_y 1 (str "CAT") ≤ max_y 5 1 (str "CAT").
Proof.
  assert (1 ≤ 5) as H1 by lia.
  assert (1 ≤ len (str "CAT") ≤ 5) as H2 by (vm_compute; split; discriminate).
  assert ((-1, 1, "SW"%string) ∈ DIRECTIONS) as H3
    by (apply list_elem_of_In; vm_compute; tauto).
  pose proof (origin_ranges_fit 5 (str "CAT") (-1, 1, "SW"%string) H1 H2 H3)
    as (Hx & Hy & _).
  exact (conj H1 (conj H2 (conj H3 (conj Hx Hy)))).
Defined.

(* ===================================================================== *)
(** ** The fillers, end to end *)
(* ===================================================================== *)

Lemma elem_of_sorted_insert (c x : N) (l : list N) :
  x ∈ sorted_insert c l ↔ x = c ∨ x ∈ l.
Proof.
  induction l as [|d l IH]; simpl.
  - rewrite elem_of_cons, elem_of_nil. tauto.
  - destruct (N.ltb_spec c d) as [Hlt|Hge].
    + by rewrite elem_of_cons.
    + destruct (N.eqb_spec c d) as [->|Hne].
      * rewrite elem_of_cons. tauto.
      * rewrite !elem_of_cons, IH. tauto.
Qed.

Lemma sorted_insert_sorted (c : N) (l : list N) :
  StronglySorted N.lt l → StronglySorted N.lt (sorted_insert c l).
Proof.
  induction 1 as [|d l Hl IH Hall]; simpl.
  - repeat constructor.
  - destruct (N.ltb_spec c d) as [Hlt|Hge].
    + constructor; [by constructor|]. constructor; [done|].
      eapply Forall_impl; [exact Hall|]. simpl. intros; lia.
    + destruct (N.eqb_spec c d) as [->|Hne]; [by constructor|].
      constructor; [done|]. apply Forall_forall.
      intros x [->|Hx]%elem_of_sorted_insert; [lia|].
      rewrite Forall_forall in Hall. by apply Hall.
Qed.

Lemma sorted_set_spec (l : list N) :
  StronglySorted N.lt (sorted_set l) ∧ ∀ x, x ∈ sorted_set l ↔ x ∈ l.
Proof.
  unfold sorted_set. induction l as [|c l [IH1 IH2]]; simpl.
  - split; [constructor|done].
  - split; [by apply sorted_insert_sorted|].
    intros x. rewrite elem_of_sorted_insert, elem_of_cons, IH2. done.
Qed.

(** [letters_random]: the capital letters A to Z that occur in the stripped,
    upper-cased alphabet, each once, in increasing order. *)
Lemma letters_random_spec (U : Unicode) (alphabet : pystr) :
  StronglySorted N.lt (letters_random U alphabet)
  ∧ ∀ c, c ∈ letters_random U alphabet ↔
         (65 ≤ c ≤ 90)%N ∧ c ∈ upper U (remove_diacritics U alphabet).
Proof.
  unfold letters_random.
  destruct (sorted_set_spec
    (filter (λ ch : N, (65 ≤ ch)%N ∧ (ch ≤ 90)%N)
       (upper U (remove_diacritics U alphabet)))) as [Hs Hin].
  split; [done|]. intros c. rewrite Hin, list_elem_of_filter. tauto.
Qed.

Lemma len_empties_row (y x : Z) (row : list cell) :
  len (empties_row y x row) = count_none row.
Proof.
  revert x. unfold len, count_none, sumZ.
  induction row as [|[c|] row IH]; intros x; simpl; [done| |].
  - rewrite IH. lia.
  - specialize (IH (x + 1)). lia.
Qed.

(** There are as many coordinates in [empties] as empty cells. *)
Lemma len_empties_of (g : grid) : len (empties_of g) = count_empty g.
Proof.
  unfold empties_of. generalize 0. unfold count_empty.
  induction g as [|row g IH]; intros y; [done|].
  cbn [empties_from]. unfold len in *. rewrite length_app, Nat2Z.inj_add, IH.
  pose proof (len_empties_row y 0 row) as Hrow. unfold len in Hrow.
  rewrite Hrow. done.
Qed.

Lemma sumZ_zero {A} (f : A → Z) (l : list A) :
  Forall (λ a, f a = 0) l → sumZ f l = 0.
Proof.
  induction 1 as [|a l Ha _ IH]; [done|]. unfold sumZ in *. simpl. lia.
Qed.

(** A square grid all of whose cells hold a letter has no empty cell. *)
Lemma count_empty_full (n : nat) (g : grid) :
  square n g →
  (∀ a b, (a < n)%nat → (b < n)%nat → ∃ c, cell_at g a b = Some (Some c)) →
  count_empty g = 0.
Proof.
  intros Hsq Hfull. apply sumZ_zero, Forall_lookup. intros a row Ha.
  apply sumZ_zero, Forall_lookup. intros b c Hb.
  pose proof (square_row _ _ _ _ Hsq Ha) as Hrl.
  pose proof (lookup_lt_Some _ _ _ Ha). pose proof (lookup_lt_Some _ _ _ Hb).
  destruct Hsq as [Hlen _].
  destruct (Hfull a b ltac:(lia) ltac:(lia)) as (c' & Hc').
  apply cell_at_Some in Hc' as (row' & Ha' & Hb').
  assert (c = Some c') as -> by congruence. done.
Qed.

(** Against C5 as stated: with the empty alphabet and no phrase, the one
    empty cell receives no letter; [random.choice] raises on the empty
    string. *)
Lemma fill_with_tajenka_empty_alphabet :
  fill_with_tajenka plain [[None]] [] [] (start zeros)
  = (Raise IndexError, start zeros).
Proof. vm_compute. reflexivity. Qed.

(** C5 (amended). [fill_with_tajenka] lists the empty cells in row-major
    order and, provided the alphabet keeps at least one letter A-Z once
    stripped or the phrase has a letter for every empty cell, returns the
    grid in which the [i]-th empty cell holds [tajenka[i]] while [i] is less
    than the length of the phrase and a letter of [letters_random] (the
    sorted, duplicate-free letters A-Z of the stripped, upper-cased alphabet)
    otherwise, one draw being made for each such cell; every other cell is
    unchanged, so phrase letters beyond the empty cells are not written.
    With no letter in the restricted alphabet and a phrase shorter than the
    number of empty cells it raises [IndexError]. *)
Theorem fill_with_tajenka_row_major
    (U : Unicode) (g : grid) (alphabet tajenka : pystr) (w1 : World) :
  let es := empties_of g in
  let letters := letters_random U alphabet in
  StronglySorted row_major es
  ∧ (∀ p, p ∈ es ↔
          0 ≤ p.1 ∧ 0 ≤ p.2 ∧ cell_at g (Z.to_nat p.1) (Z.to_nat p.2) = Some None)
  ∧ len es = count_empty g
  ∧ StronglySorted N.lt letters
  ∧ (∀ c, c ∈ letters ↔
          (65 ≤ c ≤ 90)%N ∧ c ∈ upper U (remove_diacritics U alphabet))
  ∧ (letters ≠ [] ∨ len es ≤ len tajenka →
     ∃ final w2,
       fill_with_tajenka U g alphabet tajenka w1 = (Ok final, w2)
       ∧ (∀ (i : nat) p, es !! i = Some p →
            ∃ ch, cell_at final (Z.to_nat p.1) (Z.to_nat p.2) = Some (Some ch)
                  ∧ (∀ c, tajenka !! i = Some c → ch = c)
                  ∧ ((length tajenka ≤ i)%nat → ch ∈ letters))
       ∧ (∀ a b, (Z.of_nat a, Z.of_nat b) ∉ es → cell_at final a b = cell_at g a b)
       ∧ count_empty final = 0
       ∧ trace w2 = trace w1
       ∧ Z.of_nat (cursor (rng w2))
         = Z.of_nat (cursor (rng w1)) + Z.max 0 (len es - len tajenka))
  ∧ (letters = [] → len tajenka < len es →
     ∃ w2, fill_with_tajenka U g alphabet tajenka w1 = (Raise IndexError, w2)).
Proof.
  intros es letters.
  pose proof (fill_with_tajenka_spec U g alphabet tajenka w1) as Hspec.
  unfold wp in Hspec. fold es letters in Hspec.
  destruct (letters_random_spec U alphabet) as [Hsorted Hletters].
  split_and!; try done.
  - apply empties_from_sorted.
  - apply empties_of_valid.
  - apply len_empties_of.
  - intros Hok.
    destruct (fill_with_tajenka U g alphabet tajenka w1) as [[final|e] w2].
    + destruct Hspec as ([Hcells Hother] & Hcnt & Htr & Hcur).
      exists final, w2. split_and!; try done.
      * intros i p Hi. destruct (Hcells i p Hi) as (ch & H1 & H2 & H3).
        exists ch. split_and!; try done. intros Hle. apply H3. unfold len. lia.
      * rewrite Hcnt. pose proof (len_empties_of g). fold es in H. lia.
    + destruct Hspec as (_ & Hl & Hlt). destruct Hok; [done|lia].
  - intros Hnil Hlt.
    destruct (fill_with_tajenka U g alphabet tajenka w1) as [[final|e] w2].
    + exfalso. destruct Hspec as ([Hcells _] & _).
      destruct (lookup_lt_is_Some_2 es (length tajenka)) as [p Hp];
        [unfold len in Hlt; lia|].
      destruct (Hcells _ p Hp) as (ch & _ & _ & Hch).
      specialize (Hch ltac:(unfold len; lia)). fold letters in Hnil.
      rewrite Hnil in Hch. by apply elem_of_nil in Hch.
    + destruct Hspec as (-> & _). by exists w2.
Qed.

Lemma fill_with_tajenka_row_major_witness :
  (letters_random plain (str "QRS") ≠ []
   ∨ len (empties_of [[None; Some 1%N]; [None; None]]) ≤ len (str "XY"))
  ∧ ∃ final w2,
      fill_with_tajenka plain [[None; Some 1%N]; [None; None]] (str "QRS") (str "XY")
        (start demo) = (Ok final, w2)
      ∧ count_empty final = 0.
Proof.
  assert (letters_random plain (str "QRS") ≠ []
          ∨ len (empties_of [[None; Some 1%N]; [None; None]]) ≤ len (str "XY"))
    as Hok by (left; vm_compute; discriminate).
  split; [exact Hok|].
  destruct (fill_with_tajenka_row_major plain [[None; Some 1%N]; [None; None]]
              (str "QRS") (str "XY") (start demo))
    as (_ & _ & _ & _ & _ & Hrun & _).
  destruct (Hrun Hok) as (final & w2 & Heq & _ & _ & Hfull & _).
  exists final, w2. exact (conj Heq Hfull).
Defined.

(** Against C10 as stated: with the empty alphabet the empty cell stays
    empty; [fill_random] raises [IndexError]. *)
Lemma fill_random_empty_alphabet :
  fill_random [[None]] [] (start zeros) = (Raise IndexError, start zeros).
Proof. vm_compute. reflexivity. Qed.

(** C10 (amended). On a grid of side [n], [fill_random] with a non-empty
    alphabet, and [fill_with_tajenka] with an alphabet that keeps a letter
    A-Z or with a phrase covering all empty cells, return a grid without
    empty cell in which every cell that held a letter still holds it; the
    cells that were empty hold a letter of the alphabet ([fill_random], one
    draw for each of them), respectively a letter of the phrase or of
    [letters_random] ([fill_with_tajenka]). *)
Theorem fillers_fill_and_preserve
    (n : nat) (g : grid) (U : Unicode) (alphabet tajenka : pystr) (w1 : World) :
  square n g →
  (alphabet ≠ [] →
   ∃ final w2,
     fill_random g alphabet w1 = (Ok final, w2)
     ∧ square n final
     ∧ (∀ a b, (a < n)%nat → (b < n)%nat →
          ∃ c, cell_at final a b = Some (Some c)
               ∧ (cell_at g a b = Some (Some c)
                  ∨ (cell_at g a b = Some None ∧ c ∈ alphabet)))
     ∧ count_empty final = 0
     ∧ trace w2 = trace w1
     ∧ Z.of_nat (cursor (rng w2)) = Z.of_nat (cursor (rng w1)) + count_empty g)
  ∧ (letters_random U alphabet ≠ [] ∨ count_empty g ≤ len tajenka →
     ∃ final w2,
       fill_with_tajenka U g alphabet tajenka w1 = (Ok final, w2)
       ∧ (∀ a b, (a < n)%nat → (b < n)%nat →
            ∃ c, cell_at final a b = Some (Some c)
                 ∧ (cell_at g a b = Some (Some c)
                    ∨ (cell_at g a b = Some None
                       ∧ (c ∈ tajenka ∨ c ∈ letters_random U alphabet))))
       ∧ count_empty final = 0
       ∧ trace w2 = trace w1).
Proof.
  intros Hsq. split.
  - intros Hne. pose proof (fill_random_spec n g alphabet w1 Hsq) as Hspec.
    unfold wp in Hspec.
    destruct (fill_random g alphabet w1) as [[final|e] w2]; [|by destruct Hspec].
    destruct Hspec as (Hsq' & Hcells & Htr & Hcur).
    assert (count_empty final = 0) as Hfull.
    { apply (count_empty_full n); [done|]. intros a b Ha Hb.
      destruct (Hcells a b Ha Hb) as (c & Hc & _). by exists c. }
    exists final, w2. split_and!; try done. lia.
  - intros Hok. pose proof (fill_with_tajenka_spec U g alphabet tajenka w1) as Hspec.
    unfold wp in Hspec. pose proof (len_empties_of g) as Hlen.
    destruct (fill_with_tajenka U g alphabet tajenka w1) as [[final|e] w2].
    + destruct Hspec as ([Hcells Hother] & Hcnt & Htr & _).
      exists final, w2. split_and!; try done; [|lia].
      intros a b Ha Hb. destruct (square_cell n g a b Hsq Ha Hb) as [c0 Hc0].
      destruct (decide ((Z.of_nat a, Z.of_nat b) ∈ empties_of g)) as [Hin|Hout].
      * pose proof Hin as (_ & _ & Hnone)%empties_of_valid.
        simpl in Hnone. rewrite !Nat2Z.id in Hnone.
        apply list_elem_of_lookup in Hin as [i Hi].
        destruct (Hcells i _ Hi) as (ch & Hch & Hphrase & Hrandom).
        simpl in Hch. rewrite !Nat2Z.id in Hch. exists ch. split; [done|].
        right. split; [done|].
        destruct (tajenka !! i) as [c|] eqn:Hti.
        -- left. rewrite (Hphrase c) by done. by eapply list_elem_of_lookup_2.
        -- right. apply Hrandom. apply lookup_ge_None in Hti. unfold len. lia.
      * rewrite (Hother a b Hout). destruct c0 as [c|].
        -- exists c. split; [done|by left].
        -- exfalso. apply Hout, empties_of_valid. simpl.
           rewrite !Nat2Z.id. split_and!; [lia|lia|done].
    + destruct Hspec as (_ & Hl & Hlt). destruct Hok; [done|lia].
Qed.

Lemma fillers_fill_and_preserve_witness :
  square 5 demo_grid
  ∧ str "AB" ≠ []
  ∧ ∃ final w2,
      fill_random demo_grid (str "AB") demo_world = (Ok final, w2)
      ∧ count_empty final = 0.
Proof.
  assert (square 5 demo_grid) as Hsq
    by (split; [reflexivity|repeat constructor]).
  assert (str "AB" ≠ []) as Hne by (vm_compute; discriminate).
  split; [exact Hsq|]. split; [exact Hne|].
  destruct (fillers_fill_and_preserve 5 demo_grid plain (str "AB") [] demo_world Hsq)
    as [Hrandom _].
  destruct (Hrandom Hne) as (final & w2 & Heq & _ & _ & Hfull & _).
  exists final, w2. exact (conj Heq Hfull).
Defined.

(* ===================================================================== *)
(** ** More on the scheduler *)
(* ===================================================================== *)

Lemma make_empty_None (n : Z) (a b : nat) (c : option N) :
  cell_at (make_empty n) a b = Some c → c = None.
Proof.
  intros (row & Ha & Hb)%cell_at_Some. unfold make_empty in Ha.
  apply lookup_replicate in Ha as [-> _]. by apply lookup_replicate in Hb as [-> _].
Qed.

(** Whatever [m] does, it ends. *)
Lemma wp_any {A} (m : M A) (w : World) : wp m (λ _ _, True) (λ _ _, True) w.
Proof. unfold wp. by destruct (m w) as [[a|e] w']. Qed.

Lemma wp_bind_any {A B} (m : M A) (f : A → M B) Q (E : exn → World → Prop) w :
  (∀ a w', wp (f a) Q E w') → (∀ e w', E e w') → wp (m ≫= f) Q E w.
Proof.
  intros Hf HE. apply wp_bind. eapply wp_mono; [apply wp_any| |]; simpl; auto.
Qed.

Lemma submseteq_filter_mono {A} (P : A → Prop) `{∀ x, Decision (P x)}
    (l1 l2 : list A) :
  l1 ⊆+ l2 → filter P l1 ⊆+ filter P l2.
Proof.
  induction 1 as [|x l1 l2 _ IH|x y l|x l1 l2 _ IH|l1 l2 l3 _ IH1 _ IH2].
  - done.
  - rewrite !filter_cons. destruct (decide (P x)); [by apply submseteq_skip|done].
  - rewrite !filter_cons. destruct (decide (P x)), (decide (P y)); try done.
    apply submseteq_swap.
  - rewrite filter_cons. destruct (decide (P x)); [by apply submseteq_cons|done].
  - by etrans.
Qed.

Lemma filter_all {A} (P : A → Prop) `{∀ x, Decision (P x)} (l : list A) :
  Forall P l → filter P l = l.
Proof.
  induction 1 as [|x l Hx _ IH]; [done|]. rewrite filter_cons_True by done.
  by rewrite IH.
Qed.

(** The words placed by the loop are taken from the pool, in pool order,
    each position of the pool at most once. *)
Lemma place_each_sublist (n k : Z) (allowed : list direction) (pool : list (list N)) :
  ∀ s w,
  wp (place_each n k allowed pool s)
     (λ s' _, ∃ extra, s'.2 = s.2 ++ extra ∧ extra `sublist_of` pool)
     (λ _ _, True) w.
Proof.
  unfold place_each. induction pool as [|v pool IH]; intros s w.
  { apply wp_ret. exists []. by rewrite app_nil_r. }
  cbn [for_each]. apply wp_bind. destruct (len v >? n).
  - apply wp_ret. eapply wp_mono; [apply IH| |done].
    intros s' _ (extra & Heq & Hsub). exists extra. split; [done|].
    by apply sublist_cons.
  - apply wp_bind_any; [|done]. intros [g'|] w'; apply wp_ret.
    + eapply wp_mono; [apply IH| |done].
      intros s' _ (extra & Heq & Hsub). exists (v :: extra). cbn [snd] in Heq.
      split; [by rewrite Heq, <- app_assoc|]. by apply sublist_skip.
    + eapply wp_mono; [apply IH| |done].
      intros s' _ (extra & Heq & Hsub). exists extra. split; [done|].
      by apply sublist_cons.
Qed.

(** The placed words are taken, in order, from a rearrangement of the
    input list. *)
Lemma greedy_place_pool words n diagonals backwards key k w0 g placed w1 :
  greedy_place words n diagonals backwards key k w0 = (Ok (g, placed), w1) →
  ∃ pool, pool ≡ₚ words ∧ placed `sublist_of` pool.
Proof.
  intros Hrun. unfold greedy_place, mbind, M_bind in Hrun.
  pose proof (wp_shuffle (sort_by_len_desc words) (λ _ _, False) w0) as Hsh.
  unfold wp in Hsh.
  destruct (shuffle (sort_by_len_desc words) w0) as [[pool|e] w']; [|done].
  destruct Hsh as (Hperm & _).
  pose proof (wp_run _ _ _ _ _ _
    (place_each_sublist n k (pick_allowed diagonals backwards) pool
       (make_empty n, []) w') Hrun) as (extra & Heq & Hsl).
  cbn [snd app] in Heq. subst extra. exists pool. split; [|done].
  by rewrite Hperm, sort_by_len_desc_perm.
Qed.

(** X1. The returned list is drawn from the input list: every word of
    [placed] is a word of [words], no word is returned more often than it
    was given (so a list without repetition gives one without), and there
    are at most as many as words that pass the length filter. *)
Theorem placed_from_words words n diagonals backwards key k r g placed w1 :
  greedy_place words n diagonals backwards key k (start r) = (Ok (g, placed), w1) →
  placed ⊆+ words
  ∧ (∀ w, w ∈ placed → w ∈ words)
  ∧ (∀ w, occurrences w placed ≤ occurrences w words)%nat
  ∧ (NoDup words → NoDup placed)
  ∧ (length placed ≤ eligible n words)%nat.
Proof.
  intros Hrun.
  destruct (greedy_place_pool _ _ _ _ _ _ _ _ _ _ Hrun) as (pool & Hperm & Hsl).
  assert (placed ⊆+ words) as Hsub
    by (rewrite <- Hperm; by apply sublist_submseteq).
  split_and!; [done| | | |].
  - intros w Hw. by eapply elem_of_submseteq.
  - intros w. unfold occurrences. apply submseteq_length.
    by apply submseteq_filter_mono.
  - intros Hnd. apply (sublist_NoDup _ pool); [by rewrite Hperm|done].
  - destruct (greedy_place_run _ _ _ _ _ _ _ _ _ Hrun)
      as (g' & placed' & Hh & [= <- <-]).
    destruct (history_lengths _ _ _ _ _ _ Hh) as [_ Hlen].
    unfold eligible.
    rewrite <- (filter_all (λ w, len w ≤ n) placed) by done.
    apply submseteq_length. by apply submseteq_filter_mono.
Qed.

Lemma placed_from_words_witness :
  greedy_place demo_words 5 true true [] 0 (start demo)
  = (Ok (demo_grid, demo_words), demo_world)
  ∧ demo_words ⊆+ demo_words.
Proof.
  split; [exact demo_run|].
  exact (proj1 (placed_from_words _ _ _ _ _ _ _ _ _ _ demo_run)).
Defined.

(** X2. Every trial, hence every placed word, runs in a direction of
    [pick_allowed]: never along a diagonal when [diagonals] is off, and only
    east, south, south-east or south-west when [backwards] is off. *)
Theorem trials_follow_flags words n diagonals backwards key k r res w1 :
  greedy_place words n diagonals backwards key k (start r) = (res, w1) →
  (∀ t, t ∈ trace w1 →
     (∃ name, (t_dx t, t_dy t, name) ∈ pick_allowed diagonals backwards)
     ∧ (diagonals = false → t_dx t = 0 ∨ t_dy t = 0)
     ∧ (backwards = false →
        (t_dx t, t_dy t) ∈ [(1, 0); (0, 1); (1, 1); (-1, 1)])
     ∧ (diagonals = false → backwards = false →
        (t_dx t, t_dy t) ∈ [(1, 0); (0, 1)]))
  ∧ (∀ g placed, res = Ok (g, placed) →
       ∀ w, w ∈ placed →
            ∃ t, t ∈ trace w1 ∧ t_verdict t = Accepted ∧ t_word t = w).
Proof.
  intros Hrun.
  destruct (greedy_place_run _ _ _ _ _ _ _ _ _ Hrun) as (g' & placed' & Hh & Hres).
  split.
  - intros t Ht.
    pose proof (history_trials _ _ _ _ _ _ Hh) as Hok.
    rewrite Forall_forall in Hok.
    destruct (Hok t Ht) as (d & (Hd & _) & -> & -> & _).
    destruct d as [[dx dy] name]. cbn [fst snd]. split_and!.
    + by exists name.
    + intros ->. clear -Hd. destruct backwards;
        apply list_elem_of_In in Hd; vm_compute in Hd;
        repeat destruct Hd as [[= <- <- <-]|Hd]; try done; auto.
    + intros ->. clear -Hd. apply list_elem_of_In.
      destruct diagonals; apply list_elem_of_In in Hd; vm_compute in Hd;
        repeat destruct Hd as [[= <- <- <-]|Hd]; try done; simpl; auto.
    + intros -> ->. clear -Hd. apply list_elem_of_In.
      apply list_elem_of_In in Hd; vm_compute in Hd;
        repeat destruct Hd as [[= <- <- <-]|Hd]; try done; simpl; auto.
  - intros g placed -> w Hw. injection Hres as <- <-.
    rewrite (history_placed _ _ _ _ _ _ Hh) in Hw. unfold accepted_words in Hw.
    apply list_elem_of_fmap in Hw as (t & -> & Ht).
    apply elem_of_reverse, list_elem_of_filter in Ht. exists t. tauto.
Qed.

Lemma trials_follow_flags_witness :
  greedy_place demo_words 3 false false [] 5 (start halves)
  = ((greedy_place demo_words 3 false false [] 5 (start halves)).1,
     (greedy_place demo_words 3 false false [] 5 (start halves)).2)
  ∧ ∀ t, t ∈ trace (greedy_place demo_words 3 false false [] 5 (start halves)).2 →
         (t_dx t, t_dy t) ∈ [(1, 0); (0, 1)].
Proof.
  assert (greedy_place demo_words 3 false false [] 5 (start halves)
          = ((greedy_place demo_words 3 false false [] 5 (start halves)).1,
             (greedy_place demo_words 3 false false [] 5 (start halves)).2))
    as Hrun by apply surjective_pairing.
  split; [exact Hrun|]. intros t Ht.
  destruct (trials_follow_flags _ _ _ _ _ _ _ _ _ Hrun) as [H _].
  destruct (H t Ht) as (_ & _ & _ & H4). exact (H4 eq_refl eq_refl).
Defined.

(** Every letter in the grid was put there by an accepted trial. *)
Lemma history_covered (n k : Z) (allowed : list direction) g placed T :
  (∀ d, d ∈ allowed → d ∈ DIRECTIONS) →
  history n k allowed g placed T →
  ∀ a b c, cell_at g a b = Some (Some c) → covered T a b c.
Proof.
  intros Hallowed.
  induction 1 as [|g placed T w d x y Hh IH Hd Hcan
                  |g placed T w d x y m Hh IH Hd Hcan Hnew Hk Hlt
                  |g placed T w d x y m g' Hh IH Hd Hcan Hnew Hk Hplace];
    intros a b c Hc.
  - by apply make_empty_None in Hc.
  - destruct (IH a b c Hc) as (t & i & Ht & H). exists t, i. split; [by right|done].
  - destruct (IH a b c Hc) as (t & i & Ht & H). exists t, i. split; [by right|done].
  - pose proof (history_square _ _ _ Hallowed _ _ _ Hh) as Hsq.
    destruct Hd as (Hd%Hallowed%DIRECTIONS_unit & _).
    destruct (place_checked _ g x y d.1.1 d.1.2 w Hsq ltac:(tauto) Hcan)
      as (g1 & m1 & Hp & _ & Hsq1 & _ & _ & _ & Hread & Hframe).
    assert (g1 = g') as -> by congruence.
    destruct (decide ((a, b) ∈ (spot x y d.1.1 d.1.2 <$> seqZ 0 (len w))))
      as [Hon|Hoff].
    + apply list_elem_of_fmap in Hon as (j & Hj & [Hj0 Hj1]%elem_of_seqZ).
      unfold len in Hj1.
      destruct (lookup_lt_is_Some_2 w (Z.to_nat j)) as [ch Hch]; [lia|].
      destruct (Hread _ _ Hch) as ([Hx Hy] & Hg').
      rewrite Z2Nat.id in * by lia.
      apply getcell_nonneg in Hg'; [|lia|lia].
      injection Hj as -> ->. assert (ch = c) as -> by congruence.
      exists (mk_trial w d.1.1 d.1.2 x y g Accepted), (Z.to_nat j).
      split; [by left|]. unfold t_row, t_col. cbn [mk_trial t_word t_verdict
        t_x t_y t_dx t_dy]. rewrite !Z2Nat.id by lia. split_and!; try done; lia.
    + rewrite Hframe in Hc.
      * destruct (IH a b c Hc) as (t & i & Ht & H). exists t, i.
        split; [by right|done].
      * intros i Hi Heq. apply Hoff. apply list_elem_of_fmap.
        exists (Z.of_nat i). split; [done|]. apply elem_of_seqZ. unfold len. lia.
Qed.

(** A cell holds [c] exactly when an accepted trial put [c] there. *)
Lemma history_covered_iff (n k : Z) (allowed : list direction) g placed T :
  (∀ d, d ∈ allowed → d ∈ DIRECTIONS) →
  history n k allowed g placed T →
  ∀ a b c, cell_at g a b = Some (Some c) ↔ covered T a b c.
Proof.
  intros Hallowed Hh a b c. split; [by eapply history_covered|].
  intros (t & i & Ht & Hv & Hi & Hrow & Hcol).
  destruct (history_readback _ _ _ Hallowed _ _ _ Hh t Ht Hv i c Hi) as [_ Hget].
  rewrite Hrow, Hcol in Hget. apply getcell_nonneg in Hget; [|lia|lia].
  by rewrite !Nat2Z.id in Hget.
Qed.

(** X3. The returned grid holds the placed words and nothing else: a cell
    holds the letter [c] exactly when some accepted placement put [c] there;
    all other cells of the grid are empty. *)
Theorem grid_is_placed_words words n diagonals backwards key k r g placed w1 :
  greedy_place words n diagonals backwards key k (start r) = (Ok (g, placed), w1) →
  square (Z.to_nat n) g
  ∧ (∀ a b c, cell_at g a b = Some (Some c) ↔ covered (trace w1) a b c)
  ∧ (∀ a b, (a < Z.to_nat n)%nat → (b < Z.to_nat n)%nat →
       cell_at g a b = Some None ∨ ∃ c, covered (trace w1) a b c).
Proof.
  intros Hrun.
  destruct (greedy_place_run _ _ _ _ _ _ _ _ _ Hrun) as (g' & placed' & Hh & [= <- <-]).
  pose proof (pick_allowed_sub diagonals backwards) as Hsub.
  pose proof (history_square _ _ _ Hsub _ _ _ Hh) as Hsq.
  pose proof (history_covered_iff _ _ _ _ _ _ Hsub Hh) as Hiff.
  split_and!; [done|done|].
  intros a b Ha Hb. destruct (square_cell _ g a b Hsq Ha Hb) as [[c|] Hc].
  - right. exists c. by apply Hiff.
  - by left.
Qed.

Lemma grid_is_placed_words_witness :
  greedy_place demo_words 5 true true [] 0 (start demo)
  = (Ok (demo_grid, demo_words), demo_world)
  ∧ square (Z.to_nat 5) demo_grid
  ∧ covered (trace demo_world) 1 3 65%N.
Proof.
  split; [exact demo_run|].
  destruct (grid_is_placed_words _ _ _ _ _ _ _ _ _ _ demo_run) as (Hsq & Hiff & _).
  split; [exact Hsq|]. apply Hiff. reflexivity.
Defined.

Lemma ranges_inside (n : Z) (w : list N) (dx dy x y : Z) :
  -1 ≤ dx ≤ 1 → -1 ≤ dy ≤ 1 →
  min_x dx w ≤ x ≤ max_x n dx w → min_y dy w ≤ y ≤ max_y n dy w →
  ∀ i, 0 ≤ i < len w → 0 ≤ x + dx * i < n ∧ 0 ≤ y + dy * i < n.
Proof.
  intros Hdx Hdy Hx Hy i Hi. unfold min_x, max_x, min_y, max_y in *.
  destruct (Z.leb_spec dx 0), (Z.geb_spec dx 0),
           (Z.leb_spec dy 0), (Z.geb_spec dy 0); nia.
Qed.

Lemma new_cells_over_le (g : grid) (x y dx dy : Z) (indices : list Z) (m : Z) :
  new_cells_over g x y dx dy indices = Ok m → 0 ≤ m ≤ len indices.
Proof.
  revert m. unfold len.
  induction indices as [|i l IH]; intros m; simpl; [intros [= <-]; lia|].
  destruct (getcell _ _ _) as [c|]; [|done].
  destruct (new_cells_over _ _ _ _ _ l) as [m'|]; [|done].
  intros [= <-]. specialize (IH m' eq_refl). pose proof (is_None_range c). lia.
Qed.

(** On the empty grid the first trial of a word that fits is accepted,
    unless the reserve forbids it. *)
Lemma first_trial_accepted (fuel : nat) (n k : Z) (allowed : list direction)
    (w : list N) (w0 : World) :
  (∀ d, d ∈ allowed → d ∈ DIRECTIONS) → allowed ≠ [] →
  1 ≤ n → len w ≤ n → k = 0 ∨ k ≤ n * n - len w →
  wp (trial_loop (S fuel) n k allowed (make_empty n) w)
     (λ r _, is_Some r) (λ _ _, False) w0.
Proof.
  intros Hallowed Hne Hn Hw Hk. cbn [trial_loop].
  apply wp_bind, wp_choice; [done|]. intros d Hd.
  destruct (DIRECTIONS_unit d (Hallowed d Hd)) as (Hdx & Hdy & Hdir).
  assert (n ≠ 0 ∨ w ≠ []) as Hgood by (left; lia).
  destruct (ranges_ok n w d.1.1 Hw Hdx Hgood) as [Hrx _].
  destruct (ranges_ok n w d.1.2 Hw Hdy Hgood) as [_ Hry].
  apply wp_bind, wp_randint; [lia|]. intros x Hx.
  apply wp_bind, wp_randint; [lia|]. intros y Hy.
  pose proof (make_empty_square n) as Hsq.
  assert (len (make_empty n) = n) as Hlen
    by (destruct Hsq as [Hl _]; unfold len; lia).
  destruct (can_place_square _ (make_empty n) x y d.1.1 d.1.2 w Hsq)
    as (b & Hcan & Hiff).
  assert (b = true) as ->.
  { apply Hiff. intros i ch Hi. pose proof (lookup_lt_Some _ _ _ Hi) as Hlt.
    destruct (ranges_inside n w d.1.1 d.1.2 x y Hdx Hdy Hx Hy (Z.of_nat i))
      as [Hix Hiy]; [unfold len; lia|].
    unfold fits. rewrite Hlen. split; [lia|]. split; [lia|]. left.
    destruct (getcell_in _ (make_empty n) (y + d.1.2 * Z.of_nat i)
                (x + d.1.1 * Z.of_nat i) Hsq) as (c & -> & Hc); [lia|lia|].
    by apply make_empty_None in Hc as ->. }
  apply wp_bind, wp_lift. rewrite Hcan.
  destruct (place_checked _ (make_empty n) x y d.1.1 d.1.2 w Hsq Hdir Hcan)
    as (g' & m & Hplace & Hnew & _).
  apply wp_bind, wp_lift. rewrite Hnew.
  pose proof (new_cells_over_le _ _ _ _ _ _ _ Hnew) as Hm.
  unfold range, len in Hm. rewrite length_seqZ in Hm.
  rewrite count_empty_make_empty.
  replace (Z.max 0 n) with n by lia.
  destruct (bool_decide (k ≠ 0) && (n * n - m <? k)) eqn:Hres.
  { apply andb_true_iff in Hres as [Hk0%bool_decide_eq_true Hlt%Z.ltb_lt].
    unfold len in Hk. lia. }
  apply wp_bind, wp_lift. rewrite Hplace.
  apply wp_bind, wp_log, wp_ret. by eexists.
Qed.

Lemma place_each_keeps (n k : Z) (allowed : list direction) (pool : list (list N))
    (s : grid * list (list N)) (w : World) :
  s.2 ≠ [] →
  wp (place_each n k allowed pool s) (λ s' _, s'.2 ≠ []) (λ _ _, True) w.
Proof.
  intros Hne. eapply wp_mono; [apply place_each_sublist| |done].
  intros s' _ (extra & -> & _). by destruct s.2.
Qed.

Lemma place_each_first (n k : Z) (allowed : list direction) (pool : list (list N)) :
  (∀ d, d ∈ allowed → d ∈ DIRECTIONS) → allowed ≠ [] →
  1 ≤ n → k = 0 ∨ k ≤ n * n - n →
  Exists (λ w, len w ≤ n) pool →
  ∀ w, wp (place_each n k allowed pool (make_empty n, []))
         (λ s' _, s'.2 ≠ []) (λ _ _, True) w.
Proof.
  intros Hallowed Hne Hn Hk.
  assert (∀ v rest w, len v ≤ n →
    wp (place_each n k allowed (v :: rest) (make_empty n, []))
       (λ s' _, s'.2 ≠ []) (λ _ _, True) w) as Hfirst.
  { intros v rest w Hv. unfold place_each. cbn [for_each].
    destruct (Z.gtb_spec (len v) n) as [Hgt|_]; [lia|].
    apply wp_bind, wp_bind.
    eapply wp_mono;
      [apply (first_trial_accepted 999); try done; lia| |done].
    intros r w' [g' ->]. apply wp_ret. by apply place_each_keeps. }
  induction 1 as [v pool Hv|v pool _ IH]; intros w; [by apply Hfirst|].
  destruct (Z.gtb_spec (len v) n) as [Hgt|Hle]; [|by apply Hfirst].
  unfold place_each. cbn [for_each].
  rewrite (proj2 (Z.gtb_lt (len v) n)) by lia.
  apply wp_bind, wp_ret. apply IH.
Qed.

(** On a grid of side at least 1, with no reserve or a reserve that leaves
    a full row free, a run that returns has placed a word unless all words
    are too long. *)
Lemma greedy_place_first_fit words n diagonals backwards key k r g placed w1 :
  1 ≤ n → k = 0 ∨ k ≤ n * n - n →
  greedy_place words n diagonals backwards key k (start r)
    = (Ok (g, placed), w1) →
  placed = [] ↔ Forall (λ w, n < len w) words.
Proof.
  intros Hn Hk Hrun.
  destruct (greedy_place_run _ _ _ _ _ _ _ _ _ Hrun)
    as (g' & placed' & Hh & [= <- <-]).
  split.
  - intros ->. apply Forall_forall. intros v Hv.
    destruct (Z.lt_ge_cases n (len v)) as [|Hle]; [done|]. exfalso.
    unfold greedy_place, mbind, M_bind in Hrun.
    pose proof (wp_shuffle (sort_by_len_desc words) (λ _ _, False) (start r)) as Hsh.
    unfold wp in Hsh.
    destruct (shuffle (sort_by_len_desc words) (start r)) as [[pool|e] w']; [|done].
    destruct Hsh as (Hperm & _).
    assert (Exists (λ w, len w ≤ n) pool) as Hex.
    { apply Exists_exists. exists v. split; [|done].
      by rewrite Hperm, sort_by_len_desc_perm. }
    pose proof (wp_run _ _ _ _ _ _
      (place_each_first n k (pick_allowed diagonals backwards) pool
         (pick_allowed_sub diagonals backwards)
         (pick_allowed_nonempty diagonals backwards) Hn Hk Hex w') Hrun) as Hne.
    by apply Hne.
  - intros Hall. destruct (history_lengths _ _ _ _ _ _ Hh) as [_ Hlen].
    destruct placed as [|v placed]; [done|]. exfalso.
    apply Forall_cons in Hlen as [Hv _].
    assert (v ∈ words) as Hin.
    { destruct (greedy_place_pool _ _ _ _ _ _ _ _ _ _ Hrun) as (pool & Hperm & Hsl).
      rewrite <- Hperm. eapply elem_of_submseteq; [|by apply sublist_submseteq]. left. }
    rewrite Forall_forall in Hall. specialize (Hall v Hin). lia.
Qed.



(* ===================================================================== *)
(** ** Pages: lemmas *)
(* ===================================================================== *)

Lemma fill_cells_square (n : nat) (letters tajenka : pystr) (cs : list (Z * Z)) :
  ∀ (i : Z) (g : grid) (w : World),
  square n g →
  (∀ p, p ∈ cs → 0 ≤ p.1 < Z.of_nat n ∧ 0 ≤ p.2 < Z.of_nat n) →
  wp (fill_cells g letters tajenka i cs) (λ g' _, square n g') (λ _ _, True) w.
Proof.
  induction cs as [|[y x] cs IH]; intros i g w Hsq Hcs; [by apply wp_ret|].
  cbn [fill_cells]. apply wp_bind_any; [|done]. intros ch w'.
  destruct (Hcs (y, x)) as [Hy Hx]; [left|]. cbn [fst snd] in Hy, Hx.
  destruct (setcell_in n g y x (Some ch) Hsq Hy Hx) as (g' & old & Hset & Hsq' & _).
  apply wp_bind, wp_lift. rewrite Hset. apply IH; [done|].
  intros p Hp. apply Hcs. by right.
Qed.

Lemma empties_of_inside (n : nat) (g : grid) (p : Z * Z) :
  square n g → p ∈ empties_of g →
  0 ≤ p.1 < Z.of_nat n ∧ 0 ≤ p.2 < Z.of_nat n.
Proof.
  intros Hsq (H1 & H2 & Hc)%empties_of_valid.
  apply (cell_at_lt n) in Hc as [Ha Hb]; [|done]. lia.
Qed.

(** What [fill_with_tajenka] returns on a square grid. *)
Lemma fill_with_tajenka_result (n : nat) (U : Unicode) (g : grid)
    (alphabet tajenka : pystr) (w1 : World) res w2 :
  square n g →
  fill_with_tajenka U g alphabet tajenka w1 = (res, w2) →
  match res with
  | Ok final =>
      trace w2 = trace w1
      ∧ square n final
      ∧ filled_by g final (letters_random U alphabet) tajenka 0 (empties_of g)
      ∧ count_empty final = 0
  | Raise e =>
      e = IndexError ∧ letters_random U alphabet = [] ∧ len tajenka < count_empty g
  end.
Proof.
  intros Hsq Hrun.
  pose proof (wp_run _ _ _ _ _ _
    (fill_with_tajenka_spec U g alphabet tajenka w1) Hrun) as Hspec.
  pose proof (wp_run _ _ _ _ _ _
    (fill_cells_square n (letters_random U alphabet) tajenka (empties_of g) 0 g w1
       Hsq (λ p, empties_of_inside n g p Hsq)) Hrun) as Hshape.
  pose proof (len_empties_of g) as Hlen.
  destruct res as [final|e].
  - destruct Hspec as (Hfill & Hcnt & Htr & _). split_and!; try done. lia.
  - destruct Hspec as (He & Hl & Hlt). split_and!; try done. lia.
Qed.

(** The cells left empty by the scheduler are those no accepted trial
    wrote on. *)
Lemma history_uncovered (n k : Z) (allowed : list direction) g placed T :
  (∀ d, d ∈ allowed → d ∈ DIRECTIONS) →
  history n k allowed g placed T →
  ∀ p, p ∈ empties_of g ↔
       0 ≤ p.1 < n ∧ 0 ≤ p.2 < n ∧ uncovered T (Z.to_nat p.1) (Z.to_nat p.2).
Proof.
  intros Hallowed Hh p.
  pose proof (history_square _ _ _ Hallowed _ _ _ Hh) as Hsq.
  split.
  - intros Hp. destruct (empties_of_inside _ _ _ Hsq Hp) as [Hy Hx].
    apply empties_of_valid in Hp as (_ & _ & Hnone).
    split_and!; [lia..|].
    intros c (t & i & Ht & Hv & Hi & Hrow & Hcol).
    destruct (history_readback _ _ _ Hallowed _ _ _ Hh t Ht Hv i c Hi) as [_ Hget].
    rewrite Hrow, Hcol in Hget. apply getcell_nonneg in Hget; [|lia|lia].
    rewrite !Nat2Z.id in Hget. congruence.
  - intros (Hy & Hx & Hun). apply empties_of_valid. split_and!; [lia|lia|].
    destruct (square_cell _ g (Z.to_nat p.1) (Z.to_nat p.2) Hsq) as [[c|] Hc];
      [lia|lia| |done].
    exfalso. apply (Hun c). by eapply history_covered.
Qed.

(** One page: the scheduler runs, then one of the two fillers. *)
Lemma save_pdf_page_run (U : Unicode) words size diagonals backwards key tajenka
    (w0 : World) res w2 :
  save_pdf_page U words size diagonals backwards key tajenka w0 = (res, w2) →
  (∃ e, greedy_place words size diagonals backwards key (taj_len tajenka) w0
          = (Raise e, w2) ∧ res = Raise e)
  ∨ ∃ g placed w1 fres,
      greedy_place words size diagonals backwards key (taj_len tajenka) w0
        = (Ok (g, placed), w1)
      ∧ (if bool_decide (taj_len tajenka ≠ 0)
         then fill_with_tajenka U g (letters_of key) (default [] tajenka)
         else fill_random g (letters_random U (letters_of key))) w1 = (fres, w2)
      ∧ res = match fres with Ok final => Ok (final, placed) | Raise e => Raise e end.
Proof.
  unfold save_pdf_page, mbind, M_bind.
  destruct (greedy_place words size diagonals backwards key (taj_len tajenka) w0)
    as [[[g placed]|e] w1]; [|intros [= <- <-]; left; by exists e].
  cbn [fst snd]. intros Hrun. right. exists g, placed, w1.
  destruct ((if bool_decide (taj_len tajenka ≠ 0)
             then fill_with_tajenka U g (letters_of key) (default [] tajenka)
             else fill_random g (letters_random U (letters_of key))) w1)
    as [[final|e] w2'] eqn:Hfill.
  - injection Hrun as <- <-. by exists (Ok final).
  - injection Hrun as <- <-. by exists (Raise e).
Qed.

Lemma taj_len_Some (t : pystr) : t ≠ [] → taj_len (Some t) = len t ∧ 0 < len t.
Proof.
  intros Hne. unfold taj_len. rewrite bool_decide_eq_true_2 by done.
  split; [done|]. destruct t; [done|]. unfold len. cbn [length]. lia.
Qed.

Lemma taj_len_cases (tajenka : option pystr) :
  (taj_len tajenka = 0 ∧ (tajenka = None ∨ tajenka = Some []))
  ∨ ∃ t, tajenka = Some t ∧ t ≠ [] ∧ taj_len tajenka = len t ∧ 0 < len t.
Proof.
  destruct tajenka as [t|]; [|left; auto].
  destruct (decide (t = [])) as [->|Hne].
  - left. split; [|by right]. unfold taj_len. by rewrite bool_decide_eq_false_2 by auto.
  - right. exists t. destruct (taj_len_Some t Hne). done.
Qed.

(** X5. A page is always produced and complete when the side is not 0 (or no
    word is empty) and the alphabet keeps a letter A-Z: the grid is square
    and has no empty cell; the letters of the placed words are where the
    scheduler put them, and every other cell holds a letter of the phrase or
    one of the letters A-Z of the stripped alphabet. *)
Theorem save_pdf_page_complete (U : Unicode) words size diagonals backwards key
    tajenka r :
  size ≠ 0 ∨ [] ∉ words →
  letters_random U (letters_of key) ≠ [] →
  ∃ final placed w2,
    save_pdf_page U words size diagonals backwards key tajenka (start r)
      = (Ok (final, placed), w2)
    ∧ square (Z.to_nat size) final
    ∧ count_empty final = 0
    ∧ placed = accepted_words (trace w2)
    ∧ (∀ a b c, covered (trace w2) a b c → cell_at final a b = Some (Some c))
    ∧ (∀ a b, (a < Z.to_nat size)%nat → (b < Z.to_nat size)%nat →
         uncovered (trace w2) a b →
         ∃ c, cell_at final a b = Some (Some c)
              ∧ ((∃ t, tajenka = Some t ∧ c ∈ t)
                 ∨ ((65 ≤ c ≤ 90)%N ∧ c ∈ letters_random U (letters_of key)))).
Proof.
  intros Hgood Hletters.
  destruct (save_pdf_page U words size diagonals backwards key tajenka (start r))
    as [res w2] eqn:Hrun.
  pose proof (pick_allowed_sub diagonals backwards) as Hsub.
  destruct (save_pdf_page_run _ _ _ _ _ _ _ _ _ _ Hrun)
    as [(e & Hg & ->)|(g & placed & w1 & fres & Hg & Hfill & ->)].
  { destruct (greedy_place_run _ _ _ _ _ _ _ _ _ Hg) as (_ & _ & _ & -> & Hin).
    by destruct Hgood. }
  destruct (greedy_place_run _ _ _ _ _ _ _ _ _ Hg) as (g' & placed' & Hh & [= <- <-]).
  pose proof (history_square _ _ _ Hsub _ _ _ Hh) as Hsq.
  pose proof (history_covered_iff _ _ _ _ _ _ Hsub Hh) as Hiff.
  pose proof (history_uncovered _ _ _ _ _ _ Hsub Hh) as Hun.
  pose proof (history_placed _ _ _ _ _ _ Hh) as Hplaced.
  destruct (letters_random_spec U (letters_of key)) as [_ Hrange].
  destruct (taj_len_cases tajenka) as [[Hk _]|(t & -> & Hne & Hk & Hpos)];
    rewrite Hk in Hfill.
  - rewrite bool_decide_eq_false_2 in Hfill by auto.
    pose proof (wp_run _ _ _ _ _ _
      (fill_random_spec _ g (letters_random U (letters_of key)) w1 Hsq) Hfill) as Hspec.
    destruct fres as [final|e]; [|by destruct Hspec].
    destruct Hspec as (Hsq' & Hcells & Htr & _).
    exists final, placed, w2. rewrite Htr. split_and!; try done.
    + apply (count_empty_full (Z.to_nat size)); [done|]. intros a b Ha Hb.
      destruct (Hcells a b Ha Hb) as (c & Hc & _). by exists c.
    + intros a b c Hc%Hiff.
      destruct (cell_at_lt _ _ _ _ _ Hsq Hc) as [Ha Hb].
      destruct (Hcells a b Ha Hb) as (c' & Hc' & [Hold|[Hold _]]); congruence.
    + intros a b Ha Hb Hfree.
      destruct (Hcells a b Ha Hb) as (c & Hc & [Hold|[_ Hin]]).
      * by apply Hiff, Hfree in Hold.
      * exists c. split; [done|]. right. split; [|done]. by apply Hrange.
  - rewrite bool_decide_eq_true_2 in Hfill by lia.
    change (default [] (Some t)) with t in Hfill.
    pose proof (fill_with_tajenka_result _ _ _ _ _ _ _ _ Hsq Hfill) as Hspec.
    destruct fres as [final|e]; [|by destruct Hspec as (_ & ? & _)].
    destruct Hspec as (Htr & Hsq' & [Hcells Hother] & Hfull).
    exists final, placed, w2. rewrite Htr. split_and!; try done.
    + intros a b c Hc. pose proof Hc as Hcell%Hiff. rewrite Hother; [done|].
      intros (_ & _ & Hfree)%Hun. cbn [fst snd] in Hfree.
      rewrite !Nat2Z.id in Hfree. by apply (Hfree c).
    + intros a b Ha Hb Hfree.
      assert ((Z.of_nat a, Z.of_nat b) ∈ empties_of g) as Hin.
      { apply Hun. cbn [fst snd]. rewrite !Nat2Z.id. split_and!; [lia..|done]. }
      apply list_elem_of_lookup in Hin as [i Hi].
      destruct (Hcells i _ Hi) as (ch & Hch & Hphrase & Hrandom).
      cbn [fst snd] in Hch. rewrite !Nat2Z.id in Hch. exists ch. split; [done|].
      destruct (t !! i) as [c|] eqn:Hti.
      * left. exists t. split; [done|]. rewrite (Hphrase c) by done.
        by eapply list_elem_of_lookup_2.
      * right. apply lookup_ge_None in Hti.
        assert (ch ∈ letters_random U (letters_of key)) as Hin
          by (apply Hrandom; unfold len; lia).
        split; [|done]. by apply Hrange.
Qed.

Lemma save_pdf_page_complete_witness :
  ((5 ≠ 0 ∨ [] ∉ demo_words)
   ∧ letters_random plain (letters_of AZ_key) ≠ [])
  ∧ ∃ final placed w2,
      save_pdf_page plain demo_words 5 true true AZ_key (Some (str "HI")) (start demo)
        = (Ok (final, placed), w2)
      ∧ count_empty final = 0.
Proof.
  assert (5 ≠ 0 ∨ [] ∉ demo_words) as H1 by (left; lia).
  assert (letters_random plain (letters_of AZ_key) ≠ []) as H2
    by (vm_compute; discriminate).
  split; [exact (conj H1 H2)|].
  destruct (save_pdf_page_complete plain demo_words 5 true true AZ_key
              (Some (str "HI")) demo H1 H2)
    as (final & placed & w2 & Hrun & _ & Hfull & _).
  exists final, placed, w2. exact (conj Hrun Hfull).
Defined.

(** X6. The phrase is never cut: on a page made with a non-empty phrase of
    at most as many letters as the grid has cells, [max 0 size * max 0 size],
    the cells no placed word covers, read in row-major order, spell the
    whole phrase, followed by letters of the restricted alphabet only. *)
Theorem save_pdf_page_tajenka (U : Unicode) words size diagonals backwards key
    (t : pystr) r final placed w2 :
  save_pdf_page U words size diagonals backwards key (Some t) (start r)
    = (Ok (final, placed), w2) →
  t ≠ [] → len t ≤ Z.max 0 size * Z.max 0 size →
  ∃ free filler,
    StronglySorted row_major free
    ∧ (∀ p, p ∈ free ↔
            0 ≤ p.1 < size ∧ 0 ≤ p.2 < size
            ∧ uncovered (trace w2) (Z.to_nat p.1) (Z.to_nat p.2))
    ∧ read_cells final free = (λ c, Some (Some c)) <$> (t ++ filler)
    ∧ Forall (λ c, c ∈ letters_random U (letters_of key)) filler.
Proof.
  intros Hrun Hne Hfit.
  pose proof (pick_allowed_sub diagonals backwards) as Hsub.
  destruct (taj_len_Some t Hne) as [Hk Hpos].
  destruct (save_pdf_page_run _ _ _ _ _ _ _ _ _ _ Hrun)
    as [(e & _ & [=])|(g & placed' & w1 & fres & Hg & Hfill & Hres)].
  rewrite Hk in Hg, Hfill.
  rewrite bool_decide_eq_true_2 in Hfill by lia.
  change (default [] (Some t)) with t in Hfill.
  destruct (greedy_place_run _ _ _ _ _ _ _ _ _ Hg) as (g' & placed'' & Hh & [= <- <-]).
  pose proof (history_square _ _ _ Hsub _ _ _ Hh) as Hsq.
  pose proof (fill_with_tajenka_result _ _ _ _ _ _ _ _ Hsq Hfill) as Hspec.
  destruct fres as [final'|e]; [|done]. injection Hres as <- <-.
  destruct Hspec as (Htr & _ & [Hcells _] & _).
  assert (len t ≤ len (empties_of g)) as Hroom.
  { rewrite len_empties_of.
    destruct (history_reserve _ _ _ Hsub _ _ _ Hh) as [[-> _]|Hres]; [|apply Hres; lia].
    rewrite count_empty_make_empty. lia. }
  set (letter := λ p : Z * Z,
         match cell_at final (Z.to_nat p.1) (Z.to_nat p.2) with
         | Some (Some c) => c
         | _ => 0%N
         end).
  exists (empties_of g), (drop (length t) (letter <$> empties_of g)).
  split_and!.
  - apply empties_from_sorted.
  - rewrite Htr. apply (history_uncovered _ _ _ _ _ _ Hsub Hh).
  - assert (t = take (length t) (letter <$> empties_of g)) as Ht.
    { apply list_eq. intros i. destruct (decide (i < length t)%nat) as [Hi|Hi].
      - rewrite lookup_take_lt by done. rewrite list_lookup_fmap.
        destruct (lookup_lt_is_Some_2 (empties_of g) i) as [p Hp];
          [unfold len in Hroom; lia|].
        destruct (lookup_lt_is_Some_2 t i) as [c Hc]; [done|].
        destruct (Hcells i p Hp) as (ch & Hch & Hphrase & _).
        rewrite Hp, Hc. cbn [fmap option_fmap option_map]. f_equal.
        unfold letter. rewrite Hch. symmetry. by apply Hphrase.
      - rewrite lookup_take_ge by lia. apply lookup_ge_None. lia. }
    rewrite Ht at 1. rewrite take_drop.
    unfold read_cells. rewrite <- list_fmap_compose. apply list_eq. intros i.
    rewrite !list_lookup_fmap. destruct (empties_of g !! i) as [p|] eqn:Hp; [|done].
    cbn [fmap option_fmap option_map compose]. f_equal.
    destruct (Hcells i p Hp) as (ch & Hch & _). unfold letter. by rewrite Hch.
  - apply Forall_forall. intros c [i Hi]%list_elem_of_lookup.
    rewrite lookup_drop, list_lookup_fmap in Hi.
    destruct (empties_of g !! (length t + i)%nat) as [p|] eqn:Hp; [|done].
    injection Hi as <-.
    destruct (Hcells _ p Hp) as (ch & Hch & _ & Hrandom).
    unfold letter. rewrite Hch. apply Hrandom. unfold len. lia.
Qed.

Lemma demo_page_run :
  save_pdf_page plain demo_words 5 true true AZ_key (Some (str "HI")) (start demo)
  = (Ok (demo_page, demo_words), demo_page_world).
Proof. vm_compute. reflexivity. Qed.

Lemma save_pdf_page_tajenka_witness :
  (save_pdf_page plain demo_words 5 true true AZ_key (Some (str "HI")) (start demo)
   = (Ok (demo_page, demo_words), demo_page_world)
   ∧ str "HI" ≠ [] ∧ len (str "HI") ≤ Z.max 0 5 * Z.max 0 5)
  ∧ ∃ free filler,
      read_cells demo_page free = (λ c, Some (Some c)) <$> (str "HI" ++ filler).
Proof.
  assert (str "HI" ≠ []) as H1 by (vm_compute; discriminate).
  assert (len (str "HI") ≤ Z.max 0 5 * Z.max 0 5) as H2
    by (vm_compute; discriminate).
  split; [exact (conj demo_page_run (conj H1 H2))|].
  destruct (save_pdf_page_tajenka _ _ _ _ _ _ _ _ _ _ _ demo_page_run H1 H2)
    as (free & filler & _ & _ & Hread & _).
  exists free, filler. exact Hread.
Defined.

Lemma letters_of_unknown (key : pystr) :
  key ∉ [CZ_key; AZ_key] → letters_of key = letters_of CZ_key.
Proof.
  intros Hkey. unfold letters_of, ALPHABETS.
  rewrite lookup_insert_ne by (intros <-; apply Hkey; left).
  rewrite lookup_singleton_ne by (intros <-; apply Hkey; right; left).
  vm_compute. reflexivity.
Qed.

(** X7. The fall-backs of [save_pdf]: an empty phrase gives the page that no
    phrase gives, with the same draws; an alphabet key that is not in
    [ALPHABETS] gives the page of the Czech alphabet. *)
Theorem save_pdf_page_defaults (U : Unicode) words size diagonals backwards key
    tajenka (w : World) :
  save_pdf_page U words size diagonals backwards key (Some []) w
  = save_pdf_page U words size diagonals backwards key None w
  ∧ (key ∉ [CZ_key; AZ_key] →
     save_pdf_page U words size diagonals backwards key tajenka w
     = save_pdf_page U words size diagonals backwards CZ_key tajenka w).
Proof.
  split.
  - unfold save_pdf_page.
    assert (taj_len (Some []) = 0) as ->
      by (unfold taj_len; by rewrite bool_decide_eq_false_2 by auto).
    change (taj_len None) with 0.
    by rewrite bool_decide_eq_false_2 by auto.
  - intros Hkey. unfold save_pdf_page. by rewrite (letters_of_unknown key Hkey).
Qed.

Lemma save_pdf_page_defaults_witness :
  (str "EN" ∉ [CZ_key; AZ_key])
  ∧ save_pdf_page plain demo_words 5 true true (str "EN") None (start demo)
    = save_pdf_page plain demo_words 5 true true CZ_key None (start demo).
Proof.
  assert (str "EN" ∉ [CZ_key; AZ_key]) as Hkey.
  { intros H. apply list_elem_of_In in H. vm_compute in H.
    destruct H as [H|[H|[]]]; discriminate H. }
  exact (conj Hkey
    (proj2 (save_pdf_page_defaults plain demo_words 5 true true (str "EN") None
              (start demo)) Hkey)).
Defined.

(* ===================================================================== *)
(** ** Text input: lemmas *)
(* ===================================================================== *)

(** The pieces, put together, are the text without its separators. *)
Lemma join_re_split (text : pystr) :
  mjoin (re_split text) = filter (λ c, is_sep c = false) text.
Proof.
  induction text as [|c rest IH]; [done|]. cbn [re_split].
  destruct (is_sep c) eqn:Hc.
  - rewrite filter_cons_False by (by rewrite Hc). rewrite <- IH.
    destruct rest as [|d rest']; [done|]. by destruct (is_sep d).
  - rewrite filter_cons_True by done. rewrite <- IH.
    by destruct (re_split rest).
Qed.

Lemma re_split_cons (c : char) (rest : pystr) :
  re_split (c :: rest) =
  if is_sep c then
    match rest with
    | d :: _ => if is_sep d then re_split rest else [] :: re_split rest
    | [] => [] :: re_split rest
    end
  else
    match re_split rest with
    | p :: ps => (c :: p) :: ps
    | [] => [[c]]
    end.
Proof. done. Qed.

(** A text that starts with a separator has the empty piece first. *)
Lemma re_split_sep_head (text : pystr) (c : char) :
  is_sep c = true → ∃ ps, re_split (c :: text) = [] :: ps.
Proof.
  revert c. induction text as [|d rest IH]; intros c Hc;
    rewrite re_split_cons, Hc.
  - by eexists.
  - destruct (is_sep d) eqn:Hd; [by apply IH|by eexists].
Qed.

Lemma re_split_pieces (text : pystr) :
  ∃ p ps, re_split text = p :: ps
          ∧ (∃ l2, text = p ++ l2)
          ∧ ∀ q, q ∈ ps → occurs_in q text.
Proof.
  induction text as [|c rest (p & ps & Heq & [l2 Hp] & Hps)].
  { exists [], []. split_and!; [done|by exists []|]. by intros q ?%elem_of_nil. }
  assert (∀ q, occurs_in q rest → occurs_in q (c :: rest)) as Hlift.
  { intros q (l1 & l3 & ->). by exists (c :: l1), l3. }
  assert (occurs_in p rest) as Hp' by (by exists [], l2).
  destruct (is_sep c) eqn:Hc.
  - destruct (re_split_sep_head rest c Hc) as [ps' Heq'].
    exists [], ps'. split_and!; [done|by exists (c :: rest)|].
    intros q Hq. apply Hlift.
    assert (q ∈ re_split rest) as Hin.
    { rewrite re_split_cons, Hc in Heq'.
      destruct rest as [|d rest']; [by injection Heq' as <-|].
      destruct (is_sep d); [rewrite Heq'; by right|by injection Heq' as <-]. }
    rewrite Heq in Hin. apply elem_of_cons in Hin as [->|Hin]; auto.
  - rewrite re_split_cons, Hc, Heq. exists (c :: p), ps.
    split_and!; [done| |by auto]. exists l2. by rewrite Hp.
Qed.

Lemma re_split_substring (text p : pystr) :
  p ∈ re_split text → occurs_in p text ∧ Forall (λ c, is_sep c = false) p.
Proof.
  intros Hin. split.
  - destruct (re_split_pieces text) as (p0 & ps & Heq & [l2 Hp0] & Hps).
    rewrite Heq in Hin. apply elem_of_cons in Hin as [->|Hin]; [|by auto].
    by exists [], l2.
  - apply Forall_forall. intros c Hc.
    assert (c ∈ mjoin (re_split text)) as Hcc
      by (apply list_elem_of_join; eauto).
    rewrite join_re_split in Hcc. by apply list_elem_of_filter in Hcc as [? _].
Qed.

Lemma lstrip_spec (isspace : char → bool) (s : pystr) :
  ∃ l1, s = l1 ++ lstrip isspace s
        ∧ Forall (λ c, isspace c = true) l1
        ∧ ∀ c, head (lstrip isspace s) = Some c → isspace c = false.
Proof.
  induction s as [|c rest (l1 & Heq & Hl1 & Hhd)].
  { exists []. by split_and!. }
  cbn [lstrip]. destruct (isspace c) eqn:Hc.
  - exists (c :: l1). split_and!; [by rewrite Heq at 1|by constructor|done].
  - exists []. split_and!; [done|done|]. by intros ? [= <-].
Qed.

Lemma lstrip_nil (isspace : char → bool) (s : pystr) :
  lstrip isspace s = [] ↔ Forall (λ c, isspace c = true) s.
Proof.
  destruct (lstrip_spec isspace s) as (l1 & Heq & Hl1 & Hhd). split.
  - intros H. rewrite H, app_nil_r in Heq. by subst.
  - intros Hall. destruct (lstrip isspace s) as [|c l] eqn:Hl; [done|].
    exfalso. specialize (Hhd c eq_refl).
    rewrite Heq in Hall. apply Forall_app in Hall as [_ Hall].
    apply Forall_cons in Hall as [Hc _]. congruence.
Qed.

(** [strip] cuts white space off both ends and nothing else. *)
Lemma strip_spec (isspace : char → bool) (s : pystr) :
  ∃ l1 l2, s = l1 ++ strip isspace s ++ l2
           ∧ Forall (λ c, isspace c = true) l1
           ∧ Forall (λ c, isspace c = true) l2
           ∧ (∀ c, head (strip isspace s) = Some c → isspace c = false)
           ∧ (∀ c, last (strip isspace s) = Some c → isspace c = false).
Proof.
  unfold strip.
  destruct (lstrip_spec isspace s) as (l1 & Heq1 & Hl1 & Hhd1).
  destruct (lstrip_spec isspace (reverse (lstrip isspace s)))
    as (l2 & Heq2 & Hl2 & Hhd2).
  set (y := lstrip isspace s) in *.
  set (x := lstrip isspace (reverse y)) in *.
  assert (y = reverse x ++ reverse l2) as Hy.
  { rewrite <- reverse_app, <- Heq2. by rewrite reverse_involutive. }
  exists l1, (reverse l2). split_and!.
  - by rewrite <- Hy.
  - done.
  - by apply Forall_reverse.
  - intros c Hc. apply Hhd1. rewrite Hy.
    destruct (reverse x) as [|c' l]; [done|]. done.
  - intros c Hc. apply Hhd2. rewrite last_reverse in Hc. done.
Qed.

Lemma strip_nil (isspace : char → bool) (s : pystr) :
  strip isspace s = [] ↔ Forall (λ c, isspace c = true) s.
Proof.
  unfold strip. split.
  - intros H. apply (f_equal reverse) in H. rewrite reverse_involutive in H.
    apply lstrip_nil, Forall_reverse in H. rewrite reverse_involutive in H.
    destruct (lstrip_spec isspace s) as (l1 & Heq & Hl1 & _).
    rewrite Heq. apply Forall_app. done.
  - intros H. apply lstrip_nil in H. by rewrite H.
Qed.

Lemma filter_nil_Forall {A} (P : A → Prop) `{∀ x, Decision (P x)} (l : list A) :
  filter P l = [] ↔ Forall (λ x, ¬ P x) l.
Proof.
  induction l as [|x l IH]; [done|]. rewrite filter_cons.
  destruct (decide (P x)) as [Hx|Hx].
  - split; [done|]. by intros [? _]%Forall_cons.
  - rewrite IH. split; [by constructor|by intros [_ ?]%Forall_cons].
Qed.

Lemma Forall_join_iff {A} (P : A → Prop) (ls : list (list A)) :
  Forall (Forall P) ls ↔ Forall P (mjoin ls).
Proof.
  split; [apply Forall_join|]. rewrite !Forall_forall. intros Hall l Hl.
  apply Forall_forall. intros x Hx. apply Hall, list_elem_of_join. eauto.
Qed.

Lemma substring_trans (p q s : pystr) :
  occurs_in p q → occurs_in q s → occurs_in p s.
Proof.
  intros (l1 & l2 & ->) (l3 & l4 & ->). exists (l3 ++ l1), (l2 ++ l4).
  by rewrite <- !app_assoc.
Qed.

(** X8. Every phrase read from the text is a non-empty block of consecutive
    characters of the text, contains no separator (comma, line feed,
    semicolon) and neither starts nor ends with white space; no phrase is
    returned exactly when the text consists of separators and white space
    only. *)
Theorem read_tajenky_file_phrases (isspace : char → bool) (txt : pystr) :
  (∀ p, p ∈ read_tajenky_file isspace txt →
     p ≠ [] ∧ occurs_in p txt ∧ Forall (λ c, is_sep c = false) p
     ∧ (∀ c, head p = Some c → isspace c = false)
     ∧ (∀ c, last p = Some c → isspace c = false))
  ∧ (read_tajenky_file isspace txt = [] ↔
     Forall (λ c, is_sep c = true ∨ isspace c = true) txt).
Proof.
  unfold read_tajenky_file. split.
  - intros p (q & -> & [Hne Hq]%list_elem_of_filter)%list_elem_of_fmap.
    destruct (re_split_substring _ _ Hq) as [Hsub Hnosep].
    destruct (strip_spec isspace q) as (l1 & l2 & Heq & _ & _ & Hhd & Hlast).
    split_and!; try done.
    + eapply substring_trans; [|done]. by exists l1, l2.
    + rewrite Heq in Hnosep.
      by apply Forall_app in Hnosep as [_ [? _]%Forall_app].
  - assert (strip isspace <$> filter (λ p, strip isspace p ≠ []) (re_split txt) = []
            ↔ Forall (λ q, Forall (λ c, isspace c = true) q) (re_split txt)) as ->.
    { split.
      - intros Hnil%fmap_nil_inv%filter_nil_Forall.
        eapply Forall_impl; [done|]. intros q Hq. apply strip_nil.
        by destruct (decide (strip isspace q = [])).
      - intros Hall.
        assert (filter (λ p, strip isspace p ≠ []) (re_split txt) = []) as ->; [|done].
        apply filter_nil_Forall. eapply Forall_impl; [done|].
        intros q Hq%strip_nil Hne. by apply Hne. }
    rewrite Forall_join_iff, join_re_split, !Forall_forall. split.
    + intros Hall c Hc. destruct (is_sep c) eqn:Hs; [by left|right].
      apply Hall. by apply list_elem_of_filter.
    + intros Hall c [Hs Hc]%list_elem_of_filter.
      destruct (Hall c Hc); [congruence|done].
Qed.

Lemma read_tajenky_file_phrases_witness :
  str "ab c" ∈ read_tajenky_file blank (str " ab c , ,x ;")
  ∧ occurs_in (str "ab c") (str " ab c , ,x ;").
Proof.
  assert (str "ab c" ∈ read_tajenky_file blank (str " ab c , ,x ;")) as Hin
    by (apply list_elem_of_In; vm_compute; tauto).
  split; [exact Hin|].
  exact (proj1 (proj2
    (proj1 (read_tajenky_file_phrases blank (str " ab c , ,x ;")) _ Hin))).
Defined.

(** X9. With at least one phrase, the choice of the phrase in [main] never
    fails and takes a phrase of the list: a given index is clamped to the
    list, so a negative index takes the first phrase (it does not count from
    the end) and an index past the end takes the last one, with no draw;
    without an index, one draw is made. *)
Theorem main_tajenka_clamped (U : Unicode) (isspace : char → bool)
    (phrases : list pystr) (tajenka_index : option Z) (w : World) :
  phrases ≠ [] →
  ∃ p w',
    main_tajenka U isspace phrases tajenka_index w
      = (Ok (Some (normalize_tajenka U isspace p)), w')
    ∧ p ∈ phrases
    ∧ match tajenka_index with
      | Some i =>
          w' = w
          ∧ (i < 0 → head phrases = Some p)
          ∧ (0 ≤ i < len phrases → phrases !! Z.to_nat i = Some p)
          ∧ (len phrases ≤ i → last phrases = Some p)
      | None => w' = tick w
      end.
Proof.
  intros Hne.
  assert (0 < len phrases) as Hpos
    by (destruct phrases; [done|unfold len; cbn [length]; lia]).
  assert (∀ i w', ∃ p,
            (p' ← lift (getitem phrases (Z.max 0 (Z.min i (len phrases - 1))));
             mret (Some (normalize_tajenka U isspace p'))) w'
            = (Ok (Some (normalize_tajenka U isspace p)), w')
            ∧ phrases !! Z.to_nat (Z.max 0 (Z.min i (len phrases - 1))) = Some p)
    as Hpick.
  { intros i w'.
    destruct (getitem_in phrases (Z.max 0 (Z.min i (len phrases - 1))))
      as (p & Hget & Hp); [lia|].
    exists p. split; [|done]. unfold mbind, M_bind, lift. by rewrite Hget. }
  unfold main_tajenka. destruct phrases as [|p0 rest] eqn:Hphrases; [done|].
  rewrite <- Hphrases in *. clear Hphrases.
  destruct tajenka_index as [i|].
  - destruct (Hpick i w) as (p & Hrun & Hp). exists p, w.
    split_and!; [exact Hrun|by eapply list_elem_of_lookup_2|done| | |].
    + intros Hi. rewrite <- Hp. replace (Z.max 0 (Z.min i (len phrases - 1))) with 0 by lia.
      by destruct phrases.
    + intros Hi. rewrite <- Hp. f_equal. lia.
    + intros Hi. rewrite <- Hp, last_lookup. f_equal. unfold len in *. lia.
  - unfold mbind at 1, M_bind at 1. unfold mbind at 1, M_bind at 1.
    cbn [randbelow]. unfold mret at 1, M_ret at 1.
    set (i := Z.of_nat _).
    destruct (Hpick i (tick w)) as (p & Hrun & Hp). exists p, (tick w).
    split_and!; [exact Hrun|by eapply list_elem_of_lookup_2|done].
Qed.

Lemma main_tajenka_clamped_witness :
  [str "FIRST"; str "LAST"] ≠ []
  ∧ ∃ p w',
      main_tajenka plain blank [str "FIRST"; str "LAST"] (Some (-1)) (start demo)
        = (Ok (Some (normalize_tajenka plain blank p)), w')
      ∧ head [str "FIRST"; str "LAST"] = Some p.
Proof.
  assert ([str "FIRST"; str "LAST"] ≠ []) as Hne by discriminate.
  split; [exact Hne|].
  destruct (main_tajenka_clamped plain blank [str "FIRST"; str "LAST"] (Some (-1))
              (start demo) Hne) as (p & w' & Hrun & _ & _ & Hfirst & _).
  exists p, w'. split; [exact Hrun|]. apply Hfirst. lia.
Defined.

(* ===================================================================== *)
(** ** Word lists: lemmas *)
(* ===================================================================== *)

Lemma str_lt_irrefl (a : pystr) : str_lt a a = false.
Proof.
  induction a as [|x a IH]; [done|]. cbn [str_lt].
  rewrite N.ltb_irrefl, N.eqb_refl. done.
Qed.

Lemma str_le_trans (a b c : pystr) : str_le a b → str_le b c → str_le a c.
Proof.
  unfold str_le. revert b c.
  induction a as [|x a IH]; intros [|y b] [|z c]; cbn [str_lt]; try done.
  destruct (N.ltb_spec y x), (N.ltb_spec z y), (N.ltb_spec z x),
           (N.eqb_spec y x), (N.eqb_spec z y), (N.eqb_spec z x);
    cbn [orb andb]; try done; try lia.
  apply IH.
Qed.

Lemma str_lt_le (a b : pystr) : str_lt a b = true → str_le a b.
Proof.
  unfold str_le. revert b.
  induction a as [|x a IH]; intros [|y b]; cbn [str_lt]; try done.
  destruct (N.ltb_spec x y), (N.ltb_spec y x),
           (N.eqb_spec x y), (N.eqb_spec y x);
    cbn [orb andb]; try done; try lia.
  apply IH.
Qed.

(** Two strings neither of which is below the other are the same. *)
Lemma str_le_antisym (a b : pystr) : str_le a b → str_le b a → a = b.
Proof.
  unfold str_le. revert b.
  induction a as [|x a IH]; intros [|y b]; cbn [str_lt]; try done.
  destruct (N.ltb_spec x y), (N.ltb_spec y x),
           (N.eqb_spec x y), (N.eqb_spec y x);
    cbn [orb andb]; try done; try lia.
  intros H1 H2. subst. f_equal. by apply IH.
Qed.

Lemma insert_str_perm (w : pystr) (l : list pystr) : insert_str w l ≡ₚ w :: l.
Proof.
  induction l as [|v l IH]; [done|]. cbn [insert_str].
  destruct (str_lt v w); [|done]. rewrite IH. apply Permutation_swap.
Qed.

Lemma sorted_perm (l : list pystr) : sorted l ≡ₚ l.
Proof.
  induction l as [|w l IH]; [done|]. unfold sorted. cbn [foldr].
  fold (sorted l). by rewrite insert_str_perm, IH.
Qed.

Lemma insert_str_sorted (w : pystr) (l : list pystr) :
  StronglySorted str_le l → StronglySorted str_le (insert_str w l).
Proof.
  induction 1 as [|v l Hl IH Hv]; [repeat constructor|]. cbn [insert_str].
  destruct (str_lt v w) eqn:Hvw.
  - constructor; [done|]. rewrite insert_str_perm. constructor; [|done].
    by apply str_lt_le.
  - constructor; [by constructor|]. constructor; [done|].
    eapply Forall_impl; [done|]. intros x Hx. by eapply str_le_trans.
Qed.

Lemma sorted_sorted (l : list pystr) : StronglySorted str_le (sorted l).
Proof.
  induction l as [|w l IH]; [constructor|]. by apply insert_str_sorted.
Qed.

Lemma sorted_strict (l : list pystr) :
  NoDup l → StronglySorted (λ a b, str_lt a b = true) (sorted l).
Proof.
  intros Hnd. rewrite <- (sorted_perm l) in Hnd.
  pose proof (sorted_sorted l) as Hs. revert Hnd.
  induction Hs as [|v l' Hl IH Hv]; intros Hnd; [constructor|].
  apply NoDup_cons in Hnd as [Hnotin Hnd]. constructor; [by apply IH|].
  rewrite Forall_forall in Hv |- *. intros x Hx.
  destruct (str_lt v x) eqn:Hvx; [done|]. exfalso. apply Hnotin.
  rewrite (str_le_antisym v x); [done|by apply Hv|done].
Qed.

(** X10. The word list read from a text is in strictly increasing order, so
    it has no repetition; no word of it contains white space; and
    [greedy_place], given this list, places no word twice. *)
Theorem parse_words_from_text_sorted (U : Unicode) (isspace : char → bool)
    (text : pystr) (strip_diacritics : bool) :
  let words := parse_words_from_text U isspace text strip_diacritics in
  StronglySorted (λ a b, str_lt a b = true) words
  ∧ NoDup words
  ∧ (∀ w, w ∈ words → Forall (λ c, isspace c = false) w)
  ∧ ∀ n diagonals backwards key k w0 g placed w1,
      greedy_place words n diagonals backwards key k w0 = (Ok (g, placed), w1) →
      NoDup placed.
Proof.
  intros words. unfold parse_words_from_text in words.
  set (raw := omap _ (re_split text)) in words.
  assert (NoDup words) as Hnd
    by (unfold words; rewrite sorted_perm; apply NoDup_remove_dups).
  split_and!; [apply sorted_strict, NoDup_remove_dups|done| |].
  - intros w Hw. unfold words in Hw. rewrite sorted_perm in Hw.
    rewrite elem_of_remove_dups in Hw. unfold raw in Hw.
    apply list_elem_of_omap in Hw as (p & _ & Hp).
    destruct (bool_decide (strip isspace p = [])); [done|]. injection Hp as <-.
    apply Forall_forall. by intros c [? _]%list_elem_of_filter.
  - intros n diagonals backwards key k w0 g placed w1 Hrun.
    destruct (greedy_place_pool _ _ _ _ _ _ _ _ _ _ Hrun) as (pool & Hperm & Hsl).
    apply (sublist_NoDup _ pool); [by rewrite Hperm|done].
Qed.

Lemma parse_words_from_text_sorted_witness :
  greedy_place (parse_words_from_text plain blank (str "DOG,CAT,DOG") false)
    5 true true [] 0 (start demo)
  = (Ok (demo_grid, demo_words), demo_world)
  ∧ NoDup demo_words.
Proof.
  assert (greedy_place (parse_words_from_text plain blank (str "DOG,CAT,DOG") false)
            5 true true [] 0 (start demo)
          = (Ok (demo_grid, demo_words), demo_world)) as Hrun
    by (vm_compute; reflexivity).
  split; [exact Hrun|].
  exact (proj2 (proj2 (proj2
    (parse_words_from_text_sorted plain blank (str "DOG,CAT,DOG") false)))
    _ _ _ _ _ _ _ _ _ Hrun).
Defined.

(* ===================================================================== *)
(** ** Word list layout: lemmas *)
(* ===================================================================== *)

Lemma join_insert_snoc {A} (bs : list (list A)) (k : nat) (b : list A) (w : A) :
  bs !! k = Some b → mjoin (<[k := b ++ [w]]> bs) ≡ₚ mjoin bs ++ [w].
Proof.
  revert k. induction bs as [|b0 bs IH]; intros [|k] Hk; try done.
  - injection Hk as ->. cbn. rewrite <- !app_assoc. f_equiv. apply Permutation_app_comm.
  - cbn. rewrite IH by done. by rewrite app_assoc.
Qed.

Lemma dealt_step (c : nat) (ordered : list pystr) (i : nat) bs w :
  (0 < c)%nat → ordered !! i = Some w → dealt c ordered i bs →
  ∃ b, bs !! (i `mod` c)%nat = Some b
       ∧ dealt c ordered (S i) (<[(i `mod` c)%nat := b ++ [w]]> bs).
Proof.
  intros Hc Hw (Hlen & Hperm & Hcols).
  pose proof (Nat.mod_upper_bound i c ltac:(lia)) as Hk.
  pose proof (Nat.div_mod_eq i c) as Hdiv.
  set (k := (i `mod` c)%nat) in *. set (q := (i `div` c)%nat) in *.
  pose proof (lookup_lt_Some _ _ _ Hw) as Hi.
  destruct (lookup_lt_is_Some_2 bs k) as [b Hb]; [lia|]. exists b. split; [done|].
  assert (length b = q) as Hq.
  { pose proof (Hcols k q Hk) as H1. unfold entry in H1. rewrite Hb in H1.
    cbn in H1. rewrite decide_False in H1 by lia. apply lookup_ge_None in H1.
    destruct (decide (q = 0)%nat) as [->|Hq0]; [lia|].
    pose proof (Hcols k (q - 1)%nat Hk) as H2. unfold entry in H2. rewrite Hb in H2.
    cbn in H2. rewrite decide_True in H2 by nia.
    destruct (lookup_lt_is_Some_2 ordered ((q - 1) * c + k)) as [x Hx]; [nia|].
    rewrite Hx in H2. apply lookup_lt_Some in H2. lia. }
  split_and!.
  - by rewrite length_insert.
  - rewrite join_insert_snoc by done. rewrite Hperm.
    by rewrite (take_S_r _ _ _ Hw).
  - intros j r Hj. unfold entry. destruct (decide (j = k)) as [->|Hjk].
    + rewrite list_lookup_insert_eq by lia. cbn.
      destruct (decide (r < q)%nat) as [Hr|Hr].
      * rewrite lookup_app_l by lia. pose proof (Hcols k r Hk) as H1.
        unfold entry in H1. rewrite Hb in H1. cbn in H1. rewrite H1.
        rewrite !decide_True by nia. done.
      * destruct (decide (r = q)) as [->|Hrq].
        -- rewrite lookup_app_r by lia. rewrite Hq, Nat.sub_diag. cbn.
           rewrite decide_True by lia. rewrite <- Hw. f_equal. lia.
        -- rewrite lookup_ge_None_2 by (rewrite length_app; cbn; lia).
           rewrite decide_False by nia. done.
    + rewrite list_lookup_insert_ne by done. pose proof (Hcols j r Hj) as H1.
      unfold entry in H1. rewrite H1.
      assert ((r * c + j)%nat ≠ i) as Hne.
      { intros Heq. apply Hjk. unfold k. rewrite <- Heq.
        rewrite Nat.add_comm, Nat.Div0.mod_add. by rewrite Nat.mod_small. }
      destruct (decide (r * c + j < i)%nat), (decide (r * c + j < S i)%nat);
        try done; lia.
Qed.

Lemma deal_spec (c : nat) (ordered : list pystr) (rest : list pystr) :
  (0 < c)%nat →
  ∀ (i : nat) bs,
  drop i ordered = rest → dealt c ordered i bs →
  ∃ bs', deal (Z.of_nat c) (Z.of_nat i) rest bs = Ok bs'
         ∧ dealt c ordered (length ordered) bs'.
Proof.
  intros Hc. induction rest as [|w rest IH]; intros i bs Hdrop Hinv.
  { exists bs. split; [done|].
    assert (length ordered ≤ i)%nat as Hle.
    { apply (f_equal length) in Hdrop. rewrite length_drop in Hdrop. cbn in Hdrop. lia. }
    destruct Hinv as (Hlen & Hperm & Hcols). split_and!; [done| |].
    - by rewrite firstn_all, <- (take_ge ordered i).
    - intros j r Hj. rewrite (Hcols j r Hj).
      destruct (decide (r * c + j < i)%nat), (decide (r * c + j < length ordered)%nat);
        try done; [|lia].
      by apply lookup_ge_None_2; lia. }
  assert (ordered !! i = Some w) as Hw.
  { rewrite <- (Nat.add_0_r i), <- lookup_drop, Hdrop. done. }
  destruct (dealt_step c ordered i bs w Hc Hw Hinv) as (b & Hb & Hinv').
  pose proof (Nat.mod_upper_bound i c ltac:(lia)) as Hk.
  destruct Hinv as (Hlen & _).
  cbn [deal]. rewrite <- Nat2Z.inj_mod.
  rewrite (getitem_nat _ _ _ Hb). rewrite setitem_in by (unfold len; lia).
  rewrite Nat2Z.id. replace (Z.of_nat i + 1) with (Z.of_nat (S i)) by lia.
  apply IH; [|done]. rewrite (drop_S _ _ _ Hw) in Hdrop. by injection Hdrop.
Qed.

Lemma dealt_init (c : nat) (ordered : list pystr) :
  dealt c ordered 0 (replicate c []).
Proof.
  split_and!.
  - apply length_replicate.
  - rewrite take_0. induction c as [|c IH]; [done|]. by cbn.
  - intros j r Hj. unfold entry. rewrite lookup_replicate_2 by done. cbn.
    by rewrite decide_False by lia.
Qed.

(** X11. With at least one column, the word list is laid out without error:
    the words, sorted, are dealt to the columns in turn, so that word [r] of
    column [j] is word [r * cols + j] of the sorted list; every word is in
    exactly one column, and column [j] has
    [(len(words) + cols - 1 - j) // cols] words (the columns differ by at
    most one word, the longer ones first). *)
Theorem draw_word_list_below_columns (words : list pystr) (cols : Z) :
  1 ≤ cols →
  ∃ buckets,
    draw_word_list_below words cols = Drawn buckets
    ∧ length buckets = Z.to_nat cols
    ∧ mjoin buckets ≡ₚ words
    ∧ StronglySorted str_le (sorted words)
    ∧ (∀ j r : nat, (j < Z.to_nat cols)%nat →
         entry buckets j r = sorted words !! (r * Z.to_nat cols + j)%nat)
    ∧ (∀ (j : nat) col, buckets !! j = Some col →
         len col = (len words + cols - 1 - Z.of_nat j) `div` cols).
Proof.
  intros Hcols. unfold draw_word_list_below.
  rewrite bool_decide_eq_false_2 by lia.
  set (c := Z.to_nat cols). assert (0 < c)%nat as Hc by lia.
  destruct (deal_spec c (sorted words) (sorted words) Hc 0 (replicate c [])
              eq_refl (dealt_init c (sorted words)))
    as (bs & Hdeal & Hlen & Hperm & Hentries).
  assert (deal cols 0 (sorted words) (replicate c []) = Ok bs) as ->
    by (rewrite <- Hdeal; f_equal; lia).
  exists bs.
  assert (∀ j r : nat, (j < c)%nat →
            entry bs j r = sorted words !! (r * c + j)%nat) as Hentry.
  { intros j r Hj. rewrite (Hentries j r Hj).
    destruct (decide (r * c + j < length (sorted words))%nat); [done|].
    symmetry. apply lookup_ge_None_2. lia. }
  assert (length (sorted words) = length words) as Hn
    by (by rewrite sorted_perm).
  split_and!; [done|done| |apply sorted_sorted|done|].
  - by rewrite Hperm, firstn_all, sorted_perm.
  - intros j col Hcol. pose proof (lookup_lt_Some _ _ _ Hcol) as Hj.
    assert (∀ r, col !! r = sorted words !! (r * c + j)%nat) as Hcol'.
    { intros r. rewrite <- Hentry by lia. unfold entry. by rewrite Hcol. }
    set (L := length col).
    assert (¬ (L * c + j < length words)%nat) as Hup.
    { intros Hlt. pose proof (Hcol' L) as H.
      rewrite lookup_ge_None_2 in H by done.
      symmetry in H. apply lookup_ge_None in H. lia. }
    assert (L ≠ 0%nat → ((L - 1) * c + j < length words)%nat) as Hlow.
    { intros HL. pose proof (Hcol' (L - 1)%nat) as H.
      destruct (lookup_lt_is_Some_2 col (L - 1)) as [x Hx]; [lia|].
      rewrite Hx in H. symmetry in H. apply lookup_lt_Some in H. lia. }
    unfold len. fold L.
    apply (Z.div_unique _ _ _
             (Z.of_nat (length words) + cols - 1 - Z.of_nat j - cols * Z.of_nat L));
      [|lia].
    left. destruct (decide (L = 0%nat)) as [HL|HL]; [nia|].
    specialize (Hlow HL). nia.
Qed.

Lemma draw_word_list_below_columns_witness :
  1 ≤ 2
  ∧ ∃ buckets,
      draw_word_list_below [str "DOG"; str "CAT"; str "ANT"] 2 = Drawn buckets
      ∧ entry buckets 0 1 = sorted [str "DOG"; str "CAT"; str "ANT"] !! 2%nat.
Proof.
  assert (1 ≤ 2) as H by lia. split; [exact H|].
  destruct (draw_word_list_below_columns [str "DOG"; str "CAT"; str "ANT"] 2 H)
    as (bs & Hrun & _ & _ & _ & Hentry & _).
  exists bs. split; [exact Hrun|]. apply (Hentry 0%nat 1%nat). vm_compute. lia.
Defined.

(** X12. Without a column the layout fails: with [cols = 0] always, by
    [ZeroDivisionError]; with [cols < 0] by [IndexError] as soon as there is
    a word to lay out, and with no column at all when there is none. *)
Theorem draw_word_list_below_no_column (words : list pystr) (cols : Z) :
  (cols = 0 → draw_word_list_below words cols = Failed ZeroDivisionError)
  ∧ (cols < 0 → words = [] → draw_word_list_below words cols = Drawn [])
  ∧ (cols < 0 → words ≠ [] →
     draw_word_list_below words cols = Failed (Indexing IndexError)).
Proof.
  unfold draw_word_list_below. split_and!.
  - intros ->. done.
  - intros Hcols ->. rewrite bool_decide_eq_false_2 by lia.
    by replace (Z.to_nat cols) with 0%nat by lia.
  - intros Hcols Hne. rewrite bool_decide_eq_false_2 by lia.
    replace (Z.to_nat cols) with 0%nat by lia.
    destruct (sorted words) as [|w rest] eqn:Hs; [|done].
    exfalso. apply Hne. apply Permutation_nil_r. by rewrite <- Hs, sorted_perm.
Qed.

Lemma draw_word_list_below_no_column_witness :
  (-1 < 0 ∧ demo_words ≠ [])
  ∧ draw_word_list_below demo_words (-1) = Failed (Indexing IndexError).
Proof.
  assert (-1 < 0) as H1 by lia.
  assert (demo_words ≠ []) as H2 by discriminate.
  split; [exact (conj H1 H2)|].
  exact (proj2 (proj2 (draw_word_list_below_no_column demo_words (-1))) H1 H2).
Defined.

(* ===================================================================== *)
(** ** The earlier version: lemmas *)
(* ===================================================================== *)

Lemma zaloha_place_word_from_eq (x y dx dy : Z) (word : pystr) :
  ∀ (g : grid) (i : Z) (coords : list (Z * Z)),
  zaloha_place_word_from g x y dx dy i word coords
  = match place_word_from g x y dx dy i word with
    | Ok g' =>
        Ok (g', coords ++ ((λ j, (y + dy * j, x + dx * j)) <$> seqZ i (len word)))
    | Raise e => Raise e
    end.
Proof.
  induction word as [|ch rest IH]; intros g i coords.
  { cbn. by rewrite app_nil_r. }
  cbn [zaloha_place_word_from place_word_from].
  destruct (setcell g (y + dy * i) (x + dx * i) (Some ch)) as [g'|e]; [|done].
  rewrite IH. destruct (place_word_from g' x y dx dy (i + 1) rest); [|done].
  f_equal. f_equal. rewrite <- app_assoc. f_equal.
  unfold len. cbn [length]. rewrite Nat2Z.inj_succ, (seqZ_cons i) by lia.
  cbn [fmap list_fmap]. f_equal. f_equal; f_equal; lia.
Qed.

(** An approved path can be counted: [new_cells] does not fail on it. *)
Lemma can_place_from_new_cells (g : grid) (x y dx dy : Z) (word : pystr) :
  ∀ i, can_place_from g x y dx dy i word = Ok true →
       ∃ m, new_cells_over g x y dx dy (seqZ i (len word)) = Ok m.
Proof.
  induction word as [|ch rest IH]; intros i; [by exists 0|].
  cbn [can_place_from].
  destruct (_ || _); [done|].
  destruct (getcell g (y + dy * i) (x + dx * i)) as [c|e] eqn:Hc; [|done].
  destruct (_ && _); [done|]. intros [m Hm]%IH.
  unfold len. cbn [length]. rewrite Nat2Z.inj_succ, (seqZ_cons i) by lia.
  cbn [new_cells_over]. rewrite Hc.
  replace (Z.succ i) with (i + 1) by lia.
  replace (Z.pred (Z.succ (Z.of_nat (length rest)))) with (len rest)
    by (unfold len; lia).
  rewrite Hm. by eexists.
Qed.

Lemma zaloha_trial_loop_eq (fuel : nat) (n : Z) (allowed : list direction)
    (g : grid) (w : pystr) :
  ∀ w0, zaloha_trial_loop fuel n allowed g w w0
        = trial_loop fuel n 0 allowed g w w0.
Proof.
  induction fuel as [|fuel IH]; intros w0; [done|].
  cbn [zaloha_trial_loop trial_loop]. unfold mbind, M_bind.
  destruct (choice allowed w0) as [[d|e] w1]; [|done].
  destruct (randint _ _ w1) as [[x|e] w2]; [|done].
  destruct (randint _ _ w2) as [[y|e] w3]; [|done].
  unfold lift at 1 3.
  destruct (can_place g x y d.1.1 d.1.2 w) as [[|]|e] eqn:Hcan; [| |done].
  - destruct (can_place_from_new_cells _ _ _ _ _ _ _ Hcan) as [m Hm].
    unfold lift at 2. unfold new_cells, range. rewrite Hm.
    rewrite bool_decide_eq_false_2 by auto. cbn [andb].
    unfold lift. unfold zaloha_place_word, place_word.
    rewrite zaloha_place_word_from_eq.
    by destruct (place_word_from g x y d.1.1 d.1.2 0 w).
  - unfold log. apply IH.
Qed.

Lemma M_bind_run {A B} (m : M A) (f : A → M B) (w : World) :
  (m ≫= f) w
  = match m w with
    | (Ok a, w') => f a w'
    | (Raise e, w') => (Raise e, w')
    end.
Proof. reflexivity. Qed.

Lemma for_each_ext {A St} (l : list A) (f g : A → St → M St) :
  (∀ a s w, f a s w = g a s w) →
  ∀ s w, for_each l f s w = for_each l g s w.
Proof.
  intros Hfg. induction l as [|a l IH]; intros s w; [reflexivity|].
  cbn [for_each]. unfold mbind, M_bind. rewrite Hfg.
  destruct (g a s w) as [[s'|e] w']; [apply IH|reflexivity].
Qed.

Lemma zaloha_for_each_eq (fuel : nat) (n : Z) (allowed : list direction)
    (pool : list pystr) (s : grid * list pystr) (w0 : World) :
  for_each pool (λ w s,
    if len w >? n then mret s
    else
      r ← zaloha_trial_loop fuel n allowed s.1 w;
      match r with
      | Some g' => mret (g', s.2 ++ [w])
      | None => mret s
      end) s w0
  = for_each pool (λ w s,
      if len w >? n then mret s
      else
        r ← trial_loop fuel n 0 allowed s.1 w;
        match r with
        | Some g' => mret (g', s.2 ++ [w])
        | None => mret s
        end) s w0.
Proof.
  apply for_each_ext. intros w s' w'.
  destruct (len w >? n); [reflexivity|].
  unfold mbind, M_bind. by rewrite zaloha_trial_loop_eq.
Qed.

(** A run of the earlier [greedy_place]: one shuffle, then a page without
    phrase for the shuffled list. *)
Lemma zaloha_greedy_place_run (U : Unicode) (words : list pystr) (n : Z)
    (diagonals backwards : bool) (alphabet_key : pystr) (w0 : World) res w2 :
  zaloha_greedy_place U words n diagonals backwards alphabet_key w0 = (res, w2) →
  ∃ pool w1,
    shuffle words w0 = (Ok pool, w1)
    ∧ save_pdf_page U pool n diagonals backwards alphabet_key None w1 = (res, w2).
Proof.
  unfold zaloha_greedy_place, save_pdf_page, greedy_place, place_each.
  generalize 1000%nat. intros fuel.
  change (taj_len None) with 0. rewrite bool_decide_eq_false_2 by auto.
  rewrite (M_bind_run (shuffle words)).
  pose proof (wp_shuffle words (λ _ _, False) w0) as Hsh. unfold wp in Hsh.
  destruct (shuffle words w0) as [[pool|e] w1]; [|done].
  intros Hrun. exists pool, w1. split; [reflexivity|].
  rewrite <- Hrun. rewrite !M_bind_run.
  destruct (shuffle (sort_by_len_desc pool) w1) as [[pool'|e] w1'];
    [|reflexivity].
  rewrite !M_bind_run.
  rewrite (zaloha_for_each_eq fuel n (pick_allowed diagonals backwards) pool').
  reflexivity.
Qed.

(** X13. The earlier [greedy_place] is the present page pipeline without a
    phrase, run on the word list shuffled once more: same grid, same list of
    placed words, same draws. *)
Theorem zaloha_greedy_place_refines (U : Unicode) (words : list pystr) (n : Z)
    (diagonals backwards : bool) (alphabet_key : pystr) (w0 : World) :
  zaloha_greedy_place U words n diagonals backwards alphabet_key w0
  = (words_pool ← shuffle words;
     save_pdf_page U words_pool n diagonals backwards alphabet_key None) w0.
Proof.
  destruct (zaloha_greedy_place U words n diagonals backwards alphabet_key w0)
    as [res w2] eqn:Hrun.
  destruct (zaloha_greedy_place_run _ _ _ _ _ _ _ _ _ Hrun)
    as (pool & w1 & Hshuffle & Hpage).
  rewrite M_bind_run, Hshuffle. symmetry. exact Hpage.
Qed.

(** X14. The earlier [place_word], for every grid, origin, direction and
    word, writes what the present one writes (and fails where it fails) and
    returns the cells of the path, [(y + dy*i, x + dx*i)] for each letter
    [i], as (row, column), in the order of the letters.  After a placement
    approved by [can_place] on a square grid every returned cell is inside
    the grid; if moreover the direction is not (0, 0), the write succeeds
    and each returned cell holds its letter. *)
Theorem zaloha_place_word_coords (g : grid) (x y dx dy : Z) (w : pystr) :
  zaloha_place_word g x y dx dy w
  = match place_word g x y dx dy w with
    | Ok g' => Ok (g', path x y dx dy (len w))
    | Raise e => Raise e
    end
  ∧ length (path x y dx dy (len w)) = length w
  ∧ (∀ i : nat, (i < length w)%nat →
       path x y dx dy (len w) !! i
       = Some (y + dy * Z.of_nat i, x + dx * Z.of_nat i))
  ∧ ∀ n : nat, square n g → can_place g x y dx dy w = Ok true →
      (∀ p, p ∈ path x y dx dy (len w) →
         0 ≤ p.1 < Z.of_nat n ∧ 0 ≤ p.2 < Z.of_nat n)
      ∧ (dx ≠ 0 ∨ dy ≠ 0 →
         ∃ g',
           place_word g x y dx dy w = Ok g'
           ∧ zaloha_place_word g x y dx dy w = Ok (g', path x y dx dy (len w))
           ∧ ∀ (i : nat) ch, w !! i = Some ch →
               getcell g' (y + dy * Z.of_nat i) (x + dx * Z.of_nat i)
               = Ok (Some ch)).
Proof.
  assert (zaloha_place_word g x y dx dy w
          = match place_word g x y dx dy w with
            | Ok g' => Ok (g', path x y dx dy (len w))
            | Raise e => Raise e
            end) as Heq.
  { unfold zaloha_place_word, place_word. rewrite zaloha_place_word_from_eq.
    by destruct (place_word_from g x y dx dy 0 w). }
  assert (∀ i : nat, (i < length w)%nat →
            path x y dx dy (len w) !! i
            = Some (y + dy * Z.of_nat i, x + dx * Z.of_nat i)) as Hpath.
  { intros i Hi. unfold path, range. rewrite list_lookup_fmap.
    rewrite lookup_seqZ_lt by (unfold len; lia). cbn. do 2 f_equal; lia. }
  split_and!; [done| |done|].
  { unfold path, range, len. rewrite length_fmap, length_seqZ. lia. }
  intros n Hsq Hcan. split.
  - intros p Hp. unfold path, range in Hp.
    apply list_elem_of_fmap in Hp as (i & -> & [Hi0 Hi1]%elem_of_seqZ).
    destruct (can_place_square n g x y dx dy w Hsq) as (b & Hb & Hiff).
    assert (b = true) as -> by congruence.
    destruct (lookup_lt_is_Some_2 w (Z.to_nat i)) as [ch Hch];
      [unfold len in Hi1; lia|].
    destruct (proj1 Hiff eq_refl _ _ Hch) as (Hx & Hy & _).
    rewrite Z2Nat.id in Hx, Hy by lia.
    assert (len g = Z.of_nat n) as Hlen by (destruct Hsq; unfold len; lia).
    cbn [fst snd]. lia.
  - intros Hdir.
    destruct (place_checked n g x y dx dy w Hsq Hdir Hcan)
      as (g' & k & Hplace & _ & _ & _ & _ & _ & Hread & _).
    exists g'. rewrite Heq, Hplace. split; [done|]. split; [done|].
    intros i ch Hi. by destruct (Hread i ch Hi) as [_ Hget].
Qed.

Lemma zaloha_place_word_coords_witness :
  (square 5 (make_empty 5)
   ∧ can_place (make_empty 5) 2 0 1 1 (str "CAT") = Ok true
   ∧ ((1 : Z) ≠ 0 ∨ (1 : Z) ≠ 0))
  ∧ ∃ g',
      zaloha_place_word (make_empty 5) 2 0 1 1 (str "CAT")
      = Ok (g', path 2 0 1 1 (len (str "CAT")))
      ∧ getcell g' (0 + 1 * Z.of_nat 1) (2 + 1 * Z.of_nat 1) = Ok (Some 65%N).
Proof.
  assert (square 5 (make_empty 5)) as H1 by apply (make_empty_square 5).
  assert (can_place (make_empty 5) 2 0 1 1 (str "CAT") = Ok true) as H2
    by (vm_compute; reflexivity).
  assert ((1 : Z) ≠ 0 ∨ (1 : Z) ≠ 0) as H3 by (left; lia).
  split; [exact (conj H1 (conj H2 H3))|].
  destruct (zaloha_place_word_coords (make_empty 5) 2 0 1 1 (str "CAT"))
    as (_ & _ & _ & Hchecked).
  destruct (Hchecked 5%nat H1 H2) as [_ Hwrite].
  destruct (Hwrite H3) as (g' & _ & Hrun & Hread).
  exists g'. split; [exact Hrun|]. apply (Hread 1%nat). reflexivity.
Defined.

(** X15. The earlier [greedy_place] on a grid of side at least 1, with an
    alphabet that keeps a letter A-Z, returns a complete grid, and its list
    of placed words is empty exactly when every word is longer than the
    side: the check [if not _placed] of [main] stops the program in that
    case and in no other. *)
Theorem zaloha_greedy_place_smoke (U : Unicode) (words : list pystr) (n : Z)
    (diagonals backwards : bool) (alphabet_key : pystr) (r : Random) :
  1 ≤ n → letters_random U (letters_of alphabet_key) ≠ [] →
  ∃ final placed w2,
    zaloha_greedy_place U words n diagonals backwards alphabet_key (start r)
      = (Ok (final, placed), w2)
    ∧ square (Z.to_nat n) final
    ∧ count_empty final = 0
    ∧ (placed = [] ↔ Forall (λ w, n < len w) words).
Proof.
  intros Hn Hletters.
  destruct (zaloha_greedy_place U words n diagonals backwards alphabet_key (start r))
    as [res w2] eqn:Hrun.
  destruct (zaloha_greedy_place_run _ _ _ _ _ _ _ _ _ Hrun)
    as (pool & [r' T'] & Hshuffle & Hpage).
  pose proof (wp_run _ _ _ _ _ _
    (wp_shuffle words (λ _ _, False) (start r)) Hshuffle) as (Hperm & HT & _).
  cbn in HT. subst T'. change {| rng := r'; trace := [] |} with (start r') in *.
  destruct (save_pdf_page_run _ _ _ _ _ _ _ _ _ _ Hpage)
    as [(e & Hg & _)|(g & placed & w1 & fres & Hg & Hfill & ->)];
    change (taj_len None) with 0 in Hg.
  { destruct (greedy_place_run _ _ _ _ _ _ _ _ _ Hg) as (_ & _ & _ & -> & _). lia. }
  change (taj_len None) with 0 in Hfill.
  rewrite bool_decide_eq_false_2 in Hfill by auto.
  pose proof (greedy_place_first_fit pool n diagonals backwards alphabet_key 0 r'
                g placed w1 Hn (or_introl eq_refl) Hg) as Hiff.
  destruct (greedy_place_run _ _ _ _ _ _ _ _ _ Hg) as (g' & placed' & Hh & [= <- <-]).
  pose proof (history_square _ _ _ (pick_allowed_sub diagonals backwards) _ _ _ Hh)
    as Hsq.
  pose proof (wp_run _ _ _ _ _ _
    (fill_random_spec _ g (letters_random U (letters_of alphabet_key)) w1 Hsq) Hfill)
    as Hspec.
  destruct fres as [final|e]; [|by destruct Hspec].
  destruct Hspec as (Hsq' & Hcells & _).
  exists final, placed, w2. split_and!; [done|done| |].
  - apply (count_empty_full (Z.to_nat n)); [done|]. intros a b Ha Hb.
    destruct (Hcells a b Ha Hb) as (c & Hc & _). by exists c.
  - rewrite Hiff. by rewrite Hperm.
Qed.

Lemma zaloha_greedy_place_smoke_witness :
  (1 ≤ 5 ∧ letters_random plain (letters_of AZ_key) ≠ [])
  ∧ ∃ final placed w2,
      zaloha_greedy_place plain demo_words 5 true true AZ_key (start demo)
        = (Ok (final, placed), w2)
      ∧ count_empty final = 0.
Proof.
  assert (1 ≤ 5) as H1 by lia.
  assert (letters_random plain (letters_of AZ_key) ≠ []) as H2
    by (vm_compute; discriminate).
  split; [exact (conj H1 H2)|].
  destruct (zaloha_greedy_place_smoke plain demo_words 5 true true AZ_key demo H1 H2)
    as (final & placed & w2 & Hrun & _ & Hfull & _).
  exists final, placed, w2. exact (conj Hrun Hfull).
Defined.
